(** * Balloon Analogue Risk Task (multi-risk): a shallow embedding

    The development follows the two source files of the repository:
    [Util.py] (the probability-table loader [extractProb], the CSV set-up
    [setupCSV] and the round-risk assignment [populateRisks]) and the
    multi-risk task script (the state classes [Start], [Setup], [Play],
    [Popped], [Cashed], [Exit] and the [Control] state machine).

    Python integers are [Z]; Python lists are [list]s indexed the way Python
    indexes them (negative indices count from the end, anything else out of
    range raises [IndexError]); exceptions are the [Raise] results of a small
    error monad; the module-level random generator is a stream of raw draws
    together with a read position that every call of [random.randint]
    advances by one.  A string holds the characters of a line as code
    points below 256.  The screen is not modelled: of drawing, the
    development keeps what can raise. *)

From Stdlib Require Import ZArith Lia Bool Ascii String DecimalString.
From stdpp Require Import base list strings.

Local Open Scope Z_scope.

(** ** Exceptions and the error monad *)

Inductive exn : Type :=
| IndexError       (* list index out of range *)
| ValueError       (* empty range for randint, bad literal for int, bad unpack *)
| KeyError         (* missing dictionary key *)
| AttributeError   (* attribute read after [del] *)
| TypeError        (* unpacking [None] *)
| OSError          (* a send on a closed socket or to a peer that is gone *)
| FileNotFoundError (* [pygame.image.load] of a file that is not there *)
| Diverged.        (* a [while] loop did not finish within the iteration budget *)

Inductive res (A : Type) : Type :=
| Ret (a : A)
| Raise (e : exn).
Arguments Ret {A} a.
Arguments Raise {A} e.

Definition bind {A B : Type} (m : res A) (k : A -> res B) : res B :=
  match m with
  | Ret a => k a
  | Raise e => Raise e
  end.

Notation "'let*' x ':=' m 'in' k" := (bind m (fun x => k))
  (at level 10, x strict pattern, m at level 100, k at level 200).

(** ** Python lists *)

(** [l[i]]: a negative index counts from the end of the list. *)
Definition getitem {A : Type} (l : list A) (i : Z) : res A :=
  let j := if i <? 0 then Z.of_nat (length l) + i else i in
  if j <? 0 then Raise IndexError
  else match l !! Z.to_nat j with
       | Some x => Ret x
       | None => Raise IndexError
       end.

(** [l[i] = x]. *)
Definition setitem {A : Type} (l : list A) (i : Z) (x : A) : res (list A) :=
  let j := if i <? 0 then Z.of_nat (length l) + i else i in
  if (j <? 0) || (Z.of_nat (length l) <=? j) then Raise IndexError
  else Ret (<[Z.to_nat j := x]> l).

(** ** The random generator

    [rand k] is the raw outcome of the [k]-th call of the generator;
    [random.randint(a, b)] maps it onto the [b - a + 1] integers of [a..b]
    and raises [ValueError] on an empty range. *)

Definition rng := nat -> Z.

Definition randint (rand : rng) (a b : Z) (pos : nat) : res (Z * nat) :=
  if b <? a then Raise ValueError
  else Ret (a + rand pos mod (b - a + 1), S pos).

(** The sample space of [random.randint(a, b)]: the integers [a..b], each
    equally likely. *)
Definition randint_outcomes (a b : Z) : list Z :=
  map (fun k : nat => a + Z.of_nat k) (seq 0 (Z.to_nat (b - a + 1))).

(** ** Risk tiers *)

Inductive tier : Type := high | medium | low.

Global Instance tier_eq_dec : EqDecision tier.
Proof. solve_decision. Defined.

Definition risks : list tier := [high; medium; low].

Definition risk_name (r : tier) : string :=
  match r with
  | high => "high"
  | medium => "medium"
  | low => "low"
  end.

(** ** Util: the table loader, the CSV fields and the risk assignment *)

(** The probability table: the dictionary with the three keys "high",
    "medium" and "low". *)
Record table : Type := {
  t_high : list Z;
  t_medium : list Z;
  t_low : list Z
}.

Definition table_get (probs : table) (r : tier) : list Z :=
  match r with
  | high => t_high probs
  | medium => t_medium probs
  | low => t_low probs
  end.

(** [probs[risk] = v] *)
Definition dict_set (probs : table) (r : tier) (v : list Z) : table :=
  match r with
  | high => {| t_high := v; t_medium := t_medium probs; t_low := t_low probs |}
  | medium => {| t_high := t_high probs; t_medium := v; t_low := t_low probs |}
  | low => {| t_high := t_high probs; t_medium := t_medium probs; t_low := v |}
  end.

(** [probs[risk]]: a round whose slot was left at [None] has no entry. *)
Definition dict_get (probs : table) (r : option tier) : res (list Z) :=
  match r with
  | Some r => Ret (table_get probs r)
  | None => Raise KeyError
  end.

Module Text.

(** [s.split(",")] *)
Fixpoint split (sep : ascii) (s : string) : list string :=
  match s with
  | EmptyString => [EmptyString]
  | String c s' =>
      if Ascii.eqb c sep then EmptyString :: split sep s'
      else match split sep s' with
           | [] => [String c EmptyString]
           | w :: ws => String c w :: ws
           end
  end.

(** The blanks [int] skips at both ends of its argument: space and the
    controls 9 to 13; in a string with characters above 127 the two blanks
    of that range, 133 and 160, are first turned into spaces.  The
    separators 28 to 31 are not skipped. *)
Definition is_space (c : ascii) : bool :=
  let n := nat_of_ascii c in
  (n =? 32)%nat || ((9 <=? n)%nat && (n <=? 13)%nat)
  || (n =? 133)%nat || (n =? 160)%nat.

Fixpoint lstrip (l : list ascii) : list ascii :=
  match l with
  | c :: l' => if is_space c then lstrip l' else l
  | [] => []
  end.

Definition strip (l : list ascii) : list ascii := rev (lstrip (rev (lstrip l))).

Definition digit (c : ascii) : option Z :=
  let n := nat_of_ascii c in
  if (48 <=? n)%nat && (n <=? 57)%nat then Some (Z.of_nat n - 48) else None.

(** Decimal digits, single underscores allowed between two digits. *)
Fixpoint digits (acc : Z) (after_digit : bool) (l : list ascii) : option Z :=
  match l with
  | [] => if after_digit then Some acc else None
  | c :: l' =>
      match digit c with
      | Some d => digits (10 * acc + d) true l'
      | None =>
          if Ascii.eqb c "_"%char && after_digit then digits acc false l' else None
      end
  end.

(** The number of digit characters of a literal. *)
Fixpoint count_digits (l : list ascii) : nat :=
  match l with
  | [] => 0
  | c :: l' => ((match digit c with Some _ => 1 | None => 0 end) + count_digits l')%nat
  end.

(** [sys.int_max_str_digits], at its default. *)
Definition max_str_digits : nat := 4300.

(** [int(s)]: surrounding blanks, an optional sign, decimal digits;
    anything else is a [ValueError], and so is a literal of more than
    [max_str_digits] digits. *)
Definition int (s : string) : res Z :=
  let body := strip (list_ascii_of_string s) in
  let parsed :=
    match body with
    | "+"%char :: ds => digits 0 false ds
    | "-"%char :: ds => Z.opp <$> digits 0 false ds
    | ds => digits 0 false ds
    end in
  match parsed with
  | Some z =>
      if (max_str_digits <? count_digits body)%nat then Raise ValueError else Ret z
  | None => Raise ValueError
  end.

End Text.

(** [list(map(f, l))] for an [f] that may raise. *)
Fixpoint map_res {A B : Type} (f : A -> res B) (l : list A) : res (list B) :=
  match l with
  | [] => Ret []
  | x :: l' =>
      let* y := f x in
      let* ys := map_res f l' in
      Ret (y :: ys)
  end.

(** [file.readline()]: the next line, or the empty string at the end of the
    file. *)
Definition readline (file : list string) : string * list string :=
  match file with
  | [] => (EmptyString, [])
  | line :: rest => (line, rest)
  end.

Module Util.

(** The [for risk in risks] loop of the [multi] branch. *)
Fixpoint extractProb_loop (rs : list tier) (file : list string) (probs : table)
    : res table :=
  match rs with
  | [] => Ret probs
  | r :: rs' =>
      let '(line, file') := readline file in
      let fields := Text.split ","%char line in
      let* entries := map_res Text.int fields in
      extractProb_loop rs' file' (dict_set probs r (entries ++ [1]))
  end.

(** [extractProb(True)], on the lines of probabilities_risk.txt. *)
Definition extractProb (file : list string) : res table :=
  extractProb_loop risks file {| t_high := []; t_medium := []; t_low := [] |}.

(** [setupCSV]: the field names of the header row. *)
Definition fieldnames (multi : bool) : list string :=
  if multi
  then ["num_keypresses"; "round_money_won"; "total_money_won"; "popped"; "risk"]%string
  else ["num_keypresses"; "round_money_won"; "total_money_won"; "popped"]%string.



(** [upper_bound = i == 1 and num_rounds // 3 + num_rounds % 3 or num_rounds // 3]:
    the [and]/[or] idiom yields its middle operand only when that operand is
    truthy (non-zero). *)
Definition upper_bound (i : Z) (num_rounds : Z) : Z :=
  let a := num_rounds / 3 + num_rounds mod 3 in
  if (i =? 1) && negb (a =? 0) then a else num_rounds / 3.

(** The [while not valid] loop: draw indices until an empty slot is found. *)
Fixpoint find_empty (fuel : nat) (rand : rng) (num_rounds : Z)
    (output : list (option tier)) (pos : nat) : res (Z * nat) :=
  match fuel with
  | O => Raise Diverged
  | S fuel' =>
      let* (index, pos') := randint rand 0 (num_rounds - 1) pos in
      let* slot := getitem output index in
      if bool_decide (slot = None) then Ret (index, pos')
      else find_empty fuel' rand num_rounds output pos'
  end.

(** The [for j in range(0, upper_bound)] loop for one risk level. *)
Fixpoint seed (count : nat) (fuel : nat) (rand : rng) (num_rounds : Z)
    (r : tier) (output : list (option tier)) (pos : nat)
    : res (list (option tier) * nat) :=
  match count with
  | O => Ret (output, pos)
  | S count' =>
      let* (index, pos') := find_empty fuel rand num_rounds output pos in
      let* output' := setitem output index (Some r) in
      seed count' fuel rand num_rounds r output' pos'
  end.

(** The [for i in range(0, 3)] loop. *)
Fixpoint seed_levels (levels : list Z) (fuel : nat) (rand : rng) (num_rounds : Z)
    (output : list (option tier)) (pos : nat) : res (list (option tier) * nat) :=
  match levels with
  | [] => Ret (output, pos)
  | i :: levels' =>
      let* r := getitem risks i in
      let* (output', pos') :=
        seed (Z.to_nat (upper_bound i num_rounds)) fuel rand num_rounds r output pos in
      seed_levels levels' fuel rand num_rounds output' pos'
  end.

Definition populateRisks (fuel : nat) (rand : rng) (num_rounds : Z) (pos : nat)
    : res (list (option tier) * nat) :=
  let output := replicate (Z.to_nat num_rounds) (@None tier) in
  seed_levels [0; 1; 2] fuel rand num_rounds output pos.

End Util.

Arguments Util.fieldnames : simpl never.

(** ** The pop decision of Play.getEvent

    [random.randint(10 - self.probs[self.risk][self.balloon_size] + 1, 10) == 10],
    the operation the specification calls shouldPop. *)
Definition shouldPop (rand : rng) (probs : table) (risk : option tier)
    (balloon_size : Z) (pos : nat) : res (bool * nat) :=
  let* row := dict_get probs risk in
  let* X := getitem row balloon_size in
  let* (draw, pos') := randint rand (10 - X + 1) 10 pos in
  Ret (draw =? 10, pos').

(** The decision as a function of the raw draw alone: what [shouldPop]
    answers when the generator hands out [raw]. *)
Definition pops_on (probs : table) (risk : option tier) (balloon_size : Z) (raw : Z)
    : option bool :=
  match shouldPop (fun _ => raw) probs risk balloon_size 0 with
  | Ret (b, _) => Some b
  | Raise _ => None
  end.

(** The table {high: [10]} as the loader returns it. *)
Definition table_high_10 : table :=
  {| t_high := [10; 1]; t_medium := [1]; t_low := [1] |}.

Definition sample_file : list string :=
  ["8,6,4,2
"; "10, 9,8,7,6
"; "10,10,10"]%string.

(** ** The world outside the interpreter

    The session owns one socket and one CSV file; both are reached through
    the handles the states pass to each other.  The world also holds the
    read position of the random generator and, for observation only, the
    list of states entered so far. *)

Inductive handle : Type := h_socket | h_csv_file.

Inductive pyval : Type :=
| VInt (z : Z)
| VBool (b : bool)
| VStr (s : string)
| VNone.

Inductive state_id : Type := s_start | s_setup | s_play | s_popped | s_cashed | s_exit.

Global Instance state_id_eq_dec : EqDecision state_id.
Proof. solve_decision. Defined.

Record world : Type := {
  rng_pos : nat;
  socket_opened : nat;
  socket_closed : nat;
  socket_sent : list string;
  csv_opened : nat;
  csv_closed : nat;
  csv_header : list (list string);
  csv_rows : list (list pyval);
  entered : list state_id
}.

Definition init_world : world :=
  {| rng_pos := 0; socket_opened := 0; socket_closed := 0; socket_sent := [];
     csv_opened := 0; csv_closed := 0; csv_header := []; csv_rows := [];
     entered := [] |}.

Definition set_rng_pos (p : nat) (w : world) : world :=
  {| rng_pos := p; socket_opened := socket_opened w; socket_closed := socket_closed w;
     socket_sent := socket_sent w; csv_opened := csv_opened w; csv_closed := csv_closed w;
     csv_header := csv_header w; csv_rows := csv_rows w; entered := entered w |}.

Definition note_entered (s : state_id) (w : world) : world :=
  {| rng_pos := rng_pos w; socket_opened := socket_opened w; socket_closed := socket_closed w;
     socket_sent := socket_sent w; csv_opened := csv_opened w; csv_closed := csv_closed w;
     csv_header := csv_header w; csv_rows := csv_rows w; entered := entered w ++ [s] |}.

(** [Util.setupSocket()] *)
Definition setupSocket (w : world) : handle * world :=
  (h_socket,
   {| rng_pos := rng_pos w; socket_opened := S (socket_opened w);
      socket_closed := socket_closed w; socket_sent := socket_sent w;
      csv_opened := csv_opened w; csv_closed := csv_closed w;
      csv_header := csv_header w; csv_rows := csv_rows w; entered := entered w |}).

(** [Util.setupCSV(user_ID, multi)]: opens the file for writing, builds the
    writer (known by its field names) and writes the header row. *)
Definition setupCSV (user_ID : string) (multi : bool) (w : world)
    : handle * list string * world :=
  (h_csv_file, Util.fieldnames multi,
   {| rng_pos := rng_pos w; socket_opened := socket_opened w;
      socket_closed := socket_closed w; socket_sent := socket_sent w;
      csv_opened := S (csv_opened w); csv_closed := csv_closed w;
      csv_header := [Util.fieldnames multi]; csv_rows := []; entered := entered w |}).

(** [socket.sendall(data)]: an [OSError] on a socket that was closed, and
    on a send the peer does not take ([send_ok k] tells whether the send
    that follows [k] delivered ones is taken). *)
Definition sendall (send_ok : nat -> bool) (h : handle) (data : string) (w : world)
    : res world :=
  match h with
  | h_socket =>
      if (0 <? socket_closed w)%nat then Raise OSError
      else if negb (send_ok (length (socket_sent w))) then Raise OSError
      else Ret {| rng_pos := rng_pos w; socket_opened := socket_opened w;
                  socket_closed := socket_closed w; socket_sent := socket_sent w ++ [data];
                  csv_opened := csv_opened w; csv_closed := csv_closed w;
                  csv_header := csv_header w; csv_rows := csv_rows w;
                  entered := entered w |}
  | h_csv_file => Raise AttributeError
  end.

(** [h.close()] *)
Definition close (h : handle) (w : world) : world :=
  match h with
  | h_socket =>
      {| rng_pos := rng_pos w; socket_opened := socket_opened w;
         socket_closed := S (socket_closed w); socket_sent := socket_sent w;
         csv_opened := csv_opened w; csv_closed := csv_closed w;
         csv_header := csv_header w; csv_rows := csv_rows w; entered := entered w |}
  | h_csv_file =>
      {| rng_pos := rng_pos w; socket_opened := socket_opened w;
         socket_closed := socket_closed w; socket_sent := socket_sent w;
         csv_opened := csv_opened w; csv_closed := S (csv_closed w);
         csv_header := csv_header w; csv_rows := csv_rows w; entered := entered w |}
  end.

(** [dict.get(key, "")] on a row dictionary written as a literal. *)
Fixpoint row_get (rowdict : list (string * pyval)) (key : string) : pyval :=
  match rowdict with
  | [] => VStr ""
  | (k, v) :: rest => if String.eqb k key then v else row_get rest key
  end.

(** [csv.DictWriter.writerow(rowdict)]: a key outside the field names is a
    [ValueError]; the values are written in the order of the field names. *)
Definition writerow (fieldnames : list string) (rowdict : list (string * pyval))
    (w : world) : res world :=
  if forallb (fun kv => existsb (String.eqb (fst kv)) fieldnames) rowdict then
    if (0 <? csv_closed w)%nat then Raise ValueError
    else Ret {| rng_pos := rng_pos w; socket_opened := socket_opened w;
                socket_closed := socket_closed w; socket_sent := socket_sent w;
                csv_opened := csv_opened w; csv_closed := csv_closed w;
                csv_header := csv_header w;
                csv_rows := csv_rows w ++ [map (row_get rowdict) fieldnames];
                entered := entered w |}
  else Raise ValueError.

(** The value of [self.risk] in a row: a risk level is written as its name. *)
Definition risk_val (r : option tier) : pyval :=
  match r with
  | Some r => VStr (risk_name r)
  | None => VNone
  end.

(** ** Events *)

Inductive key : Type := K_q | K_RETURN | K_RIGHT | K_LEFT | K_other.

Inductive event : Type :=
| QUIT
| VIDEORESIZE
| KEYDOWN (k : key)
| OTHER.

(** ** Payloads passed from [exit] to [enter] *)

Record args3 : Type := {
  a3_user_ID : string;
  a3_num_rounds : Z;
  a3_active_response : bool
}.

Record args9 : Type := {
  a9_user_ID : string;
  a9_socket : handle;
  a9_csv_file : handle;
  a9_csv_writer : list string;
  a9_probs : table;
  a9_num_rounds : Z;
  a9_overall_total : Z;
  a9_round_risks : list (option tier);
  a9_active_response : bool
}.

Record args12 : Type := {
  a12_user_ID : string;
  a12_socket : handle;
  a12_csv_file : handle;
  a12_csv_writer : list string;
  a12_probs : table;
  a12_num_rounds_left : Z;
  a12_overall_total : Z;
  a12_round_total : Z;
  a12_balloon_size : Z;
  a12_round_risks : list (option tier);
  a12_risk : option tier;
  a12_active_response : bool
}.

Inductive payload : Type :=
| Args3 (a : args3)
| Args9 (a : args9)
| Args12 (a : args12)
| ArgsNone.

(** Tuple unpacking of a payload: the wrong length is a [ValueError],
    [None] a [TypeError]. *)
Definition unpack3 (args : payload) : res args3 :=
  match args with
  | Args3 a => Ret a
  | ArgsNone => Raise TypeError
  | _ => Raise ValueError
  end.

Definition unpack9 (args : payload) : res args9 :=
  match args with
  | Args9 a => Ret a
  | ArgsNone => Raise TypeError
  | _ => Raise ValueError
  end.

Definition unpack12 (args : payload) : res args12 :=
  match args with
  | Args12 a => Ret a
  | ArgsNone => Raise TypeError
  | _ => Raise ValueError
  end.

(** [args[1:4]] unpacked into three names. *)
Definition slice_1_4 (args : payload) : res (handle * handle * list string) :=
  match args with
  | Args9 a => Ret (a9_socket a, a9_csv_file a, a9_csv_writer a)
  | Args12 a => Ret (a12_socket a, a12_csv_file a, a12_csv_writer a)
  | Args3 _ => Raise ValueError
  | ArgsNone => Raise TypeError
  end.

(** ** State objects *)

(** The attributes of a [Play] object between [enter] and [cleanup]. *)
Record play_attrs : Type := {
  user_ID : string;
  socket : handle;
  csv_file : handle;
  csv_writer : list string;
  probs : table;
  num_rounds_left : Z;
  overall_total : Z;
  round_risks : list (option tier);
  active_response : bool;
  round_total : Z;
  popped : bool;
  cashed : bool;
  balloon_size : Z;
  risk : option tier
}.

(** The attributes an object holds besides the four every state has;
    [NoAttrs] before the first [enter] and after [cleanup] deleted them. *)
Inductive attrs : Type :=
| NoAttrs
| StartAttrs (a : args3)
| SetupAttrs (a : args9)
| PlayAttrs (a : play_attrs)
| EndAttrs (a : args12)
| ExitAttrs (sock file : handle) (writer : list string).

Record state_obj : Type := {
  quit : bool;
  done : bool;
  next : option state_id;
  previous : option state_id;
  attributes : attrs
}.

Definition set_quit (b : bool) (o : state_obj) : state_obj :=
  {| quit := b; done := done o; next := next o; previous := previous o;
     attributes := attributes o |}.

Definition set_done (b : bool) (o : state_obj) : state_obj :=
  {| quit := quit o; done := b; next := next o; previous := previous o;
     attributes := attributes o |}.

Definition set_next (n : option state_id) (o : state_obj) : state_obj :=
  {| quit := quit o; done := done o; next := n; previous := previous o;
     attributes := attributes o |}.

Definition set_previous (p : option state_id) (o : state_obj) : state_obj :=
  {| quit := quit o; done := done o; next := next o; previous := p;
     attributes := attributes o |}.

Definition set_attributes (a : attrs) (o : state_obj) : state_obj :=
  {| quit := quit o; done := done o; next := next o; previous := previous o;
     attributes := a |}.

(** [States.__init__], with the [next] each subclass then assigns. *)
Definition new_state (n : option state_id) : state_obj :=
  {| quit := false; done := false; next := n; previous := None; attributes := NoAttrs |}.

(** What the session reads from outside: the generator, the lines of
    probabilities_risk.txt, the iteration budget of each rejection loop,
    the image files the working directory holds and the peer of the
    socket. *)
Record env : Type := {
  rand : rng;
  prob_file : list string;
  fuel : nat;
  files : string -> bool;
  send_ok : nat -> bool
}.

(** ** Drawing

    [Util.drawImage] loads its file with [pygame.image.load], which raises
    [FileNotFoundError] when the file is not there; scaling and blitting
    only change the screen.  [Util.displayText] renders with
    freesansbold.ttf, the font pygame ships and finds in its own package,
    and only changes the screen. *)

Definition drawImage (e : env) (source : string) : res unit :=
  if files e source then Ret tt else Raise FileNotFoundError.

Definition displayText : res unit := Ret tt.

(** [str(n)] *)
Definition str_int (n : Z) : string := NilZero.string_of_int (Z.to_int n).

(** [f"{self.risk}"]: the name of the level, or None. *)
Definition risk_str (r : option tier) : string :=
  match r with
  | Some r => risk_name r
  | None => "None"
  end.

(** [f"images/balloon{balloon_size + 1}{risk}.png"] *)
Definition balloon_image (balloon_size : Z) (r : option tier) : string :=
  ("images/balloon" +:+ str_int (balloon_size + 1) +:+ risk_str r +:+ ".png")%string.

(** ** The state classes *)

Module Start.

Definition init : state_obj := new_state (Some s_setup).

Definition enter (o : state_obj) (args : payload) (w : world) : res (state_obj * world) :=
  let* a := unpack3 args in
  Ret (set_attributes (StartAttrs a) o, w).

Definition exit (o : state_obj) (w : world) : res (payload * world) :=
  match attributes o with
  | StartAttrs a => Ret (Args3 a, w)
  | _ => Raise AttributeError
  end.

Definition cleanup (o : state_obj) : res state_obj :=
  match attributes o with
  | StartAttrs _ => Ret (set_attributes NoAttrs o)
  | _ => Raise AttributeError
  end.

Definition getEvent (ev : event) (o : state_obj) : state_obj :=
  match ev with
  | KEYDOWN K_q => set_quit true o
  | KEYDOWN K_RETURN => set_done true o
  | _ => o
  end.

Definition draw (o : state_obj) : res unit :=
  let* _ := displayText in
  displayText.

Definition update (o : state_obj) : res state_obj :=
  let* _ := draw o in
  Ret o.

End Start.

Module Setup.

Definition init : state_obj := new_state (Some s_play).

Definition enter (e : env) (o : state_obj) (args : payload) (w : world)
    : res (state_obj * world) :=
  let* a := unpack3 args in
  let '(sock, w1) := setupSocket w in
  let '(file, writer, w2) := setupCSV (a3_user_ID a) true w1 in
  let* table := Util.extractProb (prob_file e) in
  let* (schedule, pos') :=
    Util.populateRisks (fuel e) (rand e) (a3_num_rounds a) (rng_pos w2) in
  Ret (set_attributes
         (SetupAttrs {| a9_user_ID := a3_user_ID a; a9_socket := sock;
                        a9_csv_file := file; a9_csv_writer := writer;
                        a9_probs := table; a9_num_rounds := a3_num_rounds a;
                        a9_overall_total := 0; a9_round_risks := schedule;
                        a9_active_response := a3_active_response a |}) o,
       set_rng_pos pos' w2).

Definition exit (o : state_obj) (w : world) : res (payload * world) :=
  match attributes o with
  | SetupAttrs a => Ret (Args9 a, w)
  | _ => Raise AttributeError
  end.

Definition update (o : state_obj) : state_obj := set_done true o.

Definition cleanup (o : state_obj) : res state_obj :=
  match attributes o with
  | SetupAttrs _ => Ret (set_attributes NoAttrs o)
  | _ => Raise AttributeError
  end.

End Setup.

Module Play.

(** [__init__] also sets round_total, popped, cashed and balloon_size;
    [enter] assigns all four again before anything reads them. *)
Definition init : state_obj := new_state None.

Definition enter (o : state_obj) (args : payload) (w : world) : res (state_obj * world) :=
  let* a := unpack9 args in
  let* r := getitem (a9_round_risks a)
              (Z.of_nat (length (a9_round_risks a)) - a9_num_rounds a) in
  Ret (set_next (Some s_popped)
         (set_attributes
            (PlayAttrs {| user_ID := a9_user_ID a; socket := a9_socket a;
                          csv_file := a9_csv_file a; csv_writer := a9_csv_writer a;
                          probs := a9_probs a; num_rounds_left := a9_num_rounds a;
                          overall_total := a9_overall_total a;
                          round_risks := a9_round_risks a;
                          active_response := a9_active_response a;
                          round_total := 0; popped := false; cashed := false;
                          balloon_size := 0; risk := r |}) o),
       w).

(** The row dictionary of [exit]; [round_total * (not popped)] multiplies
    by the truth value read as 1 or 0. *)
Definition row (a : play_attrs) : list (string * pyval) :=
  [("num_keypresses", VInt (balloon_size a));
   ("round_money_won", VInt (round_total a * Z.b2z (negb (popped a))));
   ("total_money_won", VInt (overall_total a));
   ("popped", VBool (popped a));
   ("risk", risk_val (risk a))]%string.

Definition exit (o : state_obj) (w : world) : res (payload * world) :=
  match attributes o with
  | PlayAttrs a =>
      let* w' := writerow (csv_writer a) (row a) w in
      Ret (Args12 {| a12_user_ID := user_ID a; a12_socket := socket a;
                     a12_csv_file := csv_file a; a12_csv_writer := csv_writer a;
                     a12_probs := probs a;
                     a12_num_rounds_left := num_rounds_left a - 1;
                     a12_overall_total := overall_total a;
                     a12_round_total := round_total a;
                     a12_balloon_size := balloon_size a;
                     a12_round_risks := round_risks a; a12_risk := risk a;
                     a12_active_response := active_response a |},
           w')
  | _ => Raise AttributeError
  end.

Definition set_popped (b : bool) (a : play_attrs) : play_attrs :=
  {| user_ID := user_ID a; socket := socket a; csv_file := csv_file a;
     csv_writer := csv_writer a; probs := probs a;
     num_rounds_left := num_rounds_left a; overall_total := overall_total a;
     round_risks := round_risks a; active_response := active_response a;
     round_total := round_total a; popped := b; cashed := cashed a;
     balloon_size := balloon_size a; risk := risk a |}.

(** [self.round_total += 1; self.balloon_size += 1] *)
Definition pump (a : play_attrs) : play_attrs :=
  {| user_ID := user_ID a; socket := socket a; csv_file := csv_file a;
     csv_writer := csv_writer a; probs := probs a;
     num_rounds_left := num_rounds_left a; overall_total := overall_total a;
     round_risks := round_risks a; active_response := active_response a;
     round_total := round_total a + 1; popped := popped a; cashed := cashed a;
     balloon_size := balloon_size a + 1; risk := risk a |}.

(** [self.overall_total += self.round_total; self.cashed = True] *)
Definition cash (a : play_attrs) : play_attrs :=
  {| user_ID := user_ID a; socket := socket a; csv_file := csv_file a;
     csv_writer := csv_writer a; probs := probs a;
     num_rounds_left := num_rounds_left a;
     overall_total := overall_total a + round_total a;
     round_risks := round_risks a; active_response := active_response a;
     round_total := round_total a; popped := popped a; cashed := true;
     balloon_size := balloon_size a; risk := risk a |}.

Definition getEvent (e : env) (ev : event) (o : state_obj) (w : world)
    : res (state_obj * world) :=
  match ev with
  | KEYDOWN K_RIGHT =>
      match attributes o with
      | PlayAttrs a =>
          let* (pop, pos') :=
            shouldPop (rand e) (probs a) (risk a) (balloon_size a) (rng_pos w) in
          let a1 := set_popped pop a in
          let w' := set_rng_pos pos' w in
          if negb (popped a1)
          then Ret (set_attributes (PlayAttrs (pump a1)) o, w')
          else Ret (set_done true
                      (set_next (Some s_popped) (set_attributes (PlayAttrs a1) o)),
                    w')
      | _ => Raise AttributeError
      end
  | KEYDOWN K_LEFT =>
      match attributes o with
      | PlayAttrs a =>
          Ret (set_done true
                 (set_next (Some s_cashed) (set_attributes (PlayAttrs (cash a)) o)),
               w)
      | _ => Raise AttributeError
      end
  | _ => Ret (o, w)
  end.

Definition draw (e : env) (o : state_obj) : res unit :=
  match attributes o with
  | PlayAttrs a =>
      let* _ := drawImage e (balloon_image (balloon_size a) (risk a)) in
      let* _ := displayText in
      displayText
  | _ => Raise AttributeError
  end.

Definition update (e : env) (o : state_obj) : res state_obj :=
  let* _ := draw e o in
  Ret o.

Definition cleanup (o : state_obj) : res state_obj :=
  match attributes o with
  | PlayAttrs _ => Ret (set_attributes NoAttrs o)
  | _ => Raise AttributeError
  end.

End Play.

Module EndRound.

Definition init : state_obj := new_state (Some s_play).

Definition enter (o : state_obj) (args : payload) (w : world) : res (state_obj * world) :=
  let* a := unpack12 args in
  let o1 := set_attributes (EndAttrs a) o in
  Ret (if a12_num_rounds_left a =? 0 then set_next (Some s_exit) o1 else o1, w).

Definition exit (o : state_obj) (w : world) : res (payload * world) :=
  match attributes o with
  | EndAttrs a =>
      Ret (Args9 {| a9_user_ID := a12_user_ID a; a9_socket := a12_socket a;
                    a9_csv_file := a12_csv_file a; a9_csv_writer := a12_csv_writer a;
                    a9_probs := a12_probs a; a9_num_rounds := a12_num_rounds_left a;
                    a9_overall_total := a12_overall_total a;
                    a9_round_risks := a12_round_risks a;
                    a9_active_response := a12_active_response a |},
           w)
  | _ => Raise AttributeError
  end.

Definition getEvent (ev : event) (o : state_obj) : state_obj :=
  match ev with
  | KEYDOWN K_RETURN => set_done true o
  | _ => o
  end.

Definition cleanup (o : state_obj) : res state_obj :=
  match attributes o with
  | EndAttrs _ => Ret (set_attributes NoAttrs o)
  | _ => Raise AttributeError
  end.

(** The socket the entered object holds, for the trigger of the subclass. *)
Definition trigger (e : env) (code : string) (o : state_obj) (w : world) : res world :=
  match attributes o with
  | EndAttrs a => sendall (send_ok e) (a12_socket a) code w
  | _ => Raise AttributeError
  end.

Definition draw (e : env) (o : state_obj) : res unit :=
  match attributes o with
  | EndAttrs a =>
      let* _ := displayText in
      let* _ := displayText in
      let* _ := displayText in
      drawImage e (balloon_image (a12_balloon_size a) (a12_risk a))
  | _ => Raise AttributeError
  end.

(** [update] calls the [draw] of the object's own class. *)
Definition update (draw : state_obj -> res unit) (o : state_obj) : res state_obj :=
  let* _ := draw o in
  Ret o.

End EndRound.

Module Popped.

Definition enter (e : env) (o : state_obj) (args : payload) (w : world)
    : res (state_obj * world) :=
  let* (o', w1) := EndRound.enter o args w in
  let* w2 := EndRound.trigger e "<TRIGGER>9</TRIGGER>" o' w1 in
  Ret (o', w2).

(** The size of the bang takes [math.sqrt(self.balloon_size + 1)], which
    raises [ValueError] below 0. *)
Definition draw (e : env) (o : state_obj) : res unit :=
  let* _ := EndRound.draw e o in
  match attributes o with
  | EndAttrs a =>
      let* _ := if a12_balloon_size a + 1 <? 0 then Raise ValueError else Ret tt in
      let* _ := drawImage e "images/bang.png" in
      if a12_active_response a then displayText else Ret tt
  | _ => Raise AttributeError
  end.

End Popped.

Module Cashed.

Definition enter (e : env) (o : state_obj) (args : payload) (w : world)
    : res (state_obj * world) :=
  let* (o', w1) := EndRound.enter o args w in
  let* w2 := EndRound.trigger e "<TRIGGER>7</TRIGGER>" o' w1 in
  Ret (o', w2).

Definition draw (e : env) (o : state_obj) : res unit :=
  let* _ := EndRound.draw e o in
  match attributes o with
  | EndAttrs a =>
      if a12_active_response a
      then let* _ := displayText in displayText
      else Ret tt
  | _ => Raise AttributeError
  end.

End Cashed.

Module Exit.

Definition init : state_obj := new_state None.

Definition enter (o : state_obj) (args : payload) (w : world) : res (state_obj * world) :=
  let* (sock, file, writer) := slice_1_4 args in
  Ret (set_attributes (ExitAttrs sock file writer) o, close file (close sock w)).

Definition getEvent (ev : event) (o : state_obj) : state_obj :=
  match ev with
  | KEYDOWN K_RETURN => set_quit true o
  | _ => o
  end.

Definition draw (o : state_obj) : res unit :=
  let* _ := displayText in
  displayText.

Definition update (o : state_obj) : res state_obj :=
  let* _ := draw o in
  Ret o.

End Exit.

(** ** Control: the state machine *)

(** Method dispatch on the class of the object registered under a name. *)
Definition enter (e : env) (s : state_id) (o : state_obj) (args : payload) (w : world)
    : res (state_obj * world) :=
  match s with
  | s_start => Start.enter o args w
  | s_setup => Setup.enter e o args w
  | s_play => Play.enter o args w
  | s_popped => Popped.enter e o args w
  | s_cashed => Cashed.enter e o args w
  | s_exit => Exit.enter o args w
  end.

Definition exit (s : state_id) (o : state_obj) (w : world) : res (payload * world) :=
  match s with
  | s_start => Start.exit o w
  | s_setup => Setup.exit o w
  | s_play => Play.exit o w
  | s_popped | s_cashed => EndRound.exit o w
  | s_exit => Ret (ArgsNone, w)
  end.

Definition cleanup (s : state_id) (o : state_obj) : res state_obj :=
  match s with
  | s_start => Start.cleanup o
  | s_setup => Setup.cleanup o
  | s_play => Play.cleanup o
  | s_popped | s_cashed => EndRound.cleanup o
  | s_exit => Ret o
  end.

Definition getEvent (e : env) (s : state_id) (ev : event) (o : state_obj) (w : world)
    : res (state_obj * world) :=
  match s with
  | s_start => Ret (Start.getEvent ev o, w)
  | s_setup => Ret (o, w)
  | s_play => Play.getEvent e ev o w
  | s_popped | s_cashed => Ret (EndRound.getEvent ev o, w)
  | s_exit => Ret (Exit.getEvent ev o, w)
  end.

(** [state.update(screen)]: [Setup] sets its flag, every other state
    draws. *)
Definition state_update (e : env) (s : state_id) (o : state_obj) : res state_obj :=
  match s with
  | s_start => Start.update o
  | s_setup => Ret (Setup.update o)
  | s_play => Play.update e o
  | s_popped => EndRound.update (Popped.draw e) o
  | s_cashed => EndRound.update (Cashed.draw e) o
  | s_exit => Exit.update o
  end.

Record control : Type := {
  state_dict : state_id -> state_obj;
  state_name : state_id;
  c_done : bool;
  c_world : world
}.

(** [self.state]: the object registered under the current name. *)
Definition state (c : control) : state_obj := state_dict c (state_name c).

Definition dict_upd (d : state_id -> state_obj) (s : state_id) (o : state_obj)
    : state_id -> state_obj :=
  fun s' => if decide (s' = s) then o else d s'.

(** The dictionary [main] builds. *)
Definition new_state_dict : state_id -> state_obj :=
  fun s =>
    match s with
    | s_start => Start.init
    | s_setup => Setup.init
    | s_play => Play.init
    | s_popped | s_cashed => EndRound.init
    | s_exit => Exit.init
    end.

Module Control.

Definition setupStates (e : env) (d : state_id -> state_obj) (start_state : state_id)
    (args : payload) (w : world) : res control :=
  let* (o, w') := enter e start_state (d start_state) args w in
  Ret {| state_dict := dict_upd d start_state o; state_name := start_state;
         c_done := false; c_world := note_entered start_state w' |}.

Definition changeState (e : env) (c : control) : res control :=
  let o := set_done false (state c) in
  let previous := state_name c in
  let next_name := next o in
  let* (args, w1) := exit previous o (c_world c) in
  let* o' := cleanup previous o in
  let d := dict_upd (state_dict c) previous o' in
  match next_name with
  | None => Raise KeyError
  | Some s =>
      let* (n, w2) := enter e s (d s) args w1 in
      Ret {| state_dict := dict_upd d s (set_previous (Some previous) n);
             state_name := s; c_done := c_done c; c_world := note_entered s w2 |}
  end.

Definition update (e : env) (c : control) : res control :=
  let* c1 :=
    if quit (state c)
    then Ret {| state_dict := state_dict c; state_name := state_name c;
                c_done := true; c_world := c_world c |}
    else if done (state c) then changeState e c
    else Ret c in
  let* o := state_update e (state_name c1) (state c1) in
  Ret {| state_dict := dict_upd (state_dict c1) (state_name c1) o;
         state_name := state_name c1; c_done := c_done c1; c_world := c_world c1 |}.

(** One event of [for event in pygame.event.get()]. *)
Definition handle_event (e : env) (ev : event) (c : control) : res control :=
  let flag := match ev with QUIT => true | _ => c_done c end in
  let* (o, w) := getEvent e (state_name c) ev (state c) (c_world c) in
  Ret {| state_dict := dict_upd (state_dict c) (state_name c) o;
         state_name := state_name c; c_done := flag; c_world := w |}.

Fixpoint eventLoop (e : env) (events : list event) (c : control) : res control :=
  match events with
  | [] => Ret c
  | ev :: events' =>
      let* c' := handle_event e ev c in
      eventLoop e events' c'
  end.

(** [while not self.done], one iteration per frame of input; the frames
    given are the input so far. *)
Fixpoint mainGameLoop (e : env) (frames : list (list event)) (c : control) : res control :=
  match frames with
  | [] => Ret c
  | events :: frames' =>
      if c_done c then Ret c
      else
        let* c1 := eventLoop e events c in
        let* c2 := update e c1 in
        mainGameLoop e frames' c2
  end.

End Control.

(** [main()], after the experimenter entered the user ID, the number of
    rounds and the active-response choice and the [Control] object was
    built. *)
Definition main (e : env) (uid : string) (num_rounds : Z) (active : bool)
    (frames : list (list event)) : res control :=
  let* app :=
    Control.setupStates e new_state_dict s_start
      (Args3 {| a3_user_ID := uid; a3_num_rounds := num_rounds;
                a3_active_response := active |}) init_world in
  Control.mainGameLoop e frames app.

(** ** Reading the log *)

Definition row_int (r : list pyval) (i : nat) : Z :=
  match r !! i with
  | Some (VInt z) => z
  | _ => 0
  end.

(** Column 1 is round_money_won, column 2 total_money_won. *)
Definition sum_round_money (rows : list (list pyval)) : Z :=
  foldr (fun r acc => row_int r 1 + acc) 0 rows.

Definition count_entered (s : state_id) (w : world) : nat :=
  length (filter (fun s' => s' = s) (entered w)).

Definition sample_env : env :=
  {| rand := fun k => Z.of_nat k; prob_file := sample_file; fuel := 10;
     files := fun _ => true; send_ok := fun _ => true |}.

(** The sample session with a generator whose third draw, the one of the
    second pump, pops. *)
Definition pop_env : env :=
  {| rand := fun k => if (k =? 2)%nat then 8 else 0; prob_file := sample_file;
     fuel := 10; files := fun _ => true; send_ok := fun _ => true |}.

(** ** The session invariant *)

(** Every tier's sequence ends with 1, as the loader leaves it. *)
Definition sentinel_ended (probs : table) : Prop :=
  forall r, exists entries, table_get probs r = entries ++ [1].

(** A schedule of [n] rounds with a tier in every slot. *)
Definition schedule_ok (n : Z) (schedule : list (option tier)) : Prop :=
  Z.of_nat (length schedule) = n
  /\ forall i : nat, (i < length schedule)%nat -> exists r, schedule !! i = Some (Some r).

(** The values every state after [Setup] carries unchanged. *)
Definition carried (n : Z) (sock file : handle) (writer : list string)
    (probs : table) (schedule : list (option tier)) : Prop :=
  sock = h_socket /\ file = h_csv_file /\ writer = Util.fieldnames true
  /\ sentinel_ended probs /\ schedule_ok n schedule.

(** Socket and file opened once, neither closed, header written. *)
Definition open_world (w : world) : Prop :=
  socket_opened w = 1%nat /\ socket_closed w = 0%nat
  /\ csv_opened w = 1%nat /\ csv_closed w = 0%nat
  /\ csv_header w = [Util.fieldnames true].

(** [plays] entries into Play and [ended] finished rounds, each with its row. *)
Definition progress (w : world) (plays ended : Z) : Prop :=
  Z.of_nat (count_entered s_play w) = plays
  /\ Z.of_nat (length (csv_rows w)) = ended
  /\ Z.of_nat (count_entered s_popped w + count_entered s_cashed w) = ended.

Definition ends_to_play (d : state_id -> state_obj) : Prop :=
  next (d s_popped) = Some s_play /\ next (d s_cashed) = Some s_play.

Definition inv_start (n : Z) (d : state_id -> state_obj) (w : world) : Prop :=
  (exists a, attributes (d s_start) = StartAttrs a /\ a3_num_rounds a = n)
  /\ socket_opened w = 0%nat /\ socket_closed w = 0%nat
  /\ csv_opened w = 0%nat /\ csv_closed w = 0%nat
  /\ csv_header w = [] /\ progress w 0 0 /\ ends_to_play d.

Definition inv_setup (n : Z) (d : state_id -> state_obj) (w : world) : Prop :=
  (exists a, attributes (d s_setup) = SetupAttrs a
     /\ carried n (a9_socket a) (a9_csv_file a) (a9_csv_writer a) (a9_probs a)
          (a9_round_risks a)
     /\ a9_num_rounds a = n)
  /\ open_world w /\ progress w 0 0 /\ ends_to_play d.

Definition inv_play (n : Z) (d : state_id -> state_obj) (w : world) : Prop :=
  (exists a, attributes (d s_play) = PlayAttrs a
     /\ carried n (socket a) (csv_file a) (csv_writer a) (probs a) (round_risks a)
     /\ 1 <= num_rounds_left a <= n
     /\ (exists r, risk a = Some r
           /\ 0 <= balloon_size a < Z.of_nat (length (table_get (probs a) r)))
     /\ progress w (n - num_rounds_left a + 1) (n - num_rounds_left a))
  /\ (next (d s_play) = Some s_popped \/ next (d s_play) = Some s_cashed)
  /\ open_world w /\ ends_to_play d.

Definition inv_end (n : Z) (s : state_id) (d : state_id -> state_obj) (w : world) : Prop :=
  (exists a, attributes (d s) = EndAttrs a
     /\ carried n (a12_socket a) (a12_csv_file a) (a12_csv_writer a) (a12_probs a)
          (a12_round_risks a)
     /\ 0 <= a12_num_rounds_left a < n
     /\ progress w (n - a12_num_rounds_left a) (n - a12_num_rounds_left a)
     /\ (if a12_num_rounds_left a =? 0 then next (d s) = Some s_exit
         else ends_to_play d))
  /\ open_world w.

Definition inv_exit (n : Z) (w : world) : Prop :=
  socket_opened w = 1%nat /\ socket_closed w = 1%nat
  /\ csv_opened w = 1%nat /\ csv_closed w = 1%nat
  /\ csv_header w = [Util.fieldnames true] /\ progress w n n.

Definition inv (n : Z) (c : control) : Prop :=
  next (state_dict c s_start) = Some s_setup
  /\ next (state_dict c s_setup) = Some s_play
  /\ next (state_dict c s_exit) = None
  /\ match state_name c with
     | s_start => inv_start n (state_dict c) (c_world c)
     | s_setup => inv_setup n (state_dict c) (c_world c)
     | s_play => inv_play n (state_dict c) (c_world c)
     | s_popped => inv_end n s_popped (state_dict c) (c_world c)
     | s_cashed => inv_end n s_cashed (state_dict c) (c_world c)
     | s_exit => inv_exit n (c_world c)
     end.

(** The files and the log are the same in both worlds. *)
Definition same_files (w w' : world) : Prop :=
  socket_opened w' = socket_opened w /\ socket_closed w' = socket_closed w
  /\ csv_opened w' = csv_opened w /\ csv_closed w' = csv_closed w
  /\ csv_header w' = csv_header w /\ csv_rows w' = csv_rows w
  /\ entered w' = entered w.

(** The states of a session: what [setupStates] builds, then any sequence of
    handled events and [update] calls. *)
Inductive reachable (e : env) (uid : string) (n : Z) (active : bool) : control -> Prop :=
| reach_setup c :
    Control.setupStates e new_state_dict s_start
      (Args3 {| a3_user_ID := uid; a3_num_rounds := n; a3_active_response := active |})
      init_world = Ret c ->
    reachable e uid n active c
| reach_event c ev c' :
    reachable e uid n active c ->
    Control.handle_event e ev c = Ret c' ->
    reachable e uid n active c'
| reach_update c c' :
    reachable e uid n active c ->
    Control.update e c = Ret c' ->
    reachable e uid n active c'.

(** A Play object in the middle of a round, and sessions used as samples. *)
Definition sample_play : play_attrs :=
  {| user_ID := "0001"; socket := h_socket; csv_file := h_csv_file;
     csv_writer := Util.fieldnames true;
     probs := {| t_high := [8; 6; 4; 2; 1]; t_medium := [10; 9; 8; 7; 6; 1];
                 t_low := [10; 10; 10; 1] |};
     num_rounds_left := 2; overall_total := 5; round_risks := [Some medium; Some medium];
     active_response := true; round_total := 3; popped := false; cashed := false;
     balloon_size := 3; risk := Some medium |}.

Definition sample_play_obj : state_obj :=
  set_attributes (PlayAttrs sample_play) (set_next (Some s_popped) Play.init).

(** Enter at Start, one frame for Setup, one pump. *)
Definition frames_one_pump : list (list event) :=
  [[KEYDOWN K_RETURN]; []; [KEYDOWN K_RIGHT]].

(** Enter at Start, one frame for Setup, cash in at once, confirm. *)
Definition frames_cash_in : list (list event) :=
  [[KEYDOWN K_RETURN]; []; [KEYDOWN K_LEFT]; [KEYDOWN K_RETURN]].

(** The total_money_won column of the last row written. *)
Definition last_total (rows : list (list pyval)) : Z :=
  match last rows with
  | Some r => row_int r 2
  | None => 0
  end.

(** 1 for true, 0 for false. *)
Definition ind (b : bool) : nat := if b then 1%nat else 0%nat.

(** Number of slots of [l] holding [x]. *)
Fixpoint count_slot (x : option tier) (l : list (option tier)) : nat :=
  match l with
  | [] => O
  | y :: l' => (if bool_decide (y = x) then 1 else 0) + count_slot x l'
  end%nat.

(** A generator is fair for [n] slots when every index keeps being drawn. *)
Definition fair (rand : rng) (n : Z) : Prop :=
  forall (pos : nat) (i : Z), 0 <= i < n ->
    exists k : nat, (pos <= k)%nat /\ rand k mod n = i.

(** The balance of a finished assignment. *)
Definition balanced (n : Z) (output : list (option tier)) : Prop :=
  Z.of_nat (length output) = n
  /\ (forall i : nat, (i < length output)%nat -> exists r, output !! i = Some (Some r))
  /\ Z.of_nat (count_slot (Some high) output) = n / 3
  /\ Z.of_nat (count_slot (Some low) output) = n / 3
  /\ Z.of_nat (count_slot (Some medium) output) = n / 3 + n mod 3.

(** ** Further observations on a session *)

(** The trigger a state sends on entry. *)
Definition trigger_of (s : state_id) : list string :=
  match s with
  | s_popped => ["<TRIGGER>9</TRIGGER>"%string]
  | s_cashed => ["<TRIGGER>7</TRIGGER>"%string]
  | _ => []
  end.

Definition triggers_of (l : list state_id) : list string :=
  concat (map trigger_of l).

(** The transitions of the state machine. *)
Definition edge (a b : state_id) : bool :=
  match a, b with
  | s_start, s_setup
  | s_setup, s_play
  | s_play, s_popped | s_play, s_cashed
  | s_popped, s_play | s_cashed, s_play
  | s_popped, s_exit | s_cashed, s_exit => true
  | _, _ => false
  end.

Fixpoint path_ok (l : list state_id) : bool :=
  match l with
  | a :: t => match t with
              | b :: _ => edge a b && path_ok t
              | [] => true
              end
  | [] => true
  end.

(** The risk column of a row. *)
Definition row_risk (r : list pyval) : pyval :=
  match r !! 4%nat with
  | Some v => v
  | None => VNone
  end.

(** [l] never decreases and starts at [lo] or above. *)
Fixpoint ascending (lo : Z) (l : list Z) : Prop :=
  match l with
  | [] => True
  | x :: l' => lo <= x /\ ascending x l'
  end.

(** The log against the schedule and the cumulative winnings: the risk
    column is the first [k] entries of the schedule, and the total column,
    followed by the current cumulative winnings, never decreases from 0. *)
Definition log_ok (n : Z) (schedule : list (option tier)) (k total : Z) (w : world)
    : Prop :=
  balanced n schedule
  /\ map row_risk (csv_rows w) = map risk_val (take (Z.to_nat k) schedule)
  /\ ascending 0 (map (fun r => row_int r 2) (csv_rows w) ++ [total]).

(** What each state holds, beyond [inv]: the loader's table [T], the log in
    step with the schedule, and in Play the round winnings equal to the pump
    count; the Exit object is never marked done. *)
Definition inv2_state (T : table) (n : Z) (c : control) : Prop :=
  match state_name c with
  | s_start => True
  | s_setup =>
      exists a, attributes (state c) = SetupAttrs a
        /\ a9_probs a = T
        /\ log_ok n (a9_round_risks a) 0 (a9_overall_total a) (c_world c)
  | s_play =>
      exists a, attributes (state c) = PlayAttrs a
        /\ probs a = T
        /\ log_ok n (round_risks a) (n - num_rounds_left a) (overall_total a)
             (c_world c)
        /\ round_total a = balloon_size a
        /\ round_risks a !! Z.to_nat (n - num_rounds_left a) = Some (risk a)
  | s_popped | s_cashed =>
      exists a, attributes (state c) = EndAttrs a
        /\ a12_probs a = T
        /\ log_ok n (a12_round_risks a) (n - a12_num_rounds_left a)
             (a12_overall_total a) (c_world c)
  | s_exit =>
      exists schedule total, log_ok n schedule n total (c_world c)
  end.

Definition inv2 (T : table) (n : Z) (c : control) : Prop :=
  done (state_dict c s_exit) = false /\ inv2_state T n c.

(** Every entry of the table is 1 or more. *)
Definition table_positive (T : table) : Prop :=
  forall r X, X ∈ table_get T r -> 1 <= X.

(** The peer of the socket takes every send. *)
Definition peer_listens (e : env) : Prop :=
  forall k, send_ok e k = true.

(** The working directory holds the bang and, for every tier, a balloon
    image for every pump count that indexes the tier's list. *)
Definition images_present (e : env) (T : table) : Prop :=
  files e "images/bang.png" = true
  /\ forall r k, 0 <= k < Z.of_nat (length (table_get T r)) ->
       files e (balloon_image k (Some r)) = true.

(** The sample session in a directory without the second balloon image of
    the medium tier. *)
Definition no_image_env : env :=
  {| rand := fun k => Z.of_nat k; prob_file := sample_file; fuel := 10;
     files := fun f => negb (String.eqb f "images/balloon2medium.png");
     send_ok := fun _ => true |}.

(** In Popped and Cashed the balloon shown is one of the round's tier: the
    pump count handed over indexes the tier's list. *)
Definition sized (c : control) : Prop :=
  match state_name c with
  | s_popped | s_cashed =>
      exists a r, attributes (state c) = EndAttrs a
        /\ a12_risk a = Some r
        /\ 0 <= a12_balloon_size a < Z.of_nat (length (table_get (a12_probs a) r))
  | _ => True
  end.

(** The payload [Play.exit] hands over. *)
Definition exit_payload (a : play_attrs) : args12 :=
  {| a12_user_ID := user_ID a; a12_socket := socket a; a12_csv_file := csv_file a;
     a12_csv_writer := csv_writer a; a12_probs := probs a;
     a12_num_rounds_left := num_rounds_left a - 1;
     a12_overall_total := overall_total a; a12_round_total := round_total a;
     a12_balloon_size := balloon_size a; a12_round_risks := round_risks a;
     a12_risk := risk a; a12_active_response := active_response a |}.

(** The payload [EndRound.exit] hands over. *)
Definition end_payload (a : args12) : args9 :=
  {| a9_user_ID := a12_user_ID a; a9_socket := a12_socket a;
     a9_csv_file := a12_csv_file a; a9_csv_writer := a12_csv_writer a;
     a9_probs := a12_probs a; a9_num_rounds := a12_num_rounds_left a;
     a9_overall_total := a12_overall_total a;
     a9_round_risks := a12_round_risks a;
     a9_active_response := a12_active_response a |}.

(** The attributes [Play.enter] sets from its payload and the risk it read. *)
Definition fresh_round (a : args9) (r : option tier) : play_attrs :=
  {| user_ID := a9_user_ID a; socket := a9_socket a; csv_file := a9_csv_file a;
     csv_writer := a9_csv_writer a; probs := a9_probs a;
     num_rounds_left := a9_num_rounds a; overall_total := a9_overall_total a;
     round_risks := a9_round_risks a; active_response := a9_active_response a;
     round_total := 0; popped := false; cashed := false; balloon_size := 0;
     risk := r |}.

(** The row [Play.exit] writes, as the writer lays it out. *)
Definition row_values (a : play_attrs) : list pyval :=
  [VInt (balloon_size a);
   VInt (if popped a then 0 else round_total a);
   VInt (overall_total a);
   VBool (popped a);
   risk_val (risk a)].

(** The table a session works with: what the loader returns for the file of
    the environment (a session whose loader raises never leaves Start). *)
Definition loaded_table (e : env) : table :=
  match Util.extractProb (prob_file e) with
  | Ret T => T
  | Raise _ => {| t_high := []; t_medium := []; t_low := [] |}
  end.

(** A probability file whose second line holds a zero. *)
Definition zero_env : env :=
  {| rand := fun k => Z.of_nat k; prob_file := ["5"; "0"; "5"]%string; fuel := 10;
     files := fun _ => true; send_ok := fun _ => true |}.

(** The log balances against a cumulative total: the round_money_won column
    sums to it, and in every non-empty prefix of the rows the last
    total_money_won is the sum of the round_money_won of the prefix. *)
Definition balance (rows : list (list pyval)) (total : Z) : Prop :=
  sum_round_money rows = total
  /\ forall k : nat, (0 < k <= length rows)%nat ->
       last_total (take k rows) = sum_round_money (take k rows).

(** The balance through a session whose frames hold at most one event.
    With [mid] the state is one between the event and the update of a
    frame, where Play may already be done with its round. *)
Definition inv3_state (mid : bool) (c : control) : Prop :=
  match state_name c with
  | s_start => True
  | s_setup =>
      exists a, attributes (state c) = SetupAttrs a
        /\ balance (csv_rows (c_world c)) (a9_overall_total a)
  | s_play =>
      exists a, attributes (state c) = PlayAttrs a
        /\ if done (state c)
           then mid = true
                /\ balance (csv_rows (c_world c) ++ [row_values a]) (overall_total a)
           else popped a = false
                /\ balance (csv_rows (c_world c)) (overall_total a)
  | s_popped | s_cashed =>
      exists a, attributes (state c) = EndAttrs a
        /\ balance (csv_rows (c_world c)) (a12_overall_total a)
  | s_exit => exists total, balance (csv_rows (c_world c)) total
  end.

Definition inv3 (mid : bool) (c : control) : Prop :=
  quit (state_dict c s_play) = false
  /\ (state_name c <> s_play -> done (state_dict c s_play) = false)
  /\ inv3_state mid c.

(** ** Util: the prompts on the console

    [console k] is the line the k-th call of [input()] returns, without its
    newline; a prompt loop that is never given a valid answer exhausts its
    iteration budget. *)

(** What [str.isdigit()] and [len()] answer on the lines of the console:
    both depend on the Unicode reading of the line. *)
Record unicode : Type := {
  isdigit : string -> bool;
  len : string -> Z
}.

(** The reading of lines that hold ASCII characters only. *)
Definition ascii_unicode : unicode :=
  {| isdigit := fun s =>
       negb (String.eqb s "")
       && forallb (fun c => match Text.digit c with Some _ => true | None => false end)
            (list_ascii_of_string s);
     len := fun s => Z.of_nat (String.length s) |}.

Module Prompts.

Fixpoint getUserID (fuel : nat) (u : unicode) (console : nat -> string) (pos : nat)
    : res (string * nat) :=
  match fuel with
  | O => Raise Diverged
  | S fuel' =>
      let user_ID := console pos in
      if isdigit u user_ID && (len u user_ID =? 4) then Ret (user_ID, S pos)
      else getUserID fuel' u console (S pos)
  end.

Fixpoint getNumRounds (fuel : nat) (console : nat -> string) (pos : nat)
    : res (Z * nat) :=
  match fuel with
  | O => Raise Diverged
  | S fuel' =>
      let* num_rounds := Text.int (console pos) in
      if (1 <=? num_rounds) && (num_rounds <=? 240) then Ret (num_rounds, S pos)
      else getNumRounds fuel' console (S pos)
  end.

Definition images : list string := ["police"; "trees"; "gambling"; "none"]%string.

(** [x in l] on strings. *)
Definition str_in (x : string) (l : list string) : bool :=
  existsb (String.eqb x) l.

(** After a rejected answer, [input("Invalid string entered. ...")] reads
    one more line and drops it. *)
Fixpoint getBgImage (fuel : nat) (console : nat -> string) (pos : nat)
    : res (option string * nat) :=
  match fuel with
  | O => Raise Diverged
  | S fuel' =>
      let image := console pos in
      let valid := str_in image images in
      if negb valid then getBgImage fuel' console (S (S pos))
      else if String.eqb image "none" then Ret (None, S pos)
      else Ret (Some image, S pos)
  end.

Fixpoint getActiveResponses (fuel : nat) (console : nat -> string) (pos : nat)
    : res (bool * nat) :=
  match fuel with
  | O => Raise Diverged
  | S fuel' =>
      let response := console pos in
      let valid := str_in response ["y"; "n"]%string in
      if negb valid then getActiveResponses fuel' console (S (S pos))
      else Ret (String.eqb response "y", S pos)
  end.

End Prompts.

(** [Control.__init__]: of the window set-up, the two images it loads, the
    background when one was chosen and the icon. *)
Definition Control_init (e : env) (bg_image_name : option string) : res unit :=
  let* _ :=
    match bg_image_name with
    | Some name => drawImage e ("images/" +:+ name +:+ ".jpg")
    | None => Ret tt
    end in
  drawImage e "images/balloon-icon.png".

(** [main()] from its first line: the four prompts, the [Control] object,
    then the session on the frames of events. *)
Definition program (fuel_prompt : nat) (u : unicode) (console : nat -> string)
    (e : env) (frames : list (list event)) : res control :=
  let* (user_ID, p1) := Prompts.getUserID fuel_prompt u console 0 in
  let* (num_rounds, p2) := Prompts.getNumRounds fuel_prompt console p1 in
  let* (bg_image_name, p3) := Prompts.getBgImage fuel_prompt console p2 in
  let* (active_response, p4) := Prompts.getActiveResponses fuel_prompt console p3 in
  let* _ := Control_init e bg_image_name in
  main e user_ID num_rounds active_response frames.

(** A console session: a bad ID, a good one, two round counts out of range,
    then 2; a rejected image, the line dropped after it, then trees; y. *)
Definition sample_console (k : nat) : string :=
  nth k ["12a4"; "0042"; "0"; "500"; "2"; "forest"; "police"; "trees"; "y"]%string
    ""%string.

(** The number of occurrences of a character in a line. *)
Fixpoint count_char (c : ascii) (s : string) : nat :=
  match s with
  | EmptyString => 0
  | String c' s' => ((if Ascii.eqb c' c then 1 else 0) + count_char c s')%nat
  end.

(** ** What the session does not look at

    The user ID and the active-response choice are carried from state to
    state; [erase_*] blanks the two fields, so that two objects or payloads
    with equal erasures differ in them at most. *)

Definition erase3 (a : args3) : args3 :=
  {| a3_user_ID := ""; a3_num_rounds := a3_num_rounds a; a3_active_response := false |}.

Definition erase9 (a : args9) : args9 :=
  {| a9_user_ID := ""; a9_socket := a9_socket a; a9_csv_file := a9_csv_file a;
     a9_csv_writer := a9_csv_writer a; a9_probs := a9_probs a;
     a9_num_rounds := a9_num_rounds a; a9_overall_total := a9_overall_total a;
     a9_round_risks := a9_round_risks a; a9_active_response := false |}.

Definition erase12 (a : args12) : args12 :=
  {| a12_user_ID := ""; a12_socket := a12_socket a; a12_csv_file := a12_csv_file a;
     a12_csv_writer := a12_csv_writer a; a12_probs := a12_probs a;
     a12_num_rounds_left := a12_num_rounds_left a;
     a12_overall_total := a12_overall_total a; a12_round_total := a12_round_total a;
     a12_balloon_size := a12_balloon_size a; a12_round_risks := a12_round_risks a;
     a12_risk := a12_risk a; a12_active_response := false |}.

Definition erase_play (a : play_attrs) : play_attrs :=
  {| user_ID := ""; socket := socket a; csv_file := csv_file a;
     csv_writer := csv_writer a; probs := probs a;
     num_rounds_left := num_rounds_left a; overall_total := overall_total a;
     round_risks := round_risks a; active_response := false;
     round_total := round_total a; popped := popped a; cashed := cashed a;
     balloon_size := balloon_size a; risk := risk a |}.

Definition erase_payload (p : payload) : payload :=
  match p with
  | Args3 a => Args3 (erase3 a)
  | Args9 a => Args9 (erase9 a)
  | Args12 a => Args12 (erase12 a)
  | ArgsNone => ArgsNone
  end.

Definition erase_attrs (a : attrs) : attrs :=
  match a with
  | NoAttrs => NoAttrs
  | StartAttrs a => StartAttrs (erase3 a)
  | SetupAttrs a => SetupAttrs (erase9 a)
  | PlayAttrs a => PlayAttrs (erase_play a)
  | EndAttrs a => EndAttrs (erase12 a)
  | ExitAttrs sock file writer => ExitAttrs sock file writer
  end.

Definition erase_obj (o : state_obj) : state_obj :=
  set_attributes (erase_attrs (attributes o)) o.

(** Two sessions at the same point: same state, same flags, same files,
    socket and generator position, and objects equal up to the two fields. *)
Definition same_session (c c' : control) : Prop :=
  state_name c = state_name c' /\ c_done c = c_done c' /\ c_world c = c_world c'
  /\ forall s, erase_obj (state_dict c s) = erase_obj (state_dict c' s).

(** Two results agree: the same exception, or values related by [R]. *)
Definition agree {A : Type} (R : A -> A -> Prop) (r r' : res A) : Prop :=
  match r, r' with
  | Ret a, Ret a' => R a a'
  | Raise x, Raise x' => x = x'
  | _, _ => False
  end.

Definition same_obj_world (x y : state_obj * world) : Prop :=
  erase_obj (fst x) = erase_obj (fst y) /\ snd x = snd y.

Definition same_payload_world (x y : payload * world) : Prop :=
  erase_payload (fst x) = erase_payload (fst y) /\ snd x = snd y.

(** * Properties *)

(** ** Sample runs *)

Example populateRisks_4 :
  Util.populateRisks 5 (fun k => Z.of_nat k * 3) 4 0
  = Ret ([Some high; Some low; Some medium; Some medium], 4%nat).
Proof. vm_compute. reflexivity. Qed.

Example extractProb_sample :
  exists probs, Util.extractProb sample_file = Ret probs
    /\ table_get probs high = [8; 6; 4; 2; 1]
    /\ table_get probs medium = [10; 9; 8; 7; 6; 1]
    /\ table_get probs low = [10; 10; 10; 1].
Proof. eexists. split; [vm_compute; reflexivity|]. repeat split. Qed.

Example extractProb_empty_file : Util.extractProb [] = Raise ValueError.
Proof. reflexivity. Qed.

(** ** The error monad and list accesses *)

Lemma bind_Ret {A B : Type} (m : res A) (k : A -> res B) (b : B) :
  bind m k = Ret b -> exists a, m = Ret a /\ k a = Ret b.
Proof. destruct m as [a|e]; simpl; [eauto | discriminate]. Qed.

Ltac inv_bind H :=
  let a := fresh "a" in
  let Ha := fresh "Hm" in
  apply bind_Ret in H; destruct H as (a & Ha & H).

Lemma getitem_nonneg {A : Type} (l : list A) (i : Z) (x : A) :
  0 <= i -> getitem l i = Ret x -> l !! Z.to_nat i = Some x.
Proof.
  intros Hi. unfold getitem.
  destruct (Z.ltb_spec i 0); [lia|].
  destruct (Z.ltb_spec i 0); [lia|].
  destruct (l !! Z.to_nat i); intros [=]; subst; reflexivity.
Qed.

Lemma getitem_lookup {A : Type} (l : list A) (i : Z) (x : A) :
  0 <= i -> l !! Z.to_nat i = Some x -> getitem l i = Ret x.
Proof.
  intros Hi Hl. unfold getitem.
  destruct (Z.ltb_spec i 0); [lia|].
  destruct (Z.ltb_spec i 0); [lia|].
  rewrite Hl. reflexivity.
Qed.

Lemma setitem_nonneg {A : Type} (l l' : list A) (i : Z) (x : A) :
  0 <= i -> setitem l i x = Ret l' ->
  (Z.to_nat i < length l)%nat /\ l' = <[Z.to_nat i := x]> l.
Proof.
  intros Hi. unfold setitem.
  destruct (Z.ltb_spec i 0); [lia|].
  destruct (Z.ltb_spec i 0); [lia|]. simpl.
  destruct (Z.leb_spec (Z.of_nat (length l)) i); intros [=]; subst.
  split; [lia | reflexivity].
Qed.

Lemma setitem_in_range {A : Type} (l : list A) (i : Z) (x : A) :
  0 <= i -> (Z.to_nat i < length l)%nat ->
  setitem l i x = Ret (<[Z.to_nat i := x]> l).
Proof.
  intros Hi Hl. unfold setitem.
  destruct (Z.ltb_spec i 0); [lia|].
  destruct (Z.ltb_spec i 0); [lia|]. simpl.
  destruct (Z.leb_spec (Z.of_nat (length l)) i); [lia | reflexivity].
Qed.

Lemma randint_Ret (rand : rng) (a b : Z) (pos : nat) (d : Z) (pos' : nat) :
  randint rand a b pos = Ret (d, pos') ->
  a <= d <= b /\ d = a + rand pos mod (b - a + 1) /\ pos' = S pos.
Proof.
  unfold randint. destruct (Z.ltb_spec b a); intros [=]; subst.
  pose proof (Z.mod_pos_bound (rand pos) (b - a + 1)). lia.
Qed.

(** ** Counting slots *)

Lemma count_slot_insert (x old new : option tier) (l : list (option tier)) (i : nat) :
  l !! i = Some old ->
  (count_slot x (<[i := new]> l) + ind (bool_decide (old = x))
   = count_slot x l + ind (bool_decide (new = x)))%nat.
Proof.
  revert i. induction l as [|y l IH]; intros [|i] Hl; simpl in *; try discriminate.
  - injection Hl as ->. unfold ind. repeat case_bool_decide; lia.
  - specialize (IH i Hl). lia.
Qed.

Lemma count_slot_replicate_None (n : nat) :
  count_slot None (replicate n None) = n.
Proof. induction n; simpl; [reflexivity | rewrite IHn; reflexivity]. Qed.

Lemma count_slot_replicate_Some (n : nat) (r : tier) :
  count_slot (Some r) (replicate n None) = 0%nat.
Proof. induction n; simpl; [reflexivity | rewrite IHn; reflexivity]. Qed.

Lemma count_slot_total (l : list (option tier)) :
  (count_slot None l + count_slot (Some high) l + count_slot (Some medium) l
   + count_slot (Some low) l = length l)%nat.
Proof.
  induction l as [|[[]|] l IH]; simpl; [reflexivity | lia ..].
Qed.

Lemma count_slot_None_0 (l : list (option tier)) (i : nat) :
  count_slot None l = 0%nat -> (i < length l)%nat -> exists r, l !! i = Some (Some r).
Proof.
  revert i. induction l as [|y l IH]; intros i Hc Hi; simpl in *; [lia|].
  destruct y as [r|]; simpl in Hc; [|discriminate].
  destruct i as [|i]; simpl; [eauto | apply IH; [assumption | lia]].
Qed.

Lemma count_slot_None_pos (l : list (option tier)) :
  (0 < count_slot None l)%nat -> exists i, l !! i = Some None.
Proof.
  induction l as [|y l IH]; simpl; [lia|].
  destruct y as [r|]; simpl.
  - intros H. destruct (IH H) as [i Hi]. exists (S i). exact Hi.
  - intros _. exists 0%nat. reflexivity.
Qed.

(** ** populateRisks: what a finished run returns *)

Lemma find_empty_Ret fuel rand n output pos index pos' :
  Util.find_empty fuel rand n output pos = Ret (index, pos') ->
  0 <= index < n /\ output !! Z.to_nat index = Some None /\ (pos < pos')%nat.
Proof.
  revert pos. induction fuel as [|fuel IH]; intros pos H; simpl in H; [discriminate|].
  inv_bind H. destruct a as [d p].
  apply randint_Ret in Hm as (Hd & _ & ->).
  inv_bind H. apply getitem_nonneg in Hm; [|lia].
  case_bool_decide.
  - injection H as <- <-. subst. split; [lia | split; [assumption | lia]].
  - apply IH in H. destruct H as (? & ? & ?). split; [lia | split; [assumption | lia]].
Qed.

Lemma seed_Ret count fuel rand n r output pos output' pos' :
  Util.seed count fuel rand n r output pos = Ret (output', pos') ->
  length output' = length output
  /\ (count_slot (Some r) output' = count_slot (Some r) output + count)%nat
  /\ (forall r', r' <> r -> count_slot (Some r') output' = count_slot (Some r') output)
  /\ (count_slot None output' + count = count_slot None output)%nat.
Proof.
  revert output pos. induction count as [|count IH]; intros output pos H; simpl in H.
  - injection H as <- <-. repeat split; lia.
  - inv_bind H. destruct a as [index p].
    apply find_empty_Ret in Hm as (Hi & Hslot & _).
    inv_bind H. apply setitem_nonneg in Hm as (Hlen & ->); [|lia].
    apply IH in H as (Hl & Hr & Ho & Hn).
    rewrite length_insert in Hl.
    pose proof (count_slot_insert (Some r) None (Some r) _ _ Hslot) as Cr.
    pose proof (count_slot_insert None None (Some r) _ _ Hslot) as Cn.
    unfold ind in Cr, Cn. repeat case_bool_decide; try congruence.
    repeat split; try lia.
    intros r' Hr'. rewrite (Ho r' Hr').
    pose proof (count_slot_insert (Some r') None (Some r) _ _ Hslot) as Co.
    unfold ind in Co. repeat case_bool_decide; try congruence. lia.
Qed.

Lemma upper_bound_0 n : 1 <= n -> Util.upper_bound 0 n = n / 3.
Proof. reflexivity. Qed.

Lemma upper_bound_1 n : 1 <= n -> Util.upper_bound 1 n = n / 3 + n mod 3.
Proof.
  intros Hn. unfold Util.upper_bound. simpl.
  destruct (Z.eqb_spec (n / 3 + n mod 3) 0) as [E|E]; simpl; [|reflexivity].
  pose proof (Z.div_mod n 3 ltac:(lia)).
  pose proof (Z.mod_pos_bound n 3 ltac:(lia)).
  pose proof (Z.div_pos n 3 ltac:(lia) ltac:(lia)). lia.
Qed.

Lemma upper_bound_2 n : 1 <= n -> Util.upper_bound 2 n = n / 3.
Proof. reflexivity. Qed.

Lemma populateRisks_Ret fuel rand n pos output pos' :
  1 <= n ->
  Util.populateRisks fuel rand n pos = Ret (output, pos') ->
  balanced n output.
Proof.
  intros Hn H. unfold Util.populateRisks in H. simpl in H.
  rewrite upper_bound_1 in H by assumption.
  change (Util.upper_bound 0 n) with (n / 3) in H.
  change (Util.upper_bound 2 n) with (n / 3) in H.
  inv_bind H. destruct a as [o1 p1].
  inv_bind H. destruct a as [o2 p2].
  inv_bind H. destruct a as [o3 p3]. injection H as -> ->.
  apply seed_Ret in Hm as (L1 & A1 & B1 & C1).
  apply seed_Ret in Hm0 as (L2 & A2 & B2 & C2).
  apply seed_Ret in Hm1 as (L3 & A3 & B3 & C3).
  rewrite length_replicate in L1.
  rewrite count_slot_replicate_Some in A1.
  rewrite count_slot_replicate_None in C1.
  pose proof (B1 medium ltac:(discriminate)) as M1.
  pose proof (B1 low ltac:(discriminate)) as W1.
  rewrite count_slot_replicate_Some in M1, W1.
  pose proof (B2 high ltac:(discriminate)) as H2.
  pose proof (B2 low ltac:(discriminate)) as W2.
  pose proof (B3 high ltac:(discriminate)) as H3.
  pose proof (B3 medium ltac:(discriminate)) as M3.
  pose proof (Z.div_mod n 3 ltac:(lia)).
  pose proof (Z.mod_pos_bound n 3 ltac:(lia)).
  pose proof (Z.div_pos n 3 ltac:(lia) ltac:(lia)).
  pose proof (count_slot_total output) as T.
  assert (Hnone : count_slot None output = 0%nat) by lia.
  unfold balanced. split; [lia|]. split.
  { intros i Hi. apply count_slot_None_0; assumption. }
  lia.
Qed.

(** ** populateRisks: the rejection loop finishes under a fair generator *)

Lemma find_empty_hits rand n output (k : nat) :
  1 <= n -> Z.of_nat (length output) = n ->
  output !! Z.to_nat (rand k mod n) = Some None ->
  forall (d pos : nat), (pos + d = k)%nat ->
  exists index pos', forall fuel, (S d <= fuel)%nat ->
    Util.find_empty fuel rand n output pos = Ret (index, pos').
Proof.
  intros Hn Hlen Hk. induction d as [|d IH]; intros pos Hpos.
  - replace pos with k by lia.
    exists (rand k mod n), (S k). intros [|fuel] Hf; [lia|]. simpl.
    unfold randint. destruct (Z.ltb_spec (n - 1) 0); [lia|]. simpl.
    replace (n - 1 - 0 + 1) with n by lia.
    pose proof (Z.mod_pos_bound (rand k) n ltac:(lia)).
    rewrite (getitem_lookup _ _ None) by (assumption || lia). simpl.
    reflexivity.
  - pose proof (Z.mod_pos_bound (rand pos) n ltac:(lia)) as Hb.
    destruct (lookup_lt_is_Some_2 output (Z.to_nat (rand pos mod n)) ltac:(lia))
      as [slot Hslot].
    destruct (IH (S pos) ltac:(lia)) as (index & pos' & Hrec).
    destruct (decide (slot = None)) as [->|Hne].
    + exists (rand pos mod n), (S pos). intros [|fuel] Hf; [lia|]. simpl.
      unfold randint. destruct (Z.ltb_spec (n - 1) 0); [lia|]. simpl.
      replace (n - 1 - 0 + 1) with n by lia.
      rewrite (getitem_lookup _ _ None) by (assumption || lia). simpl.
      reflexivity.
    + exists index, pos'. intros [|fuel] Hf; [lia|]. simpl.
      unfold randint. destruct (Z.ltb_spec (n - 1) 0); [lia|]. simpl.
      replace (n - 1 - 0 + 1) with n by lia.
      rewrite (getitem_lookup _ _ slot) by (assumption || lia). simpl.
      rewrite bool_decide_eq_false_2 by assumption.
      apply Hrec. lia.
Qed.

Lemma find_empty_fair rand n output pos :
  fair rand n -> Z.of_nat (length output) = n ->
  (0 < count_slot None output)%nat ->
  exists F index pos', forall fuel, (F <= fuel)%nat ->
    Util.find_empty fuel rand n output pos = Ret (index, pos').
Proof.
  intros Hfair Hlen Hc.
  destruct (count_slot_None_pos _ Hc) as [i Hi].
  pose proof (lookup_lt_Some _ _ _ Hi) as Hlt.
  destruct (Hfair pos (Z.of_nat i) ltac:(lia)) as (k & Hk & Hdraw).
  destruct (find_empty_hits rand n output k ltac:(lia) Hlen) with (d := (k - pos)%nat) (pos := pos)
    as (index & pos' & H).
  - rewrite Hdraw, Nat2Z.id. exact Hi.
  - lia.
  - exists (S (k - pos)), index, pos'. exact H.
Qed.

Lemma seed_fair rand n r count :
  fair rand n ->
  forall output pos,
  Z.of_nat (length output) = n ->
  (count <= count_slot None output)%nat ->
  exists F output' pos', forall fuel, (F <= fuel)%nat ->
    Util.seed count fuel rand n r output pos = Ret (output', pos').
Proof.
  intros Hfair. induction count as [|count IH]; intros output pos Hlen Hc.
  - exists 0%nat, output, pos. reflexivity.
  - destruct (find_empty_fair rand n output pos Hfair Hlen ltac:(lia))
      as (F1 & index & p1 & H1).
    pose proof (H1 F1 (Nat.le_refl _)) as Hat.
    apply find_empty_Ret in Hat as (Hi & Hslot & _).
    pose proof (lookup_lt_Some _ _ _ Hslot) as Hlt.
    pose proof (count_slot_insert None None (Some r) _ _ Hslot) as Cn.
    unfold ind in Cn. repeat case_bool_decide; try congruence.
    destruct (IH (<[Z.to_nat index := Some r]> output) p1) as (F2 & output' & p2 & H2).
    + rewrite length_insert. exact Hlen.
    + lia.
    + exists (Nat.max F1 F2), output', p2. intros fuel Hf. simpl.
      rewrite H1 by lia. simpl.
      rewrite setitem_in_range by (assumption || lia). simpl.
      apply H2. lia.
Qed.

Lemma populateRisks_fair rand n pos :
  1 <= n -> fair rand n ->
  exists F output pos', forall fuel, (F <= fuel)%nat ->
    Util.populateRisks fuel rand n pos = Ret (output, pos').
Proof.
  intros Hn Hfair.
  pose proof (Z.div_mod n 3 ltac:(lia)) as Hdm.
  pose proof (Z.mod_pos_bound n 3 ltac:(lia)) as Hmb.
  pose proof (Z.div_pos n 3 ltac:(lia) ltac:(lia)) as Hdp.
  set (o0 := replicate (Z.to_nat n) (@None tier)).
  assert (L0 : Z.of_nat (length o0) = n) by (unfold o0; rewrite length_replicate; lia).
  assert (C0 : count_slot None o0 = Z.to_nat n) by apply count_slot_replicate_None.
  destruct (seed_fair rand n high (Z.to_nat (n / 3)) Hfair o0 pos L0 ltac:(lia))
    as (F1 & o1 & p1 & H1).
  destruct (seed_Ret _ _ _ _ _ _ _ _ _ (H1 F1 (Nat.le_refl _))) as (L1 & _ & _ & C1).
  destruct (seed_fair rand n medium (Z.to_nat (n / 3 + n mod 3)) Hfair o1 p1
              ltac:(lia) ltac:(lia)) as (F2 & o2 & p2 & H2).
  destruct (seed_Ret _ _ _ _ _ _ _ _ _ (H2 F2 (Nat.le_refl _))) as (L2 & _ & _ & C2).
  destruct (seed_fair rand n low (Z.to_nat (n / 3)) Hfair o2 p2
              ltac:(lia) ltac:(lia)) as (F3 & o3 & p3 & H3).
  exists (Nat.max F1 (Nat.max F2 F3)), o3, p3. intros fuel Hf.
  unfold Util.populateRisks. fold o0. simpl.
  rewrite upper_bound_1 by assumption.
  change (Util.upper_bound 0 n) with (n / 3).
  change (Util.upper_bound 2 n) with (n / 3).
  rewrite H1 by lia. simpl. rewrite H2 by lia. simpl. rewrite H3 by lia. reflexivity.
Qed.

(** The generator that returns 0, 1, 2, ... is fair for every slot count. *)
Lemma fair_counter (n : Z) : 1 <= n -> fair (fun k => Z.of_nat k) n.
Proof.
  intros Hn pos i Hi. exists (Z.to_nat (Z.of_nat pos * n + i)). split; [nia|].
  rewrite Z2Nat.id by nia.
  rewrite Z.add_comm, Z.mod_add by lia. apply Z.mod_small. lia.
Qed.

(** C1. For every round count N >= 1, populateRisks returns (under a fair
    generator the rejection loops finish) a list of length N in which every
    index holds one tier, with N div 3 slots of "high", N div 3 slots of
    "low" and N div 3 + N mod 3 slots of "medium"; every finished run,
    whatever the generator, returns such a list. *)
Theorem populateRisks_balanced (n : Z) :
  1 <= n ->
  (forall rand pos, fair rand n ->
     exists fuel output pos', Util.populateRisks fuel rand n pos = Ret (output, pos'))
  /\ (forall fuel rand pos output pos',
        Util.populateRisks fuel rand n pos = Ret (output, pos') ->
        Z.of_nat (length output) = n
        /\ (forall i : nat, (i < length output)%nat ->
              exists r, output !! i = Some (Some r))
        /\ Z.of_nat (count_slot (Some high) output) = n / 3
        /\ Z.of_nat (count_slot (Some low) output) = n / 3
        /\ Z.of_nat (count_slot (Some medium) output) = n / 3 + n mod 3).
Proof.
  intros Hn. split.
  - intros rand pos Hfair.
    destruct (populateRisks_fair rand n pos Hn Hfair) as (F & output & pos' & H).
    exists F, output, pos'. apply H. lia.
  - intros fuel rand pos output pos' H.
    exact (populateRisks_Ret fuel rand n pos output pos' Hn H).
Qed.

Lemma populateRisks_balanced_witness :
  1 <= 7
  /\ (exists fuel output pos',
        Util.populateRisks fuel (fun k => Z.of_nat k) 7 0 = Ret (output, pos'))
  /\ Z.of_nat (count_slot (Some medium)
       [Some high; Some high; Some medium; Some medium; Some medium; Some low; Some low])
     = 7 / 3 + 7 mod 3.
Proof.
  split; [lia|].
  destruct (populateRisks_balanced 7 ltac:(lia)) as [Hex Hall].
  split.
  - apply Hex. apply fair_counter. lia.
  - apply (Hall 1%nat (fun k => Z.of_nat k) 0%nat _ 7%nat). vm_compute. reflexivity.
Defined.

(** ** The pop decision *)

Lemma randint_outcomes_length a b :
  a <= b + 1 -> Z.of_nat (length (randint_outcomes a b)) = b - a + 1.
Proof.
  intros H. unfold randint_outcomes. rewrite length_map, length_seq. lia.
Qed.

Lemma elem_of_randint_outcomes a b d :
  d ∈ randint_outcomes a b <-> a <= d <= b.
Proof.
  unfold randint_outcomes. rewrite list_elem_of_fmap. split.
  - intros (k & -> & Hk). apply elem_of_seq in Hk. lia.
  - intros H. exists (Z.to_nat (d - a)). split; [lia|].
    apply elem_of_seq. lia.
Qed.

Lemma NoDup_randint_outcomes a b : NoDup (randint_outcomes a b).
Proof.
  unfold randint_outcomes. apply NoDup_fmap_2; [|apply NoDup_seq].
  intros x y H. lia.
Qed.

Lemma filter_eq_absent (l : list Z) (x : Z) :
  x ∉ l -> filter (fun d => d = x) l = [].
Proof.
  induction l as [|y l IH]; intros Hx; [reflexivity|].
  apply not_elem_of_cons in Hx as [Hne Hx].
  rewrite filter_cons_False by congruence. apply IH, Hx.
Qed.

Lemma filter_eq_NoDup (l : list Z) (x : Z) :
  NoDup l -> x ∈ l -> length (filter (fun d => d = x) l) = 1%nat.
Proof.
  induction 1 as [|y l Hy Hnd IH]; intros Hx.
  - inversion Hx.
  - rewrite filter_cons. destruct (decide (y = x)) as [->|Hne].
    + simpl. rewrite filter_eq_absent by assumption. reflexivity.
    + apply IH. apply elem_of_cons in Hx as [->|Hx]; [congruence | exact Hx].
Qed.

Lemma filter_ne_length (l : list Z) (x : Z) :
  (length (filter (fun d => d <> x) l) + length (filter (fun d => d = x) l)
   = length l)%nat.
Proof.
  induction l as [|y l IH]; [reflexivity|].
  rewrite !filter_cons.
  destruct (decide (y = x)), (decide (y <> x)); simpl; lia || contradiction.
Qed.

Lemma shouldPop_draw rand probs r size X pos :
  0 <= size -> table_get probs r !! Z.to_nat size = Some X -> 1 <= X ->
  shouldPop rand probs (Some r) size pos
  = Ret (10 - X + 1 + rand pos mod X =? 10, S pos).
Proof.
  intros Hs Hl HX. unfold shouldPop. simpl.
  rewrite (getitem_lookup _ _ X) by assumption. simpl.
  unfold randint. destruct (Z.ltb_spec 10 (10 - X + 1)); [lia|]. simpl.
  replace (10 - (10 - X + 1) + 1) with X by lia. reflexivity.
Qed.

Lemma shouldPop_out_of_range rand probs r size pos :
  Z.of_nat (length (table_get probs r)) <= size ->
  shouldPop rand probs (Some r) size pos = Raise IndexError.
Proof.
  intros Hs. unfold shouldPop, getitem. simpl.
  destruct (Z.ltb_spec size 0); [lia|].
  destruct (Z.ltb_spec size 0); [lia|].
  rewrite lookup_ge_None_2 by lia. reflexivity.
Qed.

Lemma filter_ext_in {A : Type} (P Q : A -> Prop)
    `{!forall x, Decision (P x), !forall x, Decision (Q x)} (l : list A) :
  (forall x, x ∈ l -> P x <-> Q x) -> filter P l = filter Q l.
Proof.
  induction l as [|x l IH]; intros Hext; [reflexivity|].
  rewrite !filter_cons.
  destruct (decide (P x)) as [HP|HP], (decide (Q x)) as [HQ|HQ].
  - f_equal. apply IH. intros y Hy. apply Hext. right. exact Hy.
  - exfalso. apply HQ, (Hext x); [left|exact HP].
  - exfalso. apply HP, (Hext x); [left|exact HQ].
  - apply IH. intros y Hy. apply Hext. right. exact Hy.
Qed.

Lemma randint_closed rand X pos :
  1 <= X ->
  randint rand (10 - X + 1) 10 pos = Ret (10 - X + 1 + rand pos mod X, S pos).
Proof.
  intros HX. unfold randint. destruct (Z.ltb_spec 10 (10 - X + 1)); [lia|].
  replace (10 - (10 - X + 1) + 1) with X by lia. reflexivity.
Qed.

(** The decision is the comparison of the draw with 10. *)
Lemma shouldPop_randint rand probs r size X pos :
  0 <= size -> table_get probs r !! Z.to_nat size = Some X ->
  shouldPop rand probs (Some r) size pos
  = (let* (draw, pos') := randint rand (10 - X + 1) 10 pos in Ret (draw =? 10, pos')).
Proof.
  intros Hs Hl. unfold shouldPop. simpl.
  rewrite (getitem_lookup _ _ X) by assumption. reflexivity.
Qed.

Lemma shouldPop_raw rand probs r size X pos :
  0 <= size -> table_get probs r !! Z.to_nat size = Some X -> 1 <= X ->
  shouldPop rand probs (Some r) size pos = Ret (rand pos mod X =? X - 1, S pos).
Proof.
  intros Hs Hl HX. rewrite (shouldPop_draw _ _ _ _ X) by assumption.
  do 2 f_equal.
  destruct (Z.eqb_spec (10 - X + 1 + rand pos mod X) 10),
           (Z.eqb_spec (rand pos mod X) (X - 1)); lia || reflexivity.
Qed.

Lemma pops_on_raw probs r size X k :
  0 <= size -> table_get probs r !! Z.to_nat size = Some X -> 1 <= X ->
  pops_on probs (Some r) size k = Some (k mod X =? X - 1).
Proof.
  intros Hs Hl HX. unfold pops_on.
  rewrite (shouldPop_raw _ _ _ _ X) by assumption. reflexivity.
Qed.

(** Of the X values of the raw draw, one pops and the others do not. *)
Lemma pops_on_count probs r size X :
  0 <= size -> table_get probs r !! Z.to_nat size = Some X -> 1 <= X ->
  length (filter (fun k => pops_on probs (Some r) size k = Some true) (seqZ 0 X))
  = 1%nat
  /\ Z.of_nat
       (length (filter (fun k => pops_on probs (Some r) size k = Some false)
                  (seqZ 0 X)))
     = X - 1.
Proof.
  intros Hs Hl HX.
  assert (Hone : length (filter (fun k => k = X - 1) (seqZ 0 X)) = 1%nat).
  { apply filter_eq_NoDup; [apply NoDup_seqZ|]. apply elem_of_seqZ. lia. }
  assert (Hdec : forall k, k ∈ seqZ 0 X ->
            pops_on probs (Some r) size k = Some (k =? X - 1)).
  { intros k Hk. apply elem_of_seqZ in Hk.
    rewrite (pops_on_raw _ _ _ X) by assumption.
    rewrite Z.mod_small by lia. reflexivity. }
  split.
  - rewrite <- Hone. f_equal. apply filter_ext_in. intros k Hk.
    rewrite (Hdec k Hk). destruct (Z.eqb_spec k (X - 1)); split; congruence.
  - pose proof (filter_ne_length (seqZ 0 X) (X - 1)) as Hsum.
    rewrite Hone, length_seqZ in Hsum.
    replace (filter (fun k => pops_on probs (Some r) size k = Some false) (seqZ 0 X))
      with (filter (fun k => k <> X - 1) (seqZ 0 X)); [lia|].
    apply filter_ext_in. intros k Hk.
    rewrite (Hdec k Hk). destruct (Z.eqb_spec k (X - 1)); split; congruence.
Qed.

(** C2. For a table value X >= 1 read for the current tier and pump count,
    the pop decision is the draw of randint(10 - X + 1, 10) compared with
    10: the draw takes exactly the X distinct values 11 - X .. 10 (each of
    them, and nothing else, one per value of the raw draw modulo X), the
    decision pops on the value 10 and on no other, so on exactly one of the
    X values of the raw draw and not on the other X - 1; for X = 1 it pops
    whatever the draw. *)
Theorem pop_one_in_X (probs : table) (r : tier) (size X : Z) :
  0 <= size -> table_get probs r !! Z.to_nat size = Some X -> 1 <= X ->
  (forall rand pos,
     randint rand (10 - X + 1) 10 pos = Ret (10 - X + 1 + rand pos mod X, S pos)
     /\ shouldPop rand probs (Some r) size pos
        = Ret (10 - X + 1 + rand pos mod X =? 10, S pos)
     /\ shouldPop rand probs (Some r) size pos
        = Ret (rand pos mod X =? X - 1, S pos))
  /\ (forall draw, draw ∈ randint_outcomes (10 - X + 1) 10 <->
        exists rand pos, randint rand (10 - X + 1) 10 pos = Ret (draw, S pos))
  /\ Z.of_nat (length (randint_outcomes (10 - X + 1) 10)) = X
  /\ NoDup (randint_outcomes (10 - X + 1) 10)
  /\ length (filter (fun d => d = 10) (randint_outcomes (10 - X + 1) 10)) = 1%nat
  /\ length (filter (fun k => pops_on probs (Some r) size k = Some true) (seqZ 0 X))
     = 1%nat
  /\ Z.of_nat
       (length (filter (fun k => pops_on probs (Some r) size k = Some false)
                  (seqZ 0 X)))
     = X - 1
  /\ (X = 1 -> forall rand pos,
        shouldPop rand probs (Some r) size pos = Ret (true, S pos)).
Proof.
  intros Hs Hl HX.
  destruct (pops_on_count probs r size X Hs Hl HX) as [Hpop Hrest].
  split; [|split; [|split; [|split; [|split; [|split; [|split]]]]]].
  - intros rand pos. split; [apply randint_closed; exact HX|]. split.
    + apply shouldPop_draw; assumption.
    + apply shouldPop_raw; assumption.
  - intros draw. rewrite elem_of_randint_outcomes. split.
    + intros Hd. exists (fun _ => draw - (10 - X + 1)), 0%nat.
      rewrite randint_closed by exact HX. rewrite Z.mod_small by lia.
      do 2 f_equal. lia.
    + intros (rand & pos & H). rewrite randint_closed in H by exact HX.
      injection H as <-.
      pose proof (Z.mod_pos_bound (rand pos) X ltac:(lia)). lia.
  - rewrite randint_outcomes_length; lia.
  - apply NoDup_randint_outcomes.
  - apply filter_eq_NoDup; [apply NoDup_randint_outcomes|].
    apply elem_of_randint_outcomes. lia.
  - exact Hpop.
  - exact Hrest.
  - intros -> rand pos. rewrite (shouldPop_draw _ _ _ _ 1) by assumption.
    rewrite Z.mod_1_r. reflexivity.
Qed.

Lemma pop_one_in_X_witness :
  shouldPop (fun _ => 7) {| t_high := [8; 6; 4; 2; 1]; t_medium := [1]; t_low := [1] |}
    (Some high) 2 0 = Ret (true, 1%nat)
  /\ shouldPop (fun _ => 6) {| t_high := [8; 6; 4; 2; 1]; t_medium := [1]; t_low := [1] |}
       (Some high) 2 0 = Ret (false, 1%nat)
  /\ length (filter
               (fun k => pops_on {| t_high := [8; 6; 4; 2; 1]; t_medium := [1];
                                    t_low := [1] |} (Some high) 2 k = Some true)
               (seqZ 0 4)) = 1%nat
  /\ Z.of_nat (length (randint_outcomes (10 - 4 + 1) 10)) = 4.
Proof.
  destruct (pop_one_in_X {| t_high := [8; 6; 4; 2; 1]; t_medium := [1]; t_low := [1] |}
              high 2 4 ltac:(lia) ltac:(reflexivity) ltac:(lia))
    as (Hdec & _ & Hlen & _ & _ & Hone & _).
  split; [exact (proj2 (proj2 (Hdec (fun _ => 7) 0%nat)))|].
  split; [exact (proj2 (proj2 (Hdec (fun _ => 6) 0%nat)))|].
  split; [exact Hone | exact Hlen].
Defined.

(** C3, as stated, fails: with X = 10 the decision does not pop on every
    draw (a raw draw of 0 gives the outcome 1, which does not pop), and only
    one of the ten outcomes pops. *)
Lemma pop_ten_not_certain :
  ~ (forall rand pos, exists pos',
       shouldPop rand table_high_10 (Some high) 0 pos = Ret (true, pos'))
  /\ length (filter (fun d => d = 10) (randint_outcomes (10 - 10 + 1) 10)) <> 10%nat.
Proof.
  split.
  - intros H. destruct (H (fun _ => 0) 0%nat) as [pos' Hp]. discriminate Hp.
  - vm_compute. discriminate.
Qed.

(** C3, amended. For a table value X between 1 and 10 read for the current
    tier and pump count, the draw of the pop decision takes the top X
    values of the scale 1..10 and no other, the decision pops exactly when
    the draw is 10, hence on one of the X values of the raw draw and not on
    the other X - 1 (1 in X, not X in 10); with the table {high: [10]},
    tier high and pump index 0 it pops exactly when the draw is the tenth
    of the ten outcomes. *)
Theorem pop_on_ten_scale (probs : table) (r : tier) (size X : Z) :
  0 <= size -> table_get probs r !! Z.to_nat size = Some X -> 1 <= X <= 10 ->
  (forall d, d ∈ randint_outcomes (10 - X + 1) 10 <-> 1 <= d <= 10 /\ 10 - X < d)
  /\ (forall rand pos, exists draw,
        randint rand (10 - X + 1) 10 pos = Ret (draw, S pos)
        /\ (1 <= draw <= 10 /\ 10 - X < draw)
        /\ shouldPop rand probs (Some r) size pos = Ret (draw =? 10, S pos)
        /\ shouldPop rand probs (Some r) size pos
           = Ret (rand pos mod X =? X - 1, S pos))
  /\ (forall d, 1 <= d <= 10 -> 10 - X < d ->
        exists rand, forall pos,
          shouldPop rand probs (Some r) size pos = Ret (d =? 10, S pos))
  /\ length (filter (fun k => pops_on probs (Some r) size k = Some true) (seqZ 0 X))
     = 1%nat
  /\ Z.of_nat
       (length (filter (fun k => pops_on probs (Some r) size k = Some false)
                  (seqZ 0 X)))
     = X - 1
  /\ Z.of_nat (length (filter (fun d => d = 10) (randint_outcomes (10 - X + 1) 10))) = 1
  /\ Z.of_nat (length (filter (fun d => d <> 10) (randint_outcomes (10 - X + 1) 10)))
     = X - 1
  /\ (forall rand pos,
        shouldPop rand table_high_10 (Some high) 0 pos
        = Ret (rand pos mod 10 =? 9, S pos)).
Proof.
  intros Hs Hl HX.
  assert (HX1 : 1 <= X) by lia.
  destruct (pops_on_count probs r size X Hs Hl HX1) as [Hpop Hrest].
  assert (Hone : length (filter (fun d => d = 10) (randint_outcomes (10 - X + 1) 10))
                 = 1%nat).
  { apply filter_eq_NoDup; [apply NoDup_randint_outcomes|].
    apply elem_of_randint_outcomes. lia. }
  split; [|split; [|split; [|split; [|split; [|split; [|split]]]]]].
  - intros d. rewrite elem_of_randint_outcomes. lia.
  - intros rand pos. exists (10 - X + 1 + rand pos mod X).
    pose proof (Z.mod_pos_bound (rand pos) X ltac:(lia)).
    split; [apply randint_closed; exact HX1|]. split; [lia|]. split.
    + apply shouldPop_draw; assumption.
    + apply shouldPop_raw; assumption.
  - intros d Hd1 Hd2. exists (fun _ => d - (10 - X + 1)). intros pos.
    rewrite (shouldPop_draw _ _ _ _ X) by assumption.
    rewrite Z.mod_small by lia. do 2 f_equal. lia.
  - exact Hpop.
  - exact Hrest.
  - rewrite Hone. reflexivity.
  - pose proof (filter_ne_length (randint_outcomes (10 - X + 1) 10) 10) as Hsum.
    pose proof (randint_outcomes_length (10 - X + 1) 10 ltac:(lia)). lia.
  - intros rand pos. apply (shouldPop_raw _ _ _ _ 10); [lia | reflexivity | lia].
Qed.

Lemma pop_on_ten_scale_witness :
  shouldPop (fun _ => 9) table_high_10 (Some high) 0 0 = Ret (true, 1%nat)
  /\ shouldPop (fun _ => 4) table_high_10 (Some high) 0 0 = Ret (false, 1%nat)
  /\ Z.of_nat
       (length (filter (fun k => pops_on table_high_10 (Some high) 0 k = Some false)
                  (seqZ 0 10)))
     = 10 - 1.
Proof.
  destruct (pop_on_ten_scale table_high_10 high 0 10 ltac:(lia) ltac:(reflexivity)
              ltac:(lia))
    as (_ & _ & _ & _ & Hrest & _ & _ & Hpop).
  split; [exact (Hpop (fun _ => 9) 0%nat)|].
  split; [exact (Hpop (fun _ => 4) 0%nat) | exact Hrest].
Defined.

(** ** The loader's sentinel *)

Lemma extractProb_sentinel file probs :
  Util.extractProb file = Ret probs -> sentinel_ended probs.
Proof.
  unfold Util.extractProb. simpl. intros H.
  destruct (readline file) as [l1 f1].
  inv_bind H. rename a into e1.
  destruct (readline f1) as [l2 f2].
  inv_bind H. rename a into e2.
  destruct (readline f2) as [l3 f3].
  inv_bind H. rename a into e3.
  injection H as <-.
  intros [| |]; simpl; eauto.
Qed.

Lemma sentinel_last probs r :
  sentinel_ended probs ->
  (0 < length (table_get probs r))%nat
  /\ table_get probs r !! (length (table_get probs r) - 1)%nat = Some 1.
Proof.
  intros Hs. destruct (Hs r) as [entries ->].
  rewrite length_app. simpl. split; [lia|].
  replace (length entries + 1 - 1)%nat with (length entries + 0)%nat by lia.
  rewrite lookup_app_r by lia.
  replace (length entries + 0 - length entries)%nat with 0%nat by lia. reflexivity.
Qed.

Lemma shouldPop_sentinel rand probs r pos :
  sentinel_ended probs ->
  shouldPop rand probs (Some r) (Z.of_nat (length (table_get probs r)) - 1) pos
  = Ret (true, S pos).
Proof.
  intros Hs. destruct (sentinel_last probs r Hs) as [Hlen Hlast].
  rewrite (shouldPop_draw _ _ _ _ 1); try lia.
  - rewrite Z.mod_1_r. reflexivity.
  - replace (Z.to_nat (Z.of_nat (length (table_get probs r)) - 1))
      with (length (table_get probs r) - 1)%nat by lia.
    exact Hlast.
Qed.

(** C4, as stated, fails: one index past the sentinel the lookup is out of
    range and the decision raises instead of returning true. *)
Lemma pop_past_sentinel_raises :
  ~ (forall probs, Util.extractProb sample_file = Ret probs ->
       forall r size, Z.of_nat (length (table_get probs r)) - 1 <= size ->
         forall rand pos, exists pos',
           shouldPop rand probs (Some r) size pos = Ret (true, pos')).
Proof.
  intros H.
  destruct (H {| t_high := [8; 6; 4; 2; 1]; t_medium := [10; 9; 8; 7; 6; 1];
                 t_low := [10; 10; 10; 1] |} ltac:(vm_compute; reflexivity)
              high 5 ltac:(simpl; lia) (fun _ => 0) 0%nat) as [pos' Hp].
  discriminate Hp.
Qed.

(** C4, amended. The loader ends every tier's sequence with the sentinel 1;
    at the sentinel's index, length - 1, the pop decision returns true
    whatever the draw; at any larger index the lookup raises IndexError. *)
Theorem sentinel_pops (file : list string) (probs : table) (r : tier) :
  Util.extractProb file = Ret probs ->
  last (table_get probs r) = Some 1
  /\ (forall rand pos,
        shouldPop rand probs (Some r) (Z.of_nat (length (table_get probs r)) - 1) pos
        = Ret (true, S pos))
  /\ (forall size rand pos, Z.of_nat (length (table_get probs r)) <= size ->
        shouldPop rand probs (Some r) size pos = Raise IndexError).
Proof.
  intros H. apply extractProb_sentinel in H. split; [|split].
  - destruct (H r) as [entries ->]. apply last_snoc.
  - intros rand pos. apply shouldPop_sentinel, H.
  - intros size rand pos Hs. apply shouldPop_out_of_range, Hs.
Qed.

Lemma sentinel_pops_witness :
  exists probs, Util.extractProb sample_file = Ret probs
    /\ last (table_get probs low) = Some 1
    /\ shouldPop (fun _ => 7) probs (Some low) 3 0 = Ret (true, 1%nat).
Proof.
  eexists. split; [vm_compute; reflexivity|].
  destruct (sentinel_pops sample_file _ low ltac:(vm_compute; reflexivity))
    as (Hlast & Hpop & _).
  split; [exact Hlast | exact (Hpop (fun _ => 7) 0%nat)].
Defined.

(** ** The session invariant holds in every reachable state *)

Lemma count_entered_note s s' w :
  count_entered s (note_entered s' w)
  = (count_entered s w + (if decide (s' = s) then 1 else 0))%nat.
Proof.
  unfold count_entered, note_entered. simpl.
  rewrite filter_app, length_app. f_equal.
  rewrite filter_cons, filter_nil. destruct (decide (s' = s)); reflexivity.
Qed.

Lemma inv_setupStates e uid n active c :
  Control.setupStates e new_state_dict s_start
    (Args3 {| a3_user_ID := uid; a3_num_rounds := n; a3_active_response := active |})
    init_world = Ret c ->
  inv n c.
Proof.
  intros H. injection H as <-. unfold inv. simpl.
  repeat split; try reflexivity. eexists. split; reflexivity.
Qed.

Lemma Start_getEvent_same ev o :
  next (Start.getEvent ev o) = next o
  /\ attributes (Start.getEvent ev o) = attributes o.
Proof. destruct ev as [| |[]|]; split; reflexivity. Qed.

Lemma EndRound_getEvent_same ev o :
  next (EndRound.getEvent ev o) = next o
  /\ attributes (EndRound.getEvent ev o) = attributes o.
Proof. destruct ev as [| |[]|]; split; reflexivity. Qed.

Lemma Exit_getEvent_same ev o :
  next (Exit.getEvent ev o) = next o
  /\ attributes (Exit.getEvent ev o) = attributes o.
Proof. destruct ev as [| |[]|]; split; reflexivity. Qed.

(** A pump that does not pop was not read at the sentinel. *)
Lemma no_pop_before_sentinel rand probs r size pos pos' :
  sentinel_ended probs ->
  0 <= size < Z.of_nat (length (table_get probs r)) ->
  shouldPop rand probs (Some r) size pos = Ret (false, pos') ->
  size + 1 < Z.of_nat (length (table_get probs r)).
Proof.
  intros Hs Hsize Hp.
  destruct (Z.eq_dec size (Z.of_nat (length (table_get probs r)) - 1)) as [->|]; [|lia].
  rewrite shouldPop_sentinel in Hp by assumption. discriminate.
Qed.

Lemma shouldPop_pos rand probs r size pos b pos' :
  shouldPop rand probs r size pos = Ret (b, pos') -> pos' = S pos.
Proof.
  unfold shouldPop. intros H. inv_bind H. inv_bind H. inv_bind H.
  destruct a1 as [d p]. apply randint_Ret in Hm1 as (_ & _ & ->).
  injection H as _ <-. reflexivity.
Qed.

Lemma dict_upd_eq d s o : dict_upd d s o s = o.
Proof. unfold dict_upd. case_decide; congruence. Qed.

Lemma dict_upd_ne d s o s' : s' <> s -> dict_upd d s o s' = d s'.
Proof. intros H. unfold dict_upd. case_decide; congruence. Qed.

Ltac dict := repeat first [rewrite dict_upd_eq | rewrite dict_upd_ne by discriminate].
Ltac dict_in H :=
  repeat first [rewrite dict_upd_eq in H | rewrite dict_upd_ne in H by discriminate].

Lemma Play_getEvent_inv e ev n d w o' w' :
  inv_play n d w ->
  Play.getEvent e ev (d s_play) w = Ret (o', w') ->
  inv_play n (dict_upd d s_play o') w'.
Proof.
  intros (Ha & Hnext & Hw & He) H.
  destruct Ha as (a & Hattr & Hc & Hleft & (r & Hr & Hsize) & Hprog).
  unfold inv_play. dict.
  assert (Hends : ends_to_play (dict_upd d s_play o')).
  { unfold ends_to_play. dict. exact He. }
  destruct ev as [| |k|]; try (injection H as <- <-; eauto 12).
  destruct k; try (injection H as <- <-; eauto 12); simpl in H; rewrite Hattr in H.
  - inv_bind H. destruct a0 as [pop pos'].
    rewrite Hr in Hm.
    pose proof (shouldPop_pos _ _ _ _ _ _ _ Hm) as ->.
    destruct pop; simpl in H; injection H as <- <-; simpl.
    + split; [|auto]. eexists. split; [reflexivity|]. simpl. eauto 10.
    + split; [|auto]. eexists. split; [reflexivity|]. simpl.
      destruct Hc as (? & ? & ? & Hsent & ?).
      pose proof (no_pop_before_sentinel _ _ _ _ _ _ Hsent Hsize Hm) as Hlt.
      split; [unfold carried; auto|]. split; [lia|]. split; [|exact Hprog].
      exists r. split; [assumption | lia].
  - injection H as <- <-. simpl. split; [|auto].
    eexists. split; [reflexivity|]. simpl. eauto 10.
Qed.

Lemma inv_handle_event e ev n c c' :
  inv n c -> Control.handle_event e ev c = Ret c' -> inv n c'.
Proof.
  intros Hinv H. destruct c as [d s dn w].
  unfold Control.handle_event, state in H. simpl in H.
  inv_bind H. destruct a as [o w']. injection H as <-.
  unfold inv in *. simpl in *.
  destruct Hinv as (N1 & N2 & N3 & Hs).
  destruct s; simpl in *.
  - injection Hm as <- <-. destruct (Start_getEvent_same ev (d s_start)) as [Hn Ha].
    dict. rewrite Hn. repeat (split; [assumption|]).
    destruct Hs as (Hattr & ? & ? & ? & ? & ? & ? & He).
    unfold inv_start, ends_to_play. dict. rewrite Ha. auto 10.
  - injection Hm as <- <-. dict. repeat (split; [assumption|]).
    destruct Hs as (Hattr & ? & ? & He).
    unfold inv_setup, ends_to_play. dict. auto.
  - dict. repeat (split; [assumption|]).
    eapply Play_getEvent_inv; eassumption.
  - injection Hm as <- <-.
    destruct (EndRound_getEvent_same ev (d s_popped)) as [Hn Ha].
    dict. repeat (split; [assumption|]).
    destruct Hs as ((a & Hattr & Hc & Hl & Hp & Hnx) & Hw).
    unfold inv_end, ends_to_play in *. dict. rewrite Ha, Hn.
    split; [|assumption]. exists a. repeat (split; [assumption|]).
    destruct (a12_num_rounds_left a =? 0); [assumption|]. dict. assumption.
  - injection Hm as <- <-.
    destruct (EndRound_getEvent_same ev (d s_cashed)) as [Hn Ha].
    dict. repeat (split; [assumption|]).
    destruct Hs as ((a & Hattr & Hc & Hl & Hp & Hnx) & Hw).
    unfold inv_end, ends_to_play in *. dict. rewrite Ha, Hn.
    split; [|assumption]. exists a. repeat (split; [assumption|]).
    destruct (a12_num_rounds_left a =? 0); [assumption|]. dict. assumption.
  - injection Hm as <- <-. destruct (Exit_getEvent_same ev (d s_exit)) as [Hn Ha].
    dict. rewrite Hn. auto.
Qed.

Lemma inv_eventLoop e events n c c' :
  inv n c -> Control.eventLoop e events c = Ret c' -> inv n c'.
Proof.
  revert c. induction events as [|ev events IH]; intros c Hinv H; simpl in H.
  - injection H as <-. exact Hinv.
  - inv_bind H. eapply IH; [|exact H]. eapply inv_handle_event; eassumption.
Qed.

Lemma count_entered_other s s' w :
  s' <> s -> count_entered s (note_entered s' w) = count_entered s w.
Proof.
  intros H. rewrite count_entered_note. destruct (decide (s' = s)); [contradiction | lia].
Qed.

Lemma count_entered_ext s w w' :
  entered w' = entered w -> count_entered s w' = count_entered s w.
Proof. unfold count_entered. intros ->. reflexivity. Qed.

Lemma count_entered_same s w :
  count_entered s (note_entered s w) = S (count_entered s w).
Proof.
  rewrite count_entered_note. destruct (decide (s = s)); [lia | contradiction].
Qed.

Lemma Play_enter_inv n o a w o' w' :
  1 <= n ->
  carried n (a9_socket a) (a9_csv_file a) (a9_csv_writer a) (a9_probs a) (a9_round_risks a) ->
  1 <= a9_num_rounds a <= n ->
  Play.enter o (Args9 a) w = Ret (o', w') ->
  w' = w /\ next o' = Some s_popped
  /\ exists pa, attributes o' = PlayAttrs pa
       /\ carried n (socket pa) (csv_file pa) (csv_writer pa) (probs pa) (round_risks pa)
       /\ num_rounds_left pa = a9_num_rounds a
       /\ overall_total pa = a9_overall_total a
       /\ exists r, risk pa = Some r
            /\ 0 <= balloon_size pa < Z.of_nat (length (table_get (probs pa) r)).
Proof.
  intros Hn Hc Hk H. unfold Play.enter in H. simpl in H.
  inv_bind H. injection H as <- <-.
  destruct Hc as (Hs & Hf & Hw & Hsent & Hlen & Hfull).
  apply getitem_nonneg in Hm; [|lia].
  destruct (Hfull (Z.to_nat (Z.of_nat (length (a9_round_risks a)) - a9_num_rounds a))
              ltac:(lia)) as [r Hr].
  rewrite Hr in Hm. injection Hm as <-.
  split; [reflexivity|]. split; [reflexivity|].
  eexists. split; [reflexivity|]. simpl.
  split; [unfold carried, schedule_ok; auto 10|].
  split; [reflexivity|]. split; [reflexivity|].
  exists r. split; [reflexivity|].
  destruct (sentinel_last _ r Hsent). lia.
Qed.

Lemma writerow_multi rowdict w :
  csv_closed w = 0%nat ->
  forallb (fun kv => existsb (String.eqb (fst kv)) (Util.fieldnames true)) rowdict = true ->
  exists w', writerow (Util.fieldnames true) rowdict w = Ret w'
    /\ csv_rows w' = csv_rows w ++ [map (row_get rowdict) (Util.fieldnames true)]
    /\ rng_pos w' = rng_pos w
    /\ socket_opened w' = socket_opened w /\ socket_closed w' = socket_closed w
    /\ socket_sent w' = socket_sent w
    /\ csv_opened w' = csv_opened w /\ csv_closed w' = csv_closed w
    /\ csv_header w' = csv_header w /\ entered w' = entered w.
Proof.
  intros Hc Hk. unfold writerow. rewrite Hk, Hc. simpl.
  eexists. split; [reflexivity|]. simpl. repeat split; reflexivity.
Qed.


Lemma EndRound_enter_inv e s o a w o' w' :
  s = s_popped \/ s = s_cashed ->
  a12_socket a = h_socket -> socket_closed w = 0%nat ->
  enter e s o (Args12 a) w = Ret (o', w') ->
  attributes o' = EndAttrs a
  /\ next o' = (if a12_num_rounds_left a =? 0 then Some s_exit else next o)
  /\ same_files w w'.
Proof.
  intros Hs Hsock Hclosed H.
  assert (Hboth : exists code,
    (let* (o1, w1) := EndRound.enter o (Args12 a) w in
     let* w2 := EndRound.trigger e code o1 w1 in Ret (o1, w2)) = Ret (o', w')).
  { destruct Hs as [-> | ->]; eexists; exact H. }
  clear H. destruct Hboth as [code H].
  unfold EndRound.enter in H. simpl in H.
  unfold EndRound.trigger, sendall in H.
  destruct (a12_num_rounds_left a =? 0); simpl in H;
    rewrite Hsock, Hclosed in H; simpl in H;
    (destruct (send_ok e (length (socket_sent w))); simpl in H; [|discriminate]);
    injection H as <- <-;
    (split; [reflexivity|]); (split; [reflexivity|]);
    unfold same_files; simpl; auto 10.
Qed.


Lemma Exit_enter_inv o a w o' w' :
  a9_socket a = h_socket -> a9_csv_file a = h_csv_file ->
  Exit.enter o (Args9 a) w = Ret (o', w') ->
  next o' = next o
  /\ socket_opened w' = socket_opened w /\ socket_closed w' = S (socket_closed w)
  /\ csv_opened w' = csv_opened w /\ csv_closed w' = S (csv_closed w)
  /\ csv_header w' = csv_header w /\ csv_rows w' = csv_rows w
  /\ entered w' = entered w.
Proof.
  intros Hs Hf H. unfold Exit.enter in H. simpl in H. injection H as <- <-.
  rewrite Hs, Hf. simpl. auto 10.
Qed.

Lemma inv_changeState_end e n d s dn w c' :
  1 <= n -> s = s_popped \/ s = s_cashed ->
  next (d s_start) = Some s_setup -> next (d s_setup) = Some s_play ->
  next (d s_exit) = None ->
  inv_end n s d w ->
  Control.changeState e
    {| state_dict := d; state_name := s; c_done := dn; c_world := w |} = Ret c' ->
  inv n c'.
Proof.
  intros Hn Hs N1 N2 N3 Hinv H.
  destruct Hs; subst s;
  (  destruct Hinv as ((a & Hattr & Hc & Hleft & Hp & Hnx) & Hw);
  unfold Control.changeState, state in H; simpl in H;
  unfold EndRound.exit, EndRound.cleanup in H; simpl in H;
  rewrite Hattr in H; simpl in H;
  destruct Hc as (Hsock & Hfile & Hwriter & Hsent & Hsched);
  destruct Hp as (P1 & P2 & P3);
  destruct (Z.eqb_spec (a12_num_rounds_left a) 0) as [Hz|Hz];
  [ (* no round left: Exit *)
    rewrite Hnx in H; inv_bind H;
    match goal with a0 : (state_obj * world)%type |- _ => destruct a0 as [o1 w1] end;
    injection H as <-;
    match goal with Hm : enter _ _ _ _ _ = _ |- _ =>
      dict_in Hm; simpl in Hm;
      apply Exit_enter_inv in Hm; [|assumption|assumption];
      destruct Hm as (Hn1 & X1 & X2 & X3 & X4 & X5 & X6 & X7)
    end;
    destruct Hw as (W1 & W2 & W3 & W4 & W5);
    unfold inv; simpl; dict; simpl;
    repeat (split; [congruence|]);
    unfold inv_exit; simpl; repeat (split; [congruence|]);
    unfold progress in *; rewrite !count_entered_other by discriminate;
    rewrite !(count_entered_ext _ w w1) by assumption;
    cbn [csv_rows note_entered]; rewrite X6; lia
  | (* rounds left: Play *)
    destruct Hnx as [E1 E2];
    first [rewrite E1 in H | rewrite E2 in H]; inv_bind H;
    match goal with a0 : (state_obj * world)%type |- _ => destruct a0 as [o1 w1] end;
    injection H as <-;
    match goal with Hm : enter _ _ _ _ _ = _ |- _ =>
      dict_in Hm; simpl in Hm;
      apply (Play_enter_inv n) in Hm; [|assumption|unfold carried; auto|simpl; lia];
      destruct Hm as (-> & Hn1 & pa & Hpa & Hcar & Hl1 & _ & Hbound); simpl in Hl1
    end;
    unfold inv; simpl; dict; simpl;
    repeat (split; [assumption|]);
    unfold inv_play; dict; simpl; rewrite Hn1;
    (split; [|split; [auto|split; [exact Hw|]]]);
    [ exists pa; rewrite Hl1; repeat (split; [assumption|]);
      split; [lia|]; split; [assumption|];
      unfold progress;
      rewrite count_entered_same, !count_entered_other by discriminate;
      cbn [csv_rows note_entered]; lia
    | unfold ends_to_play; dict; simpl; auto ] ]).
Qed.

Lemma inv_changeState e n c c' :
  1 <= n -> inv n c -> Control.changeState e c = Ret c' -> inv n c'.
Proof.
  intros Hn Hinv H. destruct c as [d s dn w].
  unfold Control.changeState, state in H. simpl in H.
  unfold inv in Hinv. simpl in Hinv.
  destruct Hinv as (N1 & N2 & N3 & Hs).
  destruct s; simpl in H.
  - (* Start -> Setup *)
    destruct Hs as ((a & Hattr & Hnum) & Ho & Hc & Hfo & Hfc & Hh & Hp & He).
    unfold Start.exit, Start.cleanup in H. simpl in H. rewrite Hattr in H. simpl in H.
    rewrite N1 in H. dict_in H. simpl in H.
    inv_bind H. destruct a0 as [o1 w1]. injection H as <-.
    unfold Setup.enter in Hm. simpl in Hm.
    inv_bind Hm. rename a0 into tbl. inv_bind Hm. destruct a0 as [sched pos'].
    injection Hm as <- <-.
    unfold inv. simpl. dict. simpl.
    repeat (split; [assumption|]).
    unfold inv_setup. dict. simpl.
    apply extractProb_sentinel in Hm0.
    rewrite Hnum in Hm1. apply populateRisks_Ret in Hm1; [|assumption].
    destruct Hm1 as (Hlen & Hfull & _).
    destruct Hp as (P1 & P2 & P3). destruct He as [E1 E2].
    split; [|split; [|split]].
    + eexists. split; [reflexivity|]. simpl. split; [|assumption].
      unfold carried, schedule_ok. auto 10.
    + unfold open_world. simpl. rewrite Ho, Hc, Hfo, Hfc. auto.
    + unfold progress. rewrite !count_entered_other by discriminate. simpl.
      unfold count_entered in *. simpl in *. auto.
    + unfold ends_to_play. dict. auto.
  - (* Setup -> Play *)
    destruct Hs as ((a & Hattr & Hc & Hnum) & Hw & Hp & He).
    unfold Setup.exit, Setup.cleanup in H. simpl in H. rewrite Hattr in H. simpl in H.
    rewrite N2 in H. dict_in H.
    inv_bind H. destruct a0 as [o1 w1]. injection H as <-.
    apply (Play_enter_inv n) in Hm; [|assumption|assumption|lia].
    destruct Hm as (-> & Hnx & pa & Hpa & Hcar & Hleft & _ & Hbound).
    unfold inv. simpl. dict. simpl.
    repeat (split; [assumption|]).
    unfold inv_play. dict. simpl. rewrite Hnx.
    destruct Hp as (P1 & P2 & P3). destruct He as [E1 E2].
    split; [|split; [auto|split]].
    + exists pa. rewrite Hleft, Hnum. repeat (split; [assumption|]).
      split; [lia|]. split; [assumption|].
      unfold progress. rewrite count_entered_same, !count_entered_other by discriminate.
      simpl. lia.
    + exact Hw.
    + unfold ends_to_play. dict. auto.
  - (* Play -> Popped or Cashed *)
    destruct Hs as ((a & Hattr & Hc & Hleft & Hb & Hp) & Hnx & Hw & He).
    unfold Play.exit, Play.cleanup in H. simpl in H. rewrite Hattr in H.
    destruct Hc as (Hsock & Hfile & Hwriter & Hsent & Hsched).
    destruct Hw as (W1 & W2 & W3 & W4 & W5).
    destruct (writerow_multi (Play.row a) w W4 ltac:(reflexivity))
      as (w1 & Hrow & R1 & R2 & R3 & R4 & R5 & R6 & R7 & R8 & R9).
    rewrite Hwriter, Hrow in H. simpl in H.
    destruct Hp as (P1 & P2 & P3). destruct He as [E1 E2].
    assert (Hend : exists s, (s = s_popped \/ s = s_cashed) /\ next (d s_play) = Some s
                              /\ next (d s) = Some s_play).
    { destruct Hnx; [exists s_popped | exists s_cashed]; auto. }
    clear Hnx. destruct Hend as (s & Hs & Hnx & Hsn).
    rewrite Hnx in H. inv_bind H. destruct a0 as [o1 w2]. injection H as <-.
    assert (Hsp : s <> s_play) by (destruct Hs; subst; discriminate).
    rewrite dict_upd_ne in Hm by assumption.
    apply EndRound_enter_inv in Hm; [|assumption|assumption|lia].
    destruct Hm as (Ha1 & Hn1 & S1 & S2 & S3 & S4 & S5 & S6 & S7). simpl in Hn1.
    assert (Hinv_end : inv_end n s
              (dict_upd (dict_upd d s_play (set_attributes NoAttrs (set_done false (d s_play))))
                 s (set_previous (Some s_play) o1)) (note_entered s w2)).
    { unfold inv_end. dict. simpl. rewrite Ha1, Hn1.
      split; [|unfold open_world; simpl in *; repeat split; congruence].
      eexists. split; [reflexivity|]. simpl.
      split; [unfold carried; auto 10|]. split; [lia|].
      split.
      - unfold progress. rewrite count_entered_note.
        destruct (decide (s = s_play)); [contradiction|].
        assert (Hcount : (count_entered s_popped (note_entered s w2)
                          + count_entered s_cashed (note_entered s w2)
                          = S (count_entered s_popped w + count_entered s_cashed w))%nat).
        { rewrite !count_entered_note. unfold count_entered. rewrite S7, R9.
          destruct Hs; subst s; simpl; lia. }
        rewrite Hcount. unfold count_entered in *. simpl.
        rewrite S7, R9, S6, R1, length_app. simpl. lia.
      - destruct (num_rounds_left a - 1 =? 0); [reflexivity|].
        unfold ends_to_play.
        destruct Hs; subst s; dict; simpl; rewrite ?Hn1; auto. }
    unfold inv. simpl.
    destruct Hs; subst s; dict; simpl; auto.
  - (* Popped -> Play or Exit *)
    apply (inv_changeState_end e n d s_popped dn w c'); auto.
  - (* Cashed -> Play or Exit *)
    apply (inv_changeState_end e n d s_cashed dn w c'); auto.
  - (* Exit has no next state *)
    rewrite N3 in H. discriminate.
Qed.

Lemma inv_dict_ext n d d' s dn dn' w :
  (forall x, next (d' x) = next (d x) /\ attributes (d' x) = attributes (d x)) ->
  inv n {| state_dict := d; state_name := s; c_done := dn; c_world := w |} ->
  inv n {| state_dict := d'; state_name := s; c_done := dn'; c_world := w |}.
Proof.
  intros Hext. unfold inv. simpl.
  unfold inv_start, inv_setup, inv_play, inv_end, ends_to_play.
  destruct s; rewrite !(proj1 (Hext _)), ?(proj2 (Hext _)); auto.
Qed.

(** A state's [update] that returns has drawn, and changed nothing but the
    [done] flag of [Setup]. *)
Lemma state_update_Ret e s o o' :
  state_update e s o = Ret o' ->
  o' = match s with s_setup => Setup.update o | _ => o end.
Proof.
  destruct s; simpl;
    unfold Start.update, Play.update, EndRound.update, Exit.update;
    intros H; try (inv_bind H); injection H as <-; reflexivity.
Qed.

Lemma state_update_same e s o o' :
  state_update e s o = Ret o' ->
  next o' = next o /\ attributes o' = attributes o.
Proof.
  intros H. apply state_update_Ret in H as ->. destruct s; split; reflexivity.
Qed.

Lemma inv_update e n c c' :
  1 <= n -> inv n c -> Control.update e c = Ret c' -> inv n c'.
Proof.
  intros Hn Hinv H. unfold Control.update in H. inv_bind H. rename a into c1.
  inv_bind H. rename a into o1. rename Hm0 into Hup. injection H as <-.
  assert (H1 : inv n c1).
  { destruct (quit (state c)).
    - injection Hm as <-. destruct c as [d s dn w].
      eapply inv_dict_ext; [|exact Hinv]. auto.
    - destruct (done (state c)).
      + eapply inv_changeState; eassumption.
      + injection Hm as <-. exact Hinv. }
  destruct c1 as [d s dn w]. unfold state. simpl.
  eapply inv_dict_ext; [|exact H1].
  intros x. unfold dict_upd.
  case_decide; [subst x; eapply state_update_same; exact Hup | auto].
Qed.

Lemma inv_mainGameLoop e n frames c c' :
  1 <= n -> inv n c -> Control.mainGameLoop e frames c = Ret c' -> inv n c'.
Proof.
  intros Hn. revert c. induction frames as [|events frames IH]; intros c Hinv H; simpl in H.
  - injection H as <-. exact Hinv.
  - destruct (c_done c); [injection H as <-; exact Hinv|].
    inv_bind H. inv_bind H. eapply IH; [|exact H].
    eapply inv_update; [assumption| |eassumption].
    eapply inv_eventLoop; eassumption.
Qed.

(** Every state a session reaches satisfies the invariant. *)
Lemma inv_main e uid n active frames c :
  1 <= n -> main e uid n active frames = Ret c -> inv n c.
Proof.
  intros Hn H. unfold main in H. inv_bind H.
  eapply inv_mainGameLoop; [assumption| |exact H].
  eapply inv_setupStates; eassumption.
Qed.

Lemma inv_reachable e uid n active c :
  1 <= n -> reachable e uid n active c -> inv n c.
Proof.
  intros Hn. induction 1 as [c H | c ev c' _ IH H | c c' _ IH H].
  - eapply inv_setupStates; eassumption.
  - eapply inv_handle_event; eassumption.
  - eapply inv_update; eassumption.
Qed.

Lemma eventLoop_reachable e uid n active events c c' :
  reachable e uid n active c -> Control.eventLoop e events c = Ret c' ->
  reachable e uid n active c'.
Proof.
  revert c. induction events as [|ev events IH]; intros c Hr H; simpl in H.
  - injection H as <-. exact Hr.
  - inv_bind H. eapply IH; [|exact H]. eapply reach_event; eassumption.
Qed.

Lemma mainGameLoop_reachable e uid n active frames c c' :
  reachable e uid n active c -> Control.mainGameLoop e frames c = Ret c' ->
  reachable e uid n active c'.
Proof.
  revert c. induction frames as [|events frames IH]; intros c Hr H; simpl in H.
  - injection H as <-. exact Hr.
  - destruct (c_done c); [injection H as <-; exact Hr|].
    inv_bind H. inv_bind H. eapply IH; [|exact H].
    eapply reach_update; [|eassumption].
    eapply eventLoop_reachable; eassumption.
Qed.

(** What [main] returns after any number of frames is a reachable state. *)
Lemma main_reachable e uid n active frames c :
  main e uid n active frames = Ret c -> reachable e uid n active c.
Proof.
  intros H. unfold main in H. inv_bind H.
  eapply mainGameLoop_reachable; [|exact H]. apply reach_setup. exact Hm.
Qed.

(** ** Leaving Play *)

Lemma Play_row_values a :
  map (row_get (Play.row a)) (Util.fieldnames true)
  = [VInt (balloon_size a);
     VInt (if popped a then 0 else round_total a);
     VInt (overall_total a);
     VBool (popped a);
     risk_val (risk a)].
Proof.
  cbv [Util.fieldnames map Play.row row_get String.eqb Ascii.eqb Bool.eqb].
  destruct (popped a); simpl; repeat f_equal; lia.
Qed.

Lemma changeState_play e d dn w a c' :
  attributes (d s_play) = PlayAttrs a ->
  next (d s_play) = Some s_popped \/ next (d s_play) = Some s_cashed ->
  socket a = h_socket -> csv_writer a = Util.fieldnames true ->
  socket_closed w = 0%nat -> csv_closed w = 0%nat ->
  Control.changeState e
    {| state_dict := d; state_name := s_play; c_done := dn; c_world := w |} = Ret c' ->
  next (d s_play) = Some (state_name c')
  /\ (exists b, attributes (state c') = EndAttrs b
        /\ a12_num_rounds_left b = num_rounds_left a - 1
        /\ a12_overall_total b = overall_total a
        /\ a12_round_total b = round_total a
        /\ a12_balloon_size b = balloon_size a
        /\ a12_risk b = risk a)
  /\ csv_rows (c_world c')
     = csv_rows w ++ [map (row_get (Play.row a)) (Util.fieldnames true)]
  /\ entered (c_world c') = entered w ++ [state_name c'].
Proof.
  intros Hattr Hnx Hsock Hwriter Hsc Hcc H.
  unfold Control.changeState, state in H. simpl in H.
  unfold Play.exit, Play.cleanup in H. simpl in H. rewrite Hattr in H.
  destruct (writerow_multi (Play.row a) w Hcc ltac:(reflexivity))
    as (w1 & Hrow & R1 & R2 & R3 & R4 & R5 & R6 & R7 & R8 & R9).
  rewrite Hwriter, Hrow in H. simpl in H.
  assert (Hend : exists s, (s = s_popped \/ s = s_cashed) /\ next (d s_play) = Some s).
  { destruct Hnx; [exists s_popped | exists s_cashed]; auto. }
  clear Hnx. destruct Hend as (s & Hs & Hnx).
  rewrite Hnx in H. inv_bind H. destruct a0 as [o1 w2]. injection H as <-.
  apply EndRound_enter_inv in Hm; [|assumption|assumption|lia].
  destruct Hm as (Ha1 & _ & S1 & S2 & S3 & S4 & S5 & S6 & S7).
  unfold state. simpl. rewrite dict_upd_eq. simpl. rewrite Ha1, S6, S7, R1, R9.
  split; [exact Hnx|]. split; [|split; reflexivity].
  eexists. split; [reflexivity|]. simpl. auto.
Qed.

(** ** Pump, cash-in and pop events *)

Lemma writerow_Ret fieldnames rowdict w w' :
  writerow fieldnames rowdict w = Ret w' ->
  csv_rows w' = csv_rows w ++ [map (row_get rowdict) fieldnames].
Proof.
  unfold writerow. destruct (forallb _ rowdict); [|discriminate].
  destruct (0 <? csv_closed w)%nat; [discriminate|].
  intros [= <-]. reflexivity.
Qed.

(** One event at a time: a pump that does not pop adds 1 to the pump count
    and 1 to the round winnings and leaves the cumulative winnings alone; a
    cash-in adds the round winnings to the cumulative winnings and marks
    the round done; a pump that pops leaves pump count, round winnings and
    cumulative winnings as they were and marks the round done, and a row
    written at exit from that very object has round payout 0 and the
    unchanged cumulative total. *)
Lemma event_effects (e : env) (o : state_obj) (a : play_attrs) (w : world) :
  attributes o = PlayAttrs a ->
  (forall pos',
     shouldPop (rand e) (probs a) (risk a) (balloon_size a) (rng_pos w)
     = Ret (false, pos') ->
     exists o' w' a',
       Play.getEvent e (KEYDOWN K_RIGHT) o w = Ret (o', w')
       /\ attributes o' = PlayAttrs a'
       /\ balloon_size a' = balloon_size a + 1
       /\ round_total a' = round_total a + 1
       /\ overall_total a' = overall_total a
       /\ done o' = done o)
  /\ (exists o' a',
        Play.getEvent e (KEYDOWN K_LEFT) o w = Ret (o', w)
        /\ attributes o' = PlayAttrs a'
        /\ overall_total a' = overall_total a + round_total a
        /\ round_total a' = round_total a
        /\ balloon_size a' = balloon_size a
        /\ cashed a' = true /\ done o' = true /\ next o' = Some s_cashed)
  /\ (forall pos',
        shouldPop (rand e) (probs a) (risk a) (balloon_size a) (rng_pos w)
        = Ret (true, pos') ->
        exists o' w' a',
          Play.getEvent e (KEYDOWN K_RIGHT) o w = Ret (o', w')
          /\ attributes o' = PlayAttrs a'
          /\ balloon_size a' = balloon_size a
          /\ round_total a' = round_total a
          /\ overall_total a' = overall_total a
          /\ popped a' = true /\ done o' = true /\ next o' = Some s_popped
          /\ forall args w'', csv_writer a = Util.fieldnames true ->
               Play.exit o' w' = Ret (args, w'') ->
               csv_rows w'' = csv_rows w ++
                 [[VInt (balloon_size a); VInt 0; VInt (overall_total a);
                   VBool true; risk_val (risk a)]]).
Proof.
  intros Hattr. split; [|split].
  - intros pos' Hp. simpl. rewrite Hattr, Hp. simpl.
    do 3 eexists. split; [reflexivity|]. simpl. auto 10.
  - simpl. rewrite Hattr. do 2 eexists. split; [reflexivity|]. simpl. auto 10.
  - intros pos' Hp. simpl. rewrite Hattr, Hp. simpl.
    do 3 eexists. split; [reflexivity|]. simpl.
    repeat (split; [reflexivity|]).
    intros args w'' Hwriter Hexit. unfold Play.exit in Hexit. simpl in Hexit.
    inv_bind Hexit. injection Hexit as _ <-.
    apply writerow_Ret in Hm. rewrite Hm. simpl csv_rows. rewrite Hwriter.
    rewrite Play_row_values. reflexivity.
Qed.

(** C5 on the code: a pump that pops marks the round done, but the events
    that follow it in the same frame are still handled.  After one pump, a
    frame holding the popping pump alone logs the row 1, 0, 0, True and
    enters Popped; the same pump followed in its frame by a cash-in credits
    the popped round's winnings to the cumulative winnings (row 1, 0, 1,
    True), enters Cashed and sends the cash-in trigger. *)
Lemma pop_then_cash_same_frame :
  (exists c,
     main pop_env "0001" 1 true (frames_one_pump ++ [[KEYDOWN K_RIGHT]]) = Ret c
     /\ state_name c = s_popped
     /\ csv_rows (c_world c) = [[VInt 1; VInt 0; VInt 0; VBool true; VStr "medium"]]
     /\ socket_sent (c_world c) = ["<TRIGGER>9</TRIGGER>"]%string)
  /\ (exists c,
        main pop_env "0001" 1 true
          (frames_one_pump ++ [[KEYDOWN K_RIGHT; KEYDOWN K_LEFT]]) = Ret c
        /\ state_name c = s_cashed
        /\ csv_rows (c_world c) = [[VInt 1; VInt 0; VInt 1; VBool true; VStr "medium"]]
        /\ socket_sent (c_world c) = ["<TRIGGER>7</TRIGGER>"]%string).
Proof.
  split; eexists; (split; [vm_compute; reflexivity|]); repeat split; reflexivity.
Qed.

(** ** The log *)

Lemma getEvent_same_files e s ev o w o' w' :
  getEvent e s ev o w = Ret (o', w') -> same_files w w'.
Proof.
  assert (Hrefl : same_files w w) by (unfold same_files; auto 10).
  destruct s; simpl; try (intros [= <- <-]; exact Hrefl).
  destruct ev as [| |k|]; simpl; try (intros [= <- <-]; exact Hrefl).
  destruct k; simpl; try (intros [= <- <-]; exact Hrefl).
  - destruct (attributes o); try discriminate.
    intros H. inv_bind H. destruct a0 as [pop pos'].
    destruct (negb _); injection H as <- <-; unfold same_files; simpl; auto 10.
  - destruct (attributes o); try discriminate.
    intros [= <- <-]. exact Hrefl.
Qed.

Lemma Play_exit_Ret a o w :
  attributes o = PlayAttrs a -> csv_writer a = Util.fieldnames true ->
  csv_closed w = 0%nat ->
  exists args w', Play.exit o w = Ret (args, w')
    /\ csv_rows w'
       = csv_rows w ++ [map (row_get (Play.row a)) (Util.fieldnames true)].
Proof.
  intros Hattr Hwriter Hcc. unfold Play.exit. rewrite Hattr, Hwriter.
  destruct (writerow_multi (Play.row a) w Hcc ltac:(reflexivity))
    as (w1 & Hrow & Hrows & _).
  rewrite Hrow. simpl. eauto.
Qed.

Lemma changeState_play_Ret e d dn w a :
  attributes (d s_play) = PlayAttrs a ->
  next (d s_play) = Some s_popped \/ next (d s_play) = Some s_cashed ->
  socket a = h_socket -> csv_writer a = Util.fieldnames true ->
  socket_closed w = 0%nat -> csv_closed w = 0%nat ->
  send_ok e (length (socket_sent w)) = true ->
  exists c', Control.changeState e
    {| state_dict := d; state_name := s_play; c_done := dn; c_world := w |} = Ret c'.
Proof.
  intros Hattr Hnx Hsock Hwriter Hsc Hcc Hsend.
  unfold Control.changeState, state. simpl.
  unfold Play.exit, Play.cleanup. simpl. rewrite Hattr.
  destruct (writerow_multi (Play.row a) w Hcc ltac:(reflexivity))
    as (w1 & Hrow & _ & _ & _ & R4 & R5 & _).
  rewrite Hwriter, Hrow. simpl.
  destruct Hnx as [-> | ->]; rewrite dict_upd_ne by discriminate; simpl;
    unfold Popped.enter, Cashed.enter, EndRound.enter; simpl;
    unfold EndRound.trigger, sendall;
    destruct (num_rounds_left a - 1 =? 0); simpl; rewrite Hsock, R4, R5, Hsc, Hsend;
    simpl; eauto.
Qed.

(** C6. The header holds the five field names in their order; at every
    point of a session the log holds one row per finished round (per entry
    into Popped or Cashed); handling an event writes nothing; in Play, the
    exit of the state writes one row, holding the pump count, the round
    winnings (0 if popped), the cumulative winnings, the popped flag and the
    risk of the object being left; the change of state out of Play takes
    place whenever the peer takes the trigger, and whenever it takes place
    the log has gained exactly that row and the session is in Popped or
    Cashed. *)
Theorem one_row_per_round (e : env) (uid : string) (n : Z) (active : bool) (c : control) :
  1 <= n -> reachable e uid n active c ->
  (state_name c <> s_start ->
     csv_header (c_world c)
     = [["num_keypresses"; "round_money_won"; "total_money_won"; "popped"; "risk"]%string])
  /\ length (csv_rows (c_world c))
     = (count_entered s_popped (c_world c) + count_entered s_cashed (c_world c))%nat
  /\ (forall ev c', Control.handle_event e ev c = Ret c' ->
        csv_rows (c_world c') = csv_rows (c_world c))
  /\ (forall a, state_name c = s_play -> attributes (state c) = PlayAttrs a ->
        (exists args w',
           Play.exit (state c) (c_world c) = Ret (args, w')
           /\ csv_rows w'
              = csv_rows (c_world c) ++
                  [[VInt (balloon_size a);
                    VInt (if popped a then 0 else round_total a);
                    VInt (overall_total a);
                    VBool (popped a);
                    risk_val (risk a)]])
        /\ (send_ok e (length (socket_sent (c_world c))) = true ->
              exists c', Control.changeState e c = Ret c')
        /\ (forall c', Control.changeState e c = Ret c' ->
              (state_name c' = s_popped \/ state_name c' = s_cashed)
              /\ csv_rows (c_world c')
                 = csv_rows (c_world c) ++
                     [[VInt (balloon_size a);
                       VInt (if popped a then 0 else round_total a);
                       VInt (overall_total a);
                       VBool (popped a);
                       risk_val (risk a)]])).
Proof.
  intros Hn Hr. apply inv_reachable in Hr; [|assumption].
  destruct c as [d s dn w]. destruct Hr as (N1 & N2 & N3 & Hs). simpl in *.
  split; [|split; [|split]].
  - intros Hne. destruct s; try contradiction.
    + destruct Hs as (_ & (_ & _ & _ & _ & Hh) & _). exact Hh.
    + destruct Hs as (_ & _ & (_ & _ & _ & _ & Hh) & _). exact Hh.
    + destruct Hs as (_ & (_ & _ & _ & _ & Hh)). exact Hh.
    + destruct Hs as (_ & (_ & _ & _ & _ & Hh)). exact Hh.
    + destruct Hs as (_ & _ & _ & _ & Hh & _). exact Hh.
  - destruct s.
    + destruct Hs as (_ & _ & _ & _ & _ & _ & (_ & P2 & P3) & _). lia.
    + destruct Hs as (_ & _ & (_ & P2 & P3) & _). lia.
    + destruct Hs as ((a & _ & _ & _ & _ & (_ & P2 & P3)) & _). lia.
    + destruct Hs as ((a & _ & _ & _ & (_ & P2 & P3) & _) & _). lia.
    + destruct Hs as ((a & _ & _ & _ & (_ & P2 & P3) & _) & _). lia.
    + destruct Hs as (_ & _ & _ & _ & _ & (_ & P2 & P3)). lia.
  - intros ev c' H. unfold Control.handle_event in H. simpl in H.
    inv_bind H. destruct a as [o' w']. injection H as <-. simpl.
    apply getEvent_same_files in Hm. destruct Hm as (_ & _ & _ & _ & _ & Hrows & _).
    exact Hrows.
  - intros a -> Hattr.
    destruct Hs as ((a0 & Hattr0 & Hc & _) & Hnx & Hw & _).
    unfold state in Hattr. simpl in Hattr. rewrite Hattr in Hattr0.
    injection Hattr0 as <-.
    destruct Hc as (Hsock & _ & Hwriter & _).
    destruct Hw as (_ & W2 & _ & W4 & _).
    split; [|split].
    + unfold state. simpl.
      destruct (Play_exit_Ret a (d s_play) w Hattr Hwriter W4)
        as (args & w' & Hex & Hrows).
      exists args, w'. split; [exact Hex|].
      rewrite Hrows, Play_row_values. reflexivity.
    + intros Hsend.
      exact (changeState_play_Ret e d dn w a Hattr Hnx Hsock Hwriter W2 W4 Hsend).
    + intros c' H.
      pose proof (changeState_play e d dn w a c' Hattr Hnx Hsock Hwriter W2 W4 H)
        as (Hnext & _ & Hrows & _).
      split.
      * destruct Hnx as [Hp|Hp]; rewrite Hp in Hnext; injection Hnext as <-; auto.
      * rewrite Hrows, Play_row_values. reflexivity.
Qed.

Lemma one_row_per_round_witness :
  exists c0 c',
    (let* c := main sample_env "0001" 1 true frames_one_pump in
     Control.handle_event sample_env (KEYDOWN K_LEFT) c) = Ret c0
    /\ state_name c0 = s_play
    /\ Control.changeState sample_env c0 = Ret c'
    /\ state_name c' = s_cashed
    /\ csv_rows (c_world c')
       = [[VInt 1; VInt 1; VInt 1; VBool false; VStr "medium"]].
Proof.
  eexists. eexists. split; [vm_compute; reflexivity|]. split; [reflexivity|].
  split; [vm_compute; reflexivity|]. split; [reflexivity|].
  match goal with
  | |- csv_rows (c_world ?c') = _ =>
      match eval vm_compute in (main sample_env "0001" 1 true frames_one_pump) with
      | Ret ?cm =>
          match eval vm_compute in
                (Control.handle_event sample_env (KEYDOWN K_LEFT) cm) with
          | Ret ?c0 =>
              match eval vm_compute in (attributes (state c0)) with
              | PlayAttrs ?a =>
                  exact (proj2 (proj2 (proj2 (proj2 (proj2 (proj2
                           (one_row_per_round sample_env "0001" 1 true c0 ltac:(lia)
                              (reach_event sample_env "0001" 1 true cm
                                 (KEYDOWN K_LEFT) c0
                                 (main_reachable sample_env "0001" 1 true
                                    frames_one_pump cm ltac:(vm_compute; reflexivity))
                                 ltac:(vm_compute; reflexivity)))))
                           a eq_refl eq_refl))
                           c' ltac:(vm_compute; reflexivity)))
              end
          end
      end
  end.
Defined.

(** ** The round counter *)

Lemma changeState_next e c c' :
  Control.changeState e c = Ret c' -> next (state c) = Some (state_name c').
Proof.
  unfold Control.changeState. intros H.
  inv_bind H. destruct a as [args w1]. inv_bind H.
  simpl in H. destruct (next (state c)) as [s|]; [|discriminate].
  inv_bind H. destruct a0 as [o w2]. injection H as <-. reflexivity.
Qed.

(** C7. The k-th entry into Play consumes the counter n - k + 1 and its exit
    payload carries n - k, one less; on entering Popped or Cashed the next
    state is Exit iff that counter is 0 and Play otherwise, and the
    transition taken on confirm goes there; Play is never entered more than
    n times, and a session that has reached Exit entered it exactly n
    times. *)
Theorem rounds_countdown (e : env) (uid : string) (n : Z) (active : bool) (c : control) :
  1 <= n -> reachable e uid n active c ->
  Z.of_nat (count_entered s_play (c_world c)) <= n
  /\ (forall a, state_name c = s_play -> attributes (state c) = PlayAttrs a ->
        num_rounds_left a = n - Z.of_nat (count_entered s_play (c_world c)) + 1
        /\ forall c', Control.changeState e c = Ret c' ->
             exists b, attributes (state c') = EndAttrs b
               /\ a12_num_rounds_left b = num_rounds_left a - 1)
  /\ (forall b, state_name c = s_popped \/ state_name c = s_cashed ->
        attributes (state c) = EndAttrs b ->
        a12_num_rounds_left b = n - Z.of_nat (count_entered s_play (c_world c))
        /\ next (state c) = Some (if a12_num_rounds_left b =? 0 then s_exit else s_play)
        /\ forall c', Control.changeState e c = Ret c' ->
             state_name c' = if a12_num_rounds_left b =? 0 then s_exit else s_play)
  /\ (state_name c = s_exit -> Z.of_nat (count_entered s_play (c_world c)) = n).
Proof.
  intros Hn Hr. apply inv_reachable in Hr; [|assumption].
  destruct c as [d s dn w]. destruct Hr as (N1 & N2 & N3 & Hs).
  unfold state. simpl in *.
  split; [|split; [|split]].
  - destruct s.
    + destruct Hs as (_ & _ & _ & _ & _ & _ & (P1 & _) & _). lia.
    + destruct Hs as (_ & _ & (P1 & _) & _). lia.
    + destruct Hs as ((a & _ & _ & ? & _ & (P1 & _)) & _). lia.
    + destruct Hs as ((a & _ & _ & ? & (P1 & _) & _) & _). lia.
    + destruct Hs as ((a & _ & _ & ? & (P1 & _) & _) & _). lia.
    + destruct Hs as (_ & _ & _ & _ & _ & (P1 & _)). lia.
  - intros a -> Hattr.
    destruct Hs as ((a0 & Hattr0 & Hc & _ & _ & (P1 & _)) & Hnx & Hw & _).
    rewrite Hattr in Hattr0. injection Hattr0 as <-.
    split; [lia|]. intros c' H.
    destruct Hc as (Hsock & _ & Hwriter & _).
    destruct Hw as (_ & W2 & _ & W4 & _).
    pose proof (changeState_play e d dn w a c' Hattr Hnx Hsock Hwriter W2 W4 H)
      as (_ & (b & Hb & Hleft & _) & _).
    exists b. auto.
  - intros b Hsb Hattr.
    assert (Hend : inv_end n s d w) by (destruct Hsb; subst s; exact Hs).
    destruct Hend as ((a0 & Hattr0 & _ & Hleft & (P1 & _) & Hnx) & _).
    rewrite Hattr in Hattr0. injection Hattr0 as <-.
    assert (Hnext : next (d s)
                    = Some (if a12_num_rounds_left b =? 0 then s_exit else s_play)).
    { destruct (a12_num_rounds_left b =? 0); [exact Hnx|].
      destruct Hnx as [E1 E2]. destruct Hsb; subst s; assumption. }
    split; [lia|]. split; [exact Hnext|].
    intros c' H. apply changeState_next in H. unfold state in H. simpl in H.
    rewrite Hnext in H. injection H as <-. reflexivity.
  - intros ->. destruct Hs as (_ & _ & _ & _ & _ & (P1 & _)). exact P1.
Qed.

Lemma rounds_countdown_witness :
  exists c,
    main sample_env "0001" 1 true frames_cash_in = Ret c
    /\ state_name c = s_exit
    /\ Z.of_nat (count_entered s_play (c_world c)) = 1.
Proof.
  eexists. split; [vm_compute; reflexivity|].
  match goal with
  | |- context [c_world ?c] =>
      pose proof (rounds_countdown sample_env "0001" 1 true c ltac:(lia)
                    (main_reachable sample_env "0001" 1 true frames_cash_in c
                       ltac:(vm_compute; reflexivity))) as (_ & _ & _ & Hexit)
  end.
  split; [reflexivity | exact (Hexit eq_refl)].
Defined.

(** ** Socket and file *)

(** C8, as stated, fails: a session closed by the window button during the
    first round has ended ([done] is set, the loop is over) with socket and
    file opened and neither closed. *)
Lemma quit_leaves_resources_open :
  exists c,
    main sample_env "0001" 1 true [[KEYDOWN K_RETURN]; []; [QUIT]; []] = Ret c
    /\ c_done c = true /\ state_name c = s_play
    /\ socket_opened (c_world c) = 1%nat /\ csv_opened (c_world c) = 1%nat
    /\ socket_closed (c_world c) = 0%nat /\ csv_closed (c_world c) = 0%nat.
Proof. eexists. split; [vm_compute; reflexivity|]. repeat split. Qed.

(** C8, amended. Socket and file are opened once, on entering Setup, and
    each is closed exactly once, on entering Exit: in every state before
    Exit, whatever ends the session there, neither has been closed. *)
Theorem closed_at_exit_only (e : env) (uid : string) (n : Z) (active : bool) (c : control) :
  1 <= n -> reachable e uid n active c ->
  socket_opened (c_world c) = (if decide (state_name c = s_start) then 0 else 1)%nat
  /\ csv_opened (c_world c) = (if decide (state_name c = s_start) then 0 else 1)%nat
  /\ socket_closed (c_world c) = (if decide (state_name c = s_exit) then 1 else 0)%nat
  /\ csv_closed (c_world c) = (if decide (state_name c = s_exit) then 1 else 0)%nat.
Proof.
  intros Hn Hr. apply inv_reachable in Hr; [|assumption].
  destruct c as [d s dn w]. destruct Hr as (_ & _ & _ & Hs). simpl in *.
  destruct s; simpl.
  - destruct Hs as (_ & ? & ? & ? & ? & _). auto.
  - destruct Hs as (_ & (? & ? & ? & ? & _) & _). auto.
  - destruct Hs as (_ & _ & (? & ? & ? & ? & _) & _). auto.
  - destruct Hs as (_ & (? & ? & ? & ? & _)). auto.
  - destruct Hs as (_ & (? & ? & ? & ? & _)). auto.
  - destruct Hs as (? & ? & ? & ? & _). auto.
Qed.

Lemma closed_at_exit_only_witness :
  exists c,
    main sample_env "0001" 1 true frames_cash_in = Ret c
    /\ socket_closed (c_world c) = 1%nat /\ csv_closed (c_world c) = 1%nat.
Proof.
  eexists. split; [vm_compute; reflexivity|].
  match goal with
  | |- context [c_world ?c] =>
      pose proof (closed_at_exit_only sample_env "0001" 1 true c ltac:(lia)
                    (main_reachable sample_env "0001" 1 true frames_cash_in c
                       ltac:(vm_compute; reflexivity))) as (_ & _ & Hsock & Hfile)
  end.
  split; [exact Hsock | exact Hfile].
Defined.

(** ** The table lookup of the pump handler *)

(** C9. In every reachable Play state the table ends every tier with the
    sentinel, the round has a tier, and the pump count is an index of that
    tier's sequence, so the lookup of the pump handler succeeds. *)
Theorem lookup_in_bounds (e : env) (uid : string) (n : Z) (active : bool)
    (c : control) (a : play_attrs) :
  1 <= n -> reachable e uid n active c ->
  state_name c = s_play -> attributes (state c) = PlayAttrs a ->
  sentinel_ended (probs a)
  /\ exists r row X,
       risk a = Some r
       /\ dict_get (probs a) (risk a) = Ret row
       /\ 0 <= balloon_size a <= Z.of_nat (length row) - 1
       /\ getitem row (balloon_size a) = Ret X.
Proof.
  intros Hn Hr Hs Hattr. apply inv_reachable in Hr; [|assumption].
  destruct c as [d s dn w]. destruct Hr as (_ & _ & _ & Hinv).
  unfold state in Hattr. simpl in *. subst s.
  destruct Hinv as ((a0 & Hattr0 & Hc & _ & (r & Hrisk & Hb) & _) & _).
  rewrite Hattr in Hattr0. injection Hattr0 as <-.
  destruct Hc as (_ & _ & _ & Hsent & _). split; [exact Hsent|].
  destruct (lookup_lt_is_Some_2 (table_get (probs a) r) (Z.to_nat (balloon_size a))
              ltac:(lia)) as [X HX].
  exists r, (table_get (probs a) r), X. rewrite Hrisk. simpl.
  split; [reflexivity|]. split; [reflexivity|]. split; [lia|].
  apply getitem_lookup; [lia | exact HX].
Qed.

Lemma lookup_in_bounds_witness :
  exists c a,
    main sample_env "0001" 2 true frames_one_pump = Ret c
    /\ attributes (state c) = PlayAttrs a
    /\ balloon_size a = 1
    /\ exists r row X,
         risk a = Some r
         /\ dict_get (probs a) (risk a) = Ret row
         /\ 0 <= balloon_size a <= Z.of_nat (length row) - 1
         /\ getitem row (balloon_size a) = Ret X.
Proof.
  eexists. eexists. split; [vm_compute; reflexivity|].
  match goal with
  | |- attributes (state ?c) = _ /\ _ =>
      assert (HR : reachable sample_env "0001" 2 true c)
        by (apply (main_reachable _ _ _ _ frames_one_pump); vm_compute; reflexivity);
      split; [reflexivity|]; split; [reflexivity|];
      match goal with
      | |- exists r row X, risk ?a = _ /\ _ =>
          exact (proj2 (lookup_in_bounds sample_env "0001" 2 true c a ltac:(lia) HR
                          eq_refl eq_refl))
      end
  end.
Defined.

(** ** Cumulative winnings against the logged rows *)

(** C10 on the code: two key events handled in one frame of Play break the
    balance between the total_money_won column and the sum of the
    round_money_won column.  After one pump, two cash-ins in one frame
    credit the round twice (row 1, 1, 2); a cash-in followed in the same
    frame by a pump that does not pop logs a payout that was never credited
    (row 2, 2, 1). *)
Lemma same_frame_events_break_total :
  (exists c,
     main sample_env "0001" 1 true
       (frames_one_pump ++ [[KEYDOWN K_LEFT; KEYDOWN K_LEFT]]) = Ret c
     /\ csv_rows (c_world c) = [[VInt 1; VInt 1; VInt 2; VBool false; VStr "medium"]]
     /\ last_total (csv_rows (c_world c)) <> sum_round_money (csv_rows (c_world c)))
  /\ (exists c,
        main sample_env "0001" 1 true
          (frames_one_pump ++ [[KEYDOWN K_LEFT; KEYDOWN K_RIGHT]]) = Ret c
        /\ csv_rows (c_world c) = [[VInt 2; VInt 2; VInt 1; VBool false; VStr "medium"]]
        /\ last_total (csv_rows (c_world c)) <> sum_round_money (csv_rows (c_world c))).
Proof.
  split; eexists; (split; [vm_compute; reflexivity|]);
    (split; [reflexivity | vm_compute; discriminate]).
Qed.

(** * Further properties of the session *)

(** ** What a step does to the world *)

Lemma getEvent_sent e s ev o w o' w' :
  getEvent e s ev o w = Ret (o', w') -> socket_sent w' = socket_sent w.
Proof.
  destruct s; simpl; try (intros [= <- <-]; reflexivity).
  destruct ev as [| |k|]; simpl; try (intros [= <- <-]; reflexivity).
  destruct k; simpl; try (intros [= <- <-]; reflexivity).
  - destruct (attributes o); try discriminate.
    intros H. inv_bind H. destruct a0 as [pop pos'].
    destruct (negb _); injection H as <- <-; reflexivity.
  - destruct (attributes o); try discriminate.
    intros [= <- <-]. reflexivity.
Qed.

Lemma handle_event_world e ev c c' :
  Control.handle_event e ev c = Ret c' ->
  state_name c' = state_name c
  /\ getEvent e (state_name c) ev (state c) (c_world c) = Ret (state c', c_world c')
  /\ (forall x, x <> state_name c -> state_dict c' x = state_dict c x)
  /\ c_done c' = match ev with QUIT => true | _ => c_done c end.
Proof.
  unfold Control.handle_event. intros H. inv_bind H. destruct a as [o w].
  injection H as <-. unfold state. simpl. rewrite dict_upd_eq.
  repeat split; try assumption.
  intros x Hx. apply dict_upd_ne. exact Hx.
Qed.

Lemma exit_world s o w args w' :
  exit s o w = Ret (args, w') ->
  entered w' = entered w /\ socket_sent w' = socket_sent w
  /\ rng_pos w' = rng_pos w.
Proof.
  destruct s; simpl.
  - unfold Start.exit. destruct (attributes o); try discriminate.
    intros [= <- <-]. auto.
  - unfold Setup.exit. destruct (attributes o); try discriminate.
    intros [= <- <-]. auto.
  - unfold Play.exit. destruct (attributes o); try discriminate.
    intros H. inv_bind H. injection H as _ <-.
    unfold writerow in Hm. destruct (forallb _ _); [|discriminate].
    destruct (0 <? csv_closed w)%nat; [discriminate|].
    injection Hm as <-. auto.
  - unfold EndRound.exit. destruct (attributes o); try discriminate.
    intros [= <- <-]. auto.
  - unfold EndRound.exit. destruct (attributes o); try discriminate.
    intros [= <- <-]. auto.
  - intros [= <- <-]. auto.
Qed.

Lemma EndRound_trigger_world e code o a w w' :
  attributes o = EndAttrs a ->
  EndRound.trigger e code o w = Ret w' ->
  entered w' = entered w /\ socket_sent w' = socket_sent w ++ [code]
  /\ csv_rows w' = csv_rows w /\ rng_pos w' = rng_pos w.
Proof.
  unfold EndRound.trigger, sendall. intros ->.
  destruct (a12_socket a); [|discriminate].
  destruct (0 <? socket_closed w)%nat; [discriminate|].
  destruct (send_ok e (length (socket_sent w))); [|discriminate].
  intros [= <-]. auto.
Qed.

Lemma EndRound_enter_attrs o args w o' w' :
  EndRound.enter o args w = Ret (o', w') ->
  w' = w /\ exists a, args = Args12 a /\ attributes o' = EndAttrs a.
Proof.
  unfold EndRound.enter. intros H. inv_bind H.
  destruct args; try discriminate. injection Hm as ->.
  destruct (a12_num_rounds_left a =? 0); injection H as <- <-; eauto.
Qed.

Lemma enter_world e s o args w o' w' :
  enter e s o args w = Ret (o', w') ->
  entered w' = entered w /\ socket_sent w' = socket_sent w ++ trigger_of s.
Proof.
  destruct s; simpl.
  - unfold Start.enter. intros H. inv_bind H. injection H as _ <-.
    rewrite app_nil_r. auto.
  - unfold Setup.enter. intros H. inv_bind H. simpl in H.
    inv_bind H. inv_bind H. destruct a1 as [sched pos']. injection H as _ <-.
    rewrite app_nil_r. auto.
  - unfold Play.enter. intros H. inv_bind H. inv_bind H. injection H as _ <-.
    rewrite app_nil_r. auto.
  - unfold Popped.enter. intros H. inv_bind H. destruct a as [o1 w1].
    inv_bind H. injection H as _ <-.
    apply EndRound_enter_attrs in Hm as (-> & aa & _ & Ha).
    apply (EndRound_trigger_world _ _ _ aa) in Hm0 as (? & ? & _); auto.
  - unfold Cashed.enter. intros H. inv_bind H. destruct a as [o1 w1].
    inv_bind H. injection H as _ <-.
    apply EndRound_enter_attrs in Hm as (-> & aa & _ & Ha).
    apply (EndRound_trigger_world _ _ _ aa) in Hm0 as (? & ? & _); auto.
  - unfold Exit.enter. intros H. inv_bind H. destruct a as [[sock file] writer].
    injection H as _ <-. rewrite app_nil_r.
    destruct sock, file; auto.
Qed.

(** [changeState], step by step. *)
Lemma changeState_steps e c c' :
  Control.changeState e c = Ret c' ->
  exists args w1 o1 n w2,
    exit (state_name c) (set_done false (state c)) (c_world c) = Ret (args, w1)
    /\ cleanup (state_name c) (set_done false (state c)) = Ret o1
    /\ next (state c) = Some (state_name c')
    /\ enter e (state_name c')
         (dict_upd (state_dict c) (state_name c) o1 (state_name c')) args w1
       = Ret (n, w2)
    /\ state_dict c'
       = dict_upd (dict_upd (state_dict c) (state_name c) o1) (state_name c')
           (set_previous (Some (state_name c)) n)
    /\ c_done c' = c_done c
    /\ c_world c' = note_entered (state_name c') w2.
Proof.
  unfold Control.changeState. intros H.
  inv_bind H. destruct a as [args w1]. inv_bind H. rename a into o1.
  simpl in H. destruct (next (state c)) as [s|] eqn:Hn; [|discriminate].
  inv_bind H. destruct a as [n w2]. injection H as <-. simpl.
  exists args, w1, o1, n, w2. auto 10.
Qed.

Lemma changeState_world e c c' :
  Control.changeState e c = Ret c' ->
  entered (c_world c') = entered (c_world c) ++ [state_name c']
  /\ socket_sent (c_world c')
     = socket_sent (c_world c) ++ trigger_of (state_name c').
Proof.
  intros H. apply changeState_steps in H
    as (args & w1 & o1 & n & w2 & Hex & _ & _ & Hen & _ & _ & ->).
  apply exit_world in Hex as (E1 & S1 & _).
  apply enter_world in Hen as (E2 & S2).
  simpl. rewrite E2, E1, S2, S1. auto.
Qed.

(** [update], step by step: the flags of the current state decide. *)
Lemma update_steps e c c' :
  Control.update e c = Ret c' ->
  exists c1,
    (if quit (state c)
     then c1 = {| state_dict := state_dict c; state_name := state_name c;
                  c_done := true; c_world := c_world c |}
     else if done (state c) then Control.changeState e c = Ret c1
     else c1 = c)
    /\ state_name c' = state_name c1 /\ c_world c' = c_world c1
    /\ c_done c' = c_done c1
    /\ forall x,
         attributes (state_dict c' x) = attributes (state_dict c1 x)
         /\ next (state_dict c' x) = next (state_dict c1 x)
         /\ previous (state_dict c' x) = previous (state_dict c1 x)
         /\ quit (state_dict c' x) = quit (state_dict c1 x)
         /\ done (state_dict c' x)
            = (if decide (x = s_setup /\ state_name c1 = s_setup) then true
               else done (state_dict c1 x)).
Proof.
  unfold Control.update. intros H. inv_bind H. rename a into c1.
  inv_bind H. rename a into o1. apply state_update_Ret in Hm0 as ->.
  injection H as <-. exists c1. simpl. split.
  - destruct (quit (state c)); [injection Hm as <-; reflexivity|].
    destruct (done (state c)); [exact Hm | injection Hm as <-; reflexivity].
  - repeat (split; [reflexivity|]). intros x. unfold dict_upd, state.
    destruct (decide (x = state_name c1)) as [->|Hne].
    + destruct (state_name c1); simpl; repeat split;
        try (rewrite decide_True by auto; reflexivity);
        rewrite decide_False by (intros [? ?]; discriminate); reflexivity.
    + repeat split. rewrite decide_False; [reflexivity|].
      intros [-> Hs]. apply Hne. symmetry. exact Hs.
Qed.

Lemma update_world e c c' :
  Control.update e c = Ret c' ->
  (state_name c' = state_name c /\ c_world c' = c_world c)
  \/ (quit (state c) = false /\ done (state c) = true
      /\ exists c1, Control.changeState e c = Ret c1
           /\ state_name c' = state_name c1 /\ c_world c' = c_world c1).
Proof.
  intros H. apply update_steps in H as (c1 & Hc1 & Hs & Hw & _).
  destruct (quit (state c)).
  - left. subst c1. auto.
  - destruct (done (state c)).
    + right. eauto 10.
    + left. subst c1. auto.
Qed.

(** ** Triggers and the order of states *)

Lemma triggers_of_app l1 l2 :
  triggers_of (l1 ++ l2) = triggers_of l1 ++ triggers_of l2.
Proof. unfold triggers_of. rewrite map_app, concat_app. reflexivity. Qed.

Lemma triggers_of_length l :
  length (triggers_of l)
  = (length (filter (fun s => s = s_popped) l)
     + length (filter (fun s => s = s_cashed) l))%nat.
Proof.
  induction l as [|s l IH]; [reflexivity|].
  change (triggers_of (s :: l)) with (trigger_of s ++ triggers_of l).
  rewrite length_app, IH, !filter_cons.
  destruct s; simpl; lia.
Qed.

Lemma path_ok_snoc l a b :
  path_ok l = true -> last l = Some a -> edge a b = true ->
  path_ok (l ++ [b]) = true.
Proof.
  induction l as [|x l IH]; intros Hp Hl He; [discriminate|].
  destruct l as [|y l].
  - injection Hl as ->. simpl. rewrite He. reflexivity.
  - simpl in Hp. apply andb_prop in Hp as [Hxy Hp].
    change (path_ok ((x :: y :: l) ++ [b]))
      with (edge x y && path_ok ((y :: l) ++ [b])).
    rewrite Hxy. simpl. apply IH; assumption.
Qed.

Lemma changeState_edge e n c c' :
  inv n c -> Control.changeState e c = Ret c' ->
  edge (state_name c) (state_name c') = true.
Proof.
  intros Hinv H. apply changeState_next in H.
  destruct c as [d s dn w]. destruct Hinv as (N1 & N2 & N3 & Hs).
  unfold state in H. simpl in *.
  destruct s.
  - rewrite N1 in H. injection H as <-. reflexivity.
  - rewrite N2 in H. injection H as <-. reflexivity.
  - destruct Hs as (_ & [Hn|Hn] & _); rewrite Hn in H; injection H as <-; reflexivity.
  - destruct Hs as ((a & _ & _ & _ & _ & Hn) & _).
    destruct (a12_num_rounds_left a =? 0).
    + rewrite Hn in H. injection H as <-. reflexivity.
    + destruct Hn as [Hn _]. rewrite Hn in H. injection H as <-. reflexivity.
  - destruct Hs as ((a & _ & _ & _ & _ & Hn) & _).
    destruct (a12_num_rounds_left a =? 0).
    + rewrite Hn in H. injection H as <-. reflexivity.
    + destruct Hn as [_ Hn]. rewrite Hn in H. injection H as <-. reflexivity.
  - rewrite N3 in H. discriminate.
Qed.

(** X1. The socket has received exactly one trigger per finished round, in
    order: code 9 for every entry into Popped and code 7 for every entry
    into Cashed, and nothing else; so there are as many triggers as rows. *)
Theorem triggers_follow_rounds (e : env) (uid : string) (n : Z) (active : bool)
    (c : control) :
  1 <= n -> reachable e uid n active c ->
  socket_sent (c_world c) = triggers_of (entered (c_world c))
  /\ length (socket_sent (c_world c)) = length (csv_rows (c_world c)).
Proof.
  intros Hn Hr.
  assert (Hsent : socket_sent (c_world c) = triggers_of (entered (c_world c))).
  { induction Hr as [c H | c ev c' _ IH H | c c' _ IH H].
    - injection H as <-. reflexivity.
    - apply handle_event_world in H as (_ & H & _).
      pose proof (getEvent_sent _ _ _ _ _ _ _ H) as Hs.
      apply getEvent_same_files in H as (_ & _ & _ & _ & _ & _ & He).
      rewrite Hs, He. exact IH.
    - apply update_world in H as [(_ & ->) | (_ & _ & c1 & H & _ & ->)]; [exact IH|].
      apply changeState_world in H as (-> & ->).
      rewrite triggers_of_app, IH. unfold triggers_of. simpl.
      rewrite app_nil_r. reflexivity. }
  split; [exact Hsent|].
  rewrite Hsent, triggers_of_length.
  apply inv_reachable in Hr; [|assumption].
  destruct c as [d s dn w]. destruct Hr as (_ & _ & _ & Hs). simpl in *.
  fold (count_entered s_popped w). fold (count_entered s_cashed w).
  destruct s.
  - destruct Hs as (_ & _ & _ & _ & _ & _ & (_ & P2 & P3) & _). lia.
  - destruct Hs as (_ & _ & (_ & P2 & P3) & _). lia.
  - destruct Hs as ((a & _ & _ & _ & _ & (_ & P2 & P3)) & _). lia.
  - destruct Hs as ((a & _ & _ & _ & (_ & P2 & P3) & _) & _). lia.
  - destruct Hs as ((a & _ & _ & _ & (_ & P2 & P3) & _) & _). lia.
  - destruct Hs as (_ & _ & _ & _ & _ & (_ & P2 & P3)). lia.
Qed.

Lemma triggers_follow_rounds_witness :
  exists c,
    main sample_env "0001" 1 true frames_cash_in = Ret c
    /\ socket_sent (c_world c) = triggers_of (entered (c_world c))
    /\ length (socket_sent (c_world c)) = length (csv_rows (c_world c)).
Proof.
  eexists. split; [vm_compute; reflexivity|].
  match goal with
  | |- context [c_world ?c] =>
      exact (triggers_follow_rounds sample_env "0001" 1 true c ltac:(lia)
               (main_reachable sample_env "0001" 1 true frames_cash_in c
                  ltac:(vm_compute; reflexivity)))
  end.
Defined.

(** X2. The states of a session are entered along the transitions Start ->
    Setup -> Play -> Popped or Cashed -> Play or Exit and along no other:
    the list of states entered begins with Start, every consecutive pair is
    one of these transitions, and its last element is the current state. *)
Theorem session_follows_transitions (e : env) (uid : string) (n : Z) (active : bool)
    (c : control) :
  1 <= n -> reachable e uid n active c ->
  head (entered (c_world c)) = Some s_start
  /\ path_ok (entered (c_world c)) = true
  /\ last (entered (c_world c)) = Some (state_name c).
Proof.
  intros Hn Hr. induction Hr as [c H | c ev c' Hr IH H | c c' Hr IH H].
  - injection H as <-. repeat split.
  - apply handle_event_world in H as (Hs & H & _).
    apply getEvent_same_files in H as (_ & _ & _ & _ & _ & _ & He).
    rewrite He, Hs. exact IH.
  - apply inv_reachable in Hr; [|assumption].
    apply update_world in H as [(-> & ->) | (_ & _ & c1 & H & -> & ->)]; [exact IH|].
    pose proof (changeState_edge _ _ _ _ Hr H) as Hedge.
    apply changeState_world in H as (-> & _).
    destruct IH as (Hh & Hp & Hl).
    split; [|split].
    + destruct (entered (c_world c)); [discriminate | exact Hh].
    + eapply path_ok_snoc; eassumption.
    + apply last_snoc.
Qed.

Lemma session_follows_transitions_witness :
  exists c,
    main sample_env "0001" 1 true frames_cash_in = Ret c
    /\ entered (c_world c) = [s_start; s_setup; s_play; s_cashed; s_exit]
    /\ path_ok (entered (c_world c)) = true.
Proof.
  eexists. split; [vm_compute; reflexivity|]. split; [reflexivity|].
  match goal with
  | |- context [c_world ?c] =>
      exact (proj1 (proj2 (session_follows_transitions sample_env "0001" 1 true c
               ltac:(lia)
               (main_reachable sample_env "0001" 1 true frames_cash_in c
                  ltac:(vm_compute; reflexivity)))))
  end.
Defined.

(** ** The events of Play, case by case *)

Lemma Play_getEvent_cases e ev o w o' w' a :
  attributes o = PlayAttrs a ->
  Play.getEvent e ev o w = Ret (o', w') ->
  (o' = o /\ w' = w)
  \/ (ev = KEYDOWN K_RIGHT
      /\ exists pos',
           shouldPop (rand e) (probs a) (risk a) (balloon_size a) (rng_pos w)
           = Ret (false, pos')
           /\ o' = set_attributes (PlayAttrs (Play.pump (Play.set_popped false a))) o
           /\ w' = set_rng_pos pos' w)
  \/ (ev = KEYDOWN K_RIGHT
      /\ exists pos',
           shouldPop (rand e) (probs a) (risk a) (balloon_size a) (rng_pos w)
           = Ret (true, pos')
           /\ o' = set_done true
                     (set_next (Some s_popped)
                        (set_attributes (PlayAttrs (Play.set_popped true a)) o))
           /\ w' = set_rng_pos pos' w)
  \/ (ev = KEYDOWN K_LEFT
      /\ o' = set_done true
                (set_next (Some s_cashed) (set_attributes (PlayAttrs (Play.cash a)) o))
      /\ w' = w).
Proof.
  intros Hattr H.
  destruct ev as [| |k|]; simpl in H; try (injection H as <- <-; auto).
  destruct k; simpl in H; try (injection H as <- <-; auto); rewrite Hattr in H.
  - inv_bind H. destruct a0 as [pop pos']. destruct pop; simpl in H;
      injection H as <- <-.
    + right. right. left. eauto 10.
    + right. left. eauto 10.
  - injection H as <- <-. right. right. right. auto.
Qed.

Lemma ascending_app_l lo l1 l2 : ascending lo (l1 ++ l2) -> ascending lo l1.
Proof.
  revert lo. induction l1 as [|x l1 IH]; intros lo H; simpl in *; [exact I|].
  destruct H as [H1 H2]. split; [exact H1 | eapply IH, H2].
Qed.

Lemma ascending_last_mono lo l x y :
  ascending lo (l ++ [x]) -> x <= y -> ascending lo (l ++ [y]).
Proof.
  revert lo. induction l as [|z l IH]; intros lo H Hxy; simpl in *.
  - destruct H as [H _]. split; [lia | exact I].
  - destruct H as [H1 H2]. split; [exact H1 | apply IH; assumption].
Qed.

Lemma ascending_dup_last lo l x :
  ascending lo (l ++ [x]) -> ascending lo ((l ++ [x]) ++ [x]).
Proof.
  revert lo. induction l as [|z l IH]; intros lo H; simpl in *.
  - destruct H as [H _]. repeat split; lia.
  - destruct H as [H1 H2]. split; [exact H1 | apply IH; assumption].
Qed.

(** ** Entering and leaving a state, read backwards *)

Lemma cleanup_flags s o o1 :
  cleanup s o = Ret o1 ->
  next o1 = next o /\ done o1 = done o /\ quit o1 = quit o.
Proof.
  destruct s; simpl;
    unfold Start.cleanup, Setup.cleanup, Play.cleanup, EndRound.cleanup;
    try (destruct (attributes o); try discriminate);
    intros [= <-]; auto.
Qed.

Lemma Setup_enter_Ret e o a w o' w' :
  Setup.enter e o (Args3 a) w = Ret (o', w') ->
  exists T schedule pos',
    Util.extractProb (prob_file e) = Ret T
    /\ Util.populateRisks (fuel e) (rand e) (a3_num_rounds a) (rng_pos w)
       = Ret (schedule, pos')
    /\ o' = set_attributes
              (SetupAttrs {| a9_user_ID := a3_user_ID a; a9_socket := h_socket;
                             a9_csv_file := h_csv_file;
                             a9_csv_writer := Util.fieldnames true;
                             a9_probs := T; a9_num_rounds := a3_num_rounds a;
                             a9_overall_total := 0; a9_round_risks := schedule;
                             a9_active_response := a3_active_response a |}) o
    /\ csv_rows w' = [].
Proof.
  unfold Setup.enter. simpl. intros H.
  inv_bind H. rename a0 into T. inv_bind H. destruct a0 as [schedule pos'].
  injection H as <- <-. exists T, schedule, pos'. auto.
Qed.

Lemma Play_enter_Ret o a w o' w' :
  Play.enter o (Args9 a) w = Ret (o', w') ->
  w' = w
  /\ exists r,
       getitem (a9_round_risks a)
         (Z.of_nat (length (a9_round_risks a)) - a9_num_rounds a) = Ret r
       /\ o' = set_next (Some s_popped)
                 (set_attributes
                    (PlayAttrs {| user_ID := a9_user_ID a; socket := a9_socket a;
                                  csv_file := a9_csv_file a;
                                  csv_writer := a9_csv_writer a;
                                  probs := a9_probs a;
                                  num_rounds_left := a9_num_rounds a;
                                  overall_total := a9_overall_total a;
                                  round_risks := a9_round_risks a;
                                  active_response := a9_active_response a;
                                  round_total := 0; popped := false; cashed := false;
                                  balloon_size := 0; risk := r |}) o).
Proof.
  unfold Play.enter. simpl. intros H. inv_bind H. injection H as <- <-.
  split; [reflexivity|]. exists a0. auto.
Qed.

Lemma enter_flags e s o args w o' w' :
  enter e s o args w = Ret (o', w') -> done o' = done o /\ quit o' = quit o.
Proof.
  destruct s; simpl.
  - unfold Start.enter. intros H. inv_bind H. injection H as <- _. auto.
  - unfold Setup.enter. intros H. inv_bind H. simpl in H. inv_bind H. inv_bind H.
    destruct a1 as [sched pos']. injection H as <- _. auto.
  - unfold Play.enter. intros H. inv_bind H. inv_bind H. injection H as <- _. auto.
  - unfold Popped.enter, EndRound.enter. intros H. inv_bind H.
    destruct a as [o1 w1]. inv_bind H. injection H as <- _. inv_bind Hm.
    rename a0 into aa.
    destruct (a12_num_rounds_left aa =? 0); injection Hm as <- _; auto.
  - unfold Cashed.enter, EndRound.enter. intros H. inv_bind H.
    destruct a as [o1 w1]. inv_bind H. injection H as <- _. inv_bind Hm.
    rename a0 into aa.
    destruct (a12_num_rounds_left aa =? 0); injection Hm as <- _; auto.
  - unfold Exit.enter. intros H. inv_bind H. destruct a as [[sock file] writer].
    injection H as <- _. auto.
Qed.

Lemma changeState_flags e c c' :
  Control.changeState e c = Ret c' -> state_name c' <> state_name c ->
  forall x,
    quit (state_dict c' x) = quit (state_dict c x)
    /\ done (state_dict c' x)
       = (if decide (x = state_name c) then false else done (state_dict c x)).
Proof.
  intros H Hne x.
  apply changeState_steps in H
    as (args & w1 & o1 & n & w2 & _ & Hcl & _ & Hen & Hd & _ & _).
  apply cleanup_flags in Hcl as (_ & Hd1 & Hq1). simpl in Hd1, Hq1.
  apply enter_flags in Hen as (Hd2 & Hq2).
  rewrite dict_upd_ne in Hd2, Hq2 by exact Hne.
  rewrite Hd. unfold dict_upd.
  destruct (decide (x = state_name c')) as [->|Hx].
  - simpl. rewrite decide_False by exact Hne. auto.
  - destruct (decide (x = state_name c)) as [->|Hx'].
    + unfold state in Hq1. auto.
    + auto.
Qed.

(** ** The five transitions *)

Lemma state_after_changeState c c' o1 n :
  state_dict c'
  = dict_upd (dict_upd (state_dict c) (state_name c) o1) (state_name c')
      (set_previous (Some (state_name c)) n) ->
  attributes (state c') = attributes n /\ next (state c') = next n.
Proof. intros H. unfold state. rewrite H, dict_upd_eq. auto. Qed.

Lemma changeState_from_start e n c c' :
  inv n c -> state_name c = s_start -> Control.changeState e c = Ret c' ->
  state_name c' = s_setup
  /\ exists T a9 pos',
       Util.extractProb (prob_file e) = Ret T
       /\ Util.populateRisks (fuel e) (rand e) n (rng_pos (c_world c))
          = Ret (a9_round_risks a9, pos')
       /\ attributes (state c') = SetupAttrs a9
       /\ a9_probs a9 = T /\ a9_overall_total a9 = 0
       /\ csv_rows (c_world c') = [].
Proof.
  intros (N1 & _ & _ & Hs) Hst H. rewrite Hst in Hs.
  destruct Hs as ((a & Hattr & Hnum) & _).
  apply changeState_steps in H
    as (args & w1 & o1 & o2 & w2 & Hex & _ & Hnx & Hen & Hd & _ & Hw).
  unfold state in Hnx. rewrite Hst, N1 in Hnx. injection Hnx as Hs'.
  rewrite Hst in Hex. simpl in Hex. unfold Start.exit, state in Hex.
  rewrite Hst in Hex. simpl in Hex. rewrite Hattr in Hex. injection Hex as <- <-.
  rewrite <- Hs' in Hen. simpl in Hen.
  apply Setup_enter_Ret in Hen as (T & sched & pos' & HT & Hp & -> & Hrows).
  apply state_after_changeState in Hd as (Ha & _). simpl in Ha.
  split; [auto|]. eexists T, _, pos'.
  split; [exact HT|]. split; [|split; [exact Ha|]].
  - simpl. rewrite <- Hnum. exact Hp.
  - simpl. rewrite Hw. simpl. auto.
Qed.

Lemma changeState_from_setup e n c c' :
  inv n c -> state_name c = s_setup -> Control.changeState e c = Ret c' ->
  state_name c' = s_play
  /\ exists a r,
       attributes (state c) = SetupAttrs a
       /\ getitem (a9_round_risks a)
            (Z.of_nat (length (a9_round_risks a)) - a9_num_rounds a) = Ret r
       /\ attributes (state c') = PlayAttrs (fresh_round a r)
       /\ csv_rows (c_world c') = csv_rows (c_world c).
Proof.
  intros (_ & N2 & _ & Hs) Hst H. rewrite Hst in Hs.
  destruct Hs as ((a & Hattr & _) & _).
  apply changeState_steps in H
    as (args & w1 & o1 & o2 & w2 & Hex & _ & Hnx & Hen & Hd & _ & Hw).
  unfold state in Hnx. rewrite Hst, N2 in Hnx. injection Hnx as Hs'.
  rewrite Hst in Hex. simpl in Hex. unfold Setup.exit, state in Hex.
  rewrite Hst in Hex. simpl in Hex. rewrite Hattr in Hex. injection Hex as <- <-.
  rewrite <- Hs' in Hen. simpl in Hen.
  apply Play_enter_Ret in Hen as (-> & r & Hr & ->).
  apply state_after_changeState in Hd as (Ha & _). simpl in Ha.
  split; [auto|]. exists a, r. unfold state. rewrite Hst.
  split; [exact Hattr|]. split; [exact Hr|]. split; [exact Ha|].
  rewrite Hw. reflexivity.
Qed.

Lemma changeState_from_play e n c c' :
  inv n c -> state_name c = s_play -> Control.changeState e c = Ret c' ->
  (state_name c' = s_popped \/ state_name c' = s_cashed)
  /\ exists a,
       attributes (state c) = PlayAttrs a
       /\ attributes (state c') = EndAttrs (exit_payload a)
       /\ csv_rows (c_world c') = csv_rows (c_world c) ++ [row_values a].
Proof.
  intros (_ & _ & _ & Hs) Hst H. rewrite Hst in Hs.
  destruct Hs as ((a & Hattr & Hc & _) & Hnx0 & Hw0 & _).
  destruct Hc as (Hsock & _ & Hwriter & _).
  destruct Hw0 as (_ & W2 & _ & W4 & _).
  destruct c as [d s dn w]. simpl in *. subst s.
  pose proof (changeState_play e d dn w a c' Hattr Hnx0 Hsock Hwriter W2 W4 H)
    as (Hnext & _ & Hrows & _).
  apply changeState_steps in H
    as (args & w1 & o1 & o2 & w2 & Hex & _ & _ & Hen & Hd & _ & _).
  simpl in Hex, Hen, Hd. unfold Play.exit, state in Hex. simpl in Hex.
  rewrite Hattr in Hex.
  inv_bind Hex. injection Hex as <- <-.
  apply (state_after_changeState
           {| state_dict := d; state_name := s_play; c_done := dn; c_world := w |})
    in Hd as (Ha & _).
  assert (Hs' : state_name c' = s_popped \/ state_name c' = s_cashed).
  { destruct Hnx0 as [Hn|Hn]; rewrite Hn in Hnext; injection Hnext as <-; auto. }
  split; [exact Hs'|]. exists a. split; [exact Hattr|]. split.
  - rewrite Ha.
    destruct Hs' as [Hs'|Hs']; rewrite Hs' in Hen; simpl in Hen;
      unfold Popped.enter, Cashed.enter in Hen; inv_bind Hen;
      destruct a1 as [o3 w3]; inv_bind Hen; injection Hen as <- _;
      apply EndRound_enter_attrs in Hm0 as (_ & b & Hb & ->);
      injection Hb as <-; reflexivity.
  - rewrite Hrows, Play_row_values. reflexivity.
Qed.

Lemma changeState_from_end e n c c' :
  inv n c -> state_name c = s_popped \/ state_name c = s_cashed ->
  Control.changeState e c = Ret c' ->
  exists a,
    attributes (state c) = EndAttrs a
    /\ csv_rows (c_world c') = csv_rows (c_world c)
    /\ ((a12_num_rounds_left a = 0 /\ state_name c' = s_exit)
        \/ (a12_num_rounds_left a <> 0 /\ state_name c' = s_play
            /\ exists r,
                 getitem (a12_round_risks a)
                   (Z.of_nat (length (a12_round_risks a)) - a12_num_rounds_left a)
                 = Ret r
                 /\ attributes (state c') = PlayAttrs (fresh_round (end_payload a) r))).
Proof.
  intros (_ & _ & _ & Hs) Hst H.
  assert (Hend : inv_end n (state_name c) (state_dict c) (c_world c))
    by (destruct Hst as [Hst|Hst]; rewrite Hst in *; exact Hs).
  destruct Hend as ((a & Hattr & _ & _ & _ & Hnx0) & _).
  apply changeState_steps in H
    as (args & w1 & o1 & o2 & w2 & Hex & _ & Hnx & Hen & Hd & _ & Hw).
  assert (Hexit : EndRound.exit (set_done false (state c)) (c_world c) = Ret (args, w1))
    by (destruct Hst as [Hst|Hst]; rewrite Hst in Hex; exact Hex).
  unfold EndRound.exit, state in Hexit. simpl in Hexit. rewrite Hattr in Hexit.
  injection Hexit as <- <-.
  apply state_after_changeState in Hd as (Ha & _).
  exists a. split; [exact Hattr|].
  destruct (Z.eqb_spec (a12_num_rounds_left a) 0) as [Hz|Hz].
  - unfold state in Hnx. rewrite Hnx0 in Hnx. injection Hnx as Hs'.
    rewrite <- Hs' in Hen. simpl in Hen. unfold Exit.enter in Hen. simpl in Hen.
    injection Hen as _ <-. rewrite Hw. simpl.
    split; [destruct (a12_socket a), (a12_csv_file a); reflexivity|].
    left. auto.
  - assert (Hs' : state_name c' = s_play).
    { unfold state in Hnx. destruct Hnx0 as [E1 E2].
      destruct Hst as [Hst|Hst]; rewrite Hst in Hnx;
        [rewrite E1 in Hnx | rewrite E2 in Hnx]; injection Hnx as <-; reflexivity. }
    rewrite Hs' in Hen. simpl in Hen.
    apply Play_enter_Ret in Hen as (-> & r & Hr & ->).
    rewrite Hw. simpl. split; [reflexivity|]. right.
    split; [exact Hz|]. split; [exact Hs'|]. exists r. split; [exact Hr|].
    rewrite Ha. reflexivity.
Qed.

Lemma changeState_from_exit e n c c' :
  inv n c -> state_name c = s_exit -> Control.changeState e c = Ret c' -> False.
Proof.
  intros (_ & _ & N3 & _) Hst H. apply changeState_next in H.
  unfold state in H. rewrite Hst, N3 in H. discriminate.
Qed.

(** ** The second invariant holds in every reachable state *)

Lemma log_ok_rows n schedule k total w w' :
  csv_rows w' = csv_rows w -> log_ok n schedule k total w ->
  log_ok n schedule k total w'.
Proof. unfold log_ok. intros ->. auto. Qed.

Lemma edge_irrefl s : edge s s = false.
Proof. destruct s; reflexivity. Qed.

Lemma inv2_handle_event e ev T n c c' :
  inv n c -> inv2 T n c -> Control.handle_event e ev c = Ret c' -> inv2 T n c'.
Proof.
  intros Hinv (Hdone & Hs) H.
  apply handle_event_world in H as (Hst & Hev & Hother & _).
  assert (Hsc : state c' = state_dict c' (state_name c))
    by (unfold state; rewrite Hst; reflexivity).
  unfold inv2, inv2_state in *. rewrite Hst. split.
  - destruct (decide (s_exit = state_name c)) as [Hx|Hx].
    + rewrite <- Hx in Hev, Hsc. simpl in Hev. injection Hev as Ho _.
      rewrite <- Hsc, <- Ho. unfold state. rewrite <- Hx.
      destruct ev as [| |[]|]; exact Hdone.
    + rewrite Hother by exact Hx. exact Hdone.
  - remember (state c') as o' eqn:Ho'. remember (c_world c') as w' eqn:Hw'.
    clear Ho' Hw' Hsc.
    destruct (state_name c) eqn:Hname; simpl in Hev.
    + exact I.
    + injection Hev as <- <-. exact Hs.
    + destruct Hs as (a & Hattr & HT & Hlog & Hrt & Hrisk).
      destruct Hinv as (_ & _ & _ & Hp). rewrite Hname in Hp.
      destruct Hp as ((a0 & Hattr0 & _ & _ & (r & _ & Hb) & _) & _).
      unfold state in Hattr. rewrite Hname in Hattr.
      rewrite Hattr in Hattr0. injection Hattr0 as <-.
      unfold state in Hev. rewrite Hname in Hev.
      destruct (Play_getEvent_cases _ _ _ _ _ _ a Hattr Hev)
        as [(Ho & Hw) | [(_ & pos' & _ & Ho & Hw) | [(_ & pos' & _ & Ho & Hw)
           | (_ & Ho & Hw)]]]; rewrite Ho, Hw.
      * exists a. auto.
      * eexists. split; [reflexivity|]. simpl.
        split; [exact HT|]. split; [exact Hlog|]. split; [lia | exact Hrisk].
      * eexists. split; [reflexivity|]. simpl. auto.
      * eexists. split; [reflexivity|]. simpl.
        split; [exact HT|]. split; [|auto].
        destruct Hlog as (Hbal & Hcol & Hasc). split; [exact Hbal|].
        split; [exact Hcol|]. eapply ascending_last_mono; [exact Hasc | lia].
    + injection Hev as <- <-. destruct Hs as (a & Hattr & Hrest).
      exists a. split; [|exact Hrest].
      destruct (EndRound_getEvent_same ev (state c)) as [_ Ha].
      rewrite Ha. exact Hattr.
    + injection Hev as <- <-. destruct Hs as (a & Hattr & Hrest).
      exists a. split; [|exact Hrest].
      destruct (EndRound_getEvent_same ev (state c)) as [_ Ha].
      rewrite Ha. exact Hattr.
    + injection Hev as _ <-. exact Hs.
Qed.

Lemma getitem_schedule (schedule : list (option tier)) (n left : Z) (r : option tier) :
  Z.of_nat (length schedule) = n -> 0 <= n - left ->
  getitem schedule (Z.of_nat (length schedule) - left) = Ret r ->
  schedule !! Z.to_nat (n - left) = Some r.
Proof.
  intros Hlen Hpos H. rewrite Hlen in H. apply getitem_nonneg in H; assumption.
Qed.

Lemma inv2_changeState_end e n c c' :
  1 <= n -> inv n c -> state_name c = s_popped \/ state_name c = s_cashed ->
  inv2_state (loaded_table e) n c ->
  Control.changeState e c = Ret c' -> inv2_state (loaded_table e) n c'.
Proof.
  intros Hn Hinv Hst Hs H.
  assert (Hend : inv_end n (state_name c) (state_dict c) (c_world c)).
  { destruct Hinv as (_ & _ & _ & Hp). destruct Hst as [Hst|Hst]; rewrite Hst in *; exact Hp. }
  destruct Hend as ((a0 & Hattr0 & _ & Hleft & _) & _).
  assert (Hs2 : exists a, attributes (state c) = EndAttrs a
             /\ a12_probs a = loaded_table e
             /\ log_ok n (a12_round_risks a) (n - a12_num_rounds_left a)
                  (a12_overall_total a) (c_world c)).
  { unfold inv2_state in Hs. destruct Hst as [Hst|Hst]; rewrite Hst in Hs; exact Hs. }
  destruct Hs2 as (a1 & Hattr1 & HT & Hlog).
  apply (changeState_from_end e n) in H; [|exact Hinv|exact Hst].
  destruct H as (a & Hattr & Hrows & Hcase).
  rewrite Hattr in Hattr1. injection Hattr1 as <-.
  unfold state in Hattr. rewrite Hattr0 in Hattr. injection Hattr as ->.
  unfold inv2_state.
  destruct Hcase as [(Hz & ->) | (Hz & -> & r & Hr & Ha)].
  - exists (a12_round_risks a), (a12_overall_total a).
    rewrite Hz in Hlog. replace (n - 0) with n in Hlog by lia.
    eapply log_ok_rows; eassumption.
  - exists (fresh_round (end_payload a) r). split; [exact Ha|]. simpl.
    split; [exact HT|]. pose proof Hlog as ((Hlen & _) & _).
    split; [eapply log_ok_rows; eassumption|]. split; [reflexivity|].
    eapply getitem_schedule; [exact Hlen | lia | exact Hr].
Qed.

Lemma inv2_changeState e n c c' :
  1 <= n -> inv n c -> inv2 (loaded_table e) n c ->
  Control.changeState e c = Ret c' -> inv2 (loaded_table e) n c'.
Proof.
  intros Hn Hinv (Hdone & Hs) H.
  pose proof (changeState_edge _ _ _ _ Hinv H) as Hedge.
  assert (Hne : state_name c' <> state_name c).
  { intros Heq. rewrite Heq, edge_irrefl in Hedge. discriminate. }
  split.
  - destruct (changeState_flags _ _ _ H Hne s_exit) as [_ Hd]. rewrite Hd.
    destruct (decide (s_exit = state_name c)); [reflexivity | exact Hdone].
  - pose proof Hs as Hs0. unfold inv2_state in Hs |- *.
    destruct (state_name c) eqn:Hname.
    + (* Start -> Setup *)
      apply (changeState_from_start e n) in H; [|exact Hinv|exact Hname].
      destruct H as (-> & T & a9 & pos' & HT & Hp & Ha & HaT & Htot & Hrows).
      exists a9. split; [exact Ha|]. split.
      * unfold loaded_table. rewrite HT. exact HaT.
      * apply populateRisks_Ret in Hp; [|exact Hn].
        unfold log_ok. rewrite Hrows, Htot. simpl.
        split; [exact Hp|]. split; [reflexivity|]. split; [lia | exact I].
    + (* Setup -> Play *)
      pose proof Hinv as (_ & _ & _ & Hp). rewrite Hname in Hp.
      destruct Hp as ((a0 & Hattr0 & _ & Hnum) & _).
      apply (changeState_from_setup e n) in H; [|exact Hinv|exact Hname].
      destruct H as (-> & a & r & Hattr & Hr & Ha & Hrows).
      destruct Hs as (a1 & Hattr1 & HT & Hlog).
      rewrite Hattr in Hattr1. injection Hattr1 as <-.
      unfold state in Hattr. rewrite Hname, Hattr0 in Hattr. injection Hattr as ->.
      exists (fresh_round a r). split; [exact Ha|]. simpl.
      split; [exact HT|]. rewrite Hnum.
      pose proof Hlog as ((Hlen & _) & _).
      split; [|split; [reflexivity|]].
      * replace (n - n) with 0 by lia. eapply log_ok_rows; eassumption.
      * eapply getitem_schedule; [exact Hlen | lia |]. rewrite <- Hnum. exact Hr.
    + (* Play -> Popped or Cashed *)
      pose proof Hinv as (_ & _ & _ & Hp). rewrite Hname in Hp.
      destruct Hp as ((a0 & Hattr0 & _ & Hleft & _) & _).
      apply (changeState_from_play e n) in H; [|exact Hinv|exact Hname].
      destruct H as (Hs' & a & Hattr & Ha & Hrows).
      destruct Hs as (a1 & Hattr1 & HT & Hlog & Hrt & Hrisk).
      rewrite Hattr in Hattr1. injection Hattr1 as <-.
      unfold state in Hattr. rewrite Hname, Hattr0 in Hattr. injection Hattr as ->.
      assert (Hend : exists b, attributes (state c') = EndAttrs b
                /\ a12_probs b = loaded_table e
                /\ log_ok n (a12_round_risks b) (n - a12_num_rounds_left b)
                     (a12_overall_total b) (c_world c')).
      { exists (exit_payload a). split; [exact Ha|]. simpl. split; [exact HT|].
        destruct Hlog as (Hbal & Hcol & Hasc). unfold log_ok. rewrite Hrows.
        split; [exact Hbal|]. rewrite !map_app. simpl. split.
        - replace (Z.to_nat (n - (num_rounds_left a - 1)))
            with (S (Z.to_nat (n - num_rounds_left a))) by lia.
          rewrite (take_S_r _ _ _ Hrisk), map_app, Hcol. reflexivity.
        - unfold row_int. simpl. apply ascending_dup_last. exact Hasc. }
      destruct Hs' as [-> | ->]; exact Hend.
    + (* Popped -> Play or Exit *)
      apply (inv2_changeState_end e n c c'); auto.
    + (* Cashed -> Play or Exit *)
      apply (inv2_changeState_end e n c c'); auto.
    + exfalso. eapply changeState_from_exit; eassumption.
Qed.

Lemma inv2_ext T n c1 c' :
  state_name c' = state_name c1 -> c_world c' = c_world c1 ->
  (forall x, attributes (state_dict c' x) = attributes (state_dict c1 x)) ->
  done (state_dict c' s_exit) = done (state_dict c1 s_exit) ->
  inv2 T n c1 -> inv2 T n c'.
Proof.
  intros Hs Hw Ha Hd (Hdone & Hst). split; [rewrite Hd; exact Hdone|].
  unfold inv2_state, state in *. rewrite Hs, Hw, Ha. exact Hst.
Qed.

Lemma inv2_update e n c c' :
  1 <= n -> inv n c -> inv2 (loaded_table e) n c ->
  Control.update e c = Ret c' -> inv2 (loaded_table e) n c'.
Proof.
  intros Hn Hinv H2 H.
  apply update_steps in H as (c1 & Hc1 & Hs & Hw & _ & Hobj).
  assert (H1 : inv2 (loaded_table e) n c1).
  { destruct (quit (state c)); [subst c1; exact H2|].
    destruct (done (state c)); [|subst c1; exact H2].
    eapply inv2_changeState; eassumption. }
  eapply inv2_ext; try eassumption.
  - intros x. apply Hobj.
  - destruct (Hobj s_exit) as (_ & _ & _ & _ & Hd). rewrite Hd.
    apply decide_False. intros [? _]. discriminate.
Qed.

Lemma inv2_reachable e uid n active c :
  1 <= n -> reachable e uid n active c -> inv2 (loaded_table e) n c.
Proof.
  intros Hn Hr. induction Hr as [c H | c ev c' Hr IH H | c c' Hr IH H].
  - injection H as <-. split; [reflexivity | exact I].
  - eapply inv2_handle_event; [|exact IH|exact H].
    eapply inv_reachable; eassumption.
  - eapply inv2_update; [exact Hn| |exact IH|exact H].
    eapply inv_reachable; eassumption.
Qed.

(** ** Winnings, totals and the schedule in the log *)

(** X3. In every reachable Play state the round winnings equal the pump
    count, and both stay below the length of the round's tier sequence: a
    round can win at most as many units as its line of the probability file
    has entries. *)
Theorem winnings_equal_pumps (e : env) (uid : string) (n : Z) (active : bool)
    (c : control) (a : play_attrs) :
  1 <= n -> reachable e uid n active c ->
  state_name c = s_play -> attributes (state c) = PlayAttrs a ->
  round_total a = balloon_size a
  /\ probs a = loaded_table e
  /\ exists r, risk a = Some r
       /\ 0 <= round_total a <= Z.of_nat (length (table_get (loaded_table e) r)) - 1.
Proof.
  intros Hn Hr Hs Hattr.
  pose proof (inv_reachable _ _ _ _ _ Hn Hr) as (_ & _ & _ & H1).
  pose proof (inv2_reachable _ _ _ _ _ Hn Hr) as (_ & H2).
  unfold inv2_state in H2. rewrite Hs in H1, H2.
  destruct H2 as (a2 & Hattr2 & HT & _ & Hrt & _).
  rewrite Hattr in Hattr2. injection Hattr2 as <-.
  destruct H1 as ((a1 & Hattr1 & _ & _ & (r & Hrisk & Hb) & _) & _).
  unfold state in Hattr. rewrite Hs, Hattr1 in Hattr. injection Hattr as ->.
  split; [exact Hrt|]. split; [exact HT|].
  exists r. split; [exact Hrisk|]. rewrite <- HT. lia.
Qed.

Lemma winnings_equal_pumps_witness :
  exists c a,
    main sample_env "0001" 2 true frames_one_pump = Ret c
    /\ attributes (state c) = PlayAttrs a
    /\ round_total a = 1
    /\ round_total a = balloon_size a.
Proof.
  eexists. eexists. split; [vm_compute; reflexivity|].
  match goal with
  | |- attributes (state ?c) = _ /\ _ =>
      assert (HR : reachable sample_env "0001" 2 true c)
        by (apply (main_reachable _ _ _ _ frames_one_pump); vm_compute; reflexivity);
      split; [reflexivity|]; split; [reflexivity|];
      match goal with
      | |- round_total ?a = _ =>
          exact (proj1 (winnings_equal_pumps sample_env "0001" 2 true c a ltac:(lia) HR
                          eq_refl eq_refl))
      end
  end.
Defined.

Lemma rows_at_start n c :
  inv n c -> state_name c = s_start -> csv_rows (c_world c) = [].
Proof.
  intros (_ & _ & _ & H) Hs. rewrite Hs in H.
  destruct H as (_ & _ & _ & _ & _ & _ & (_ & P2 & _) & _).
  destruct (csv_rows (c_world c)); [reflexivity | simpl in P2; lia].
Qed.

(** X4. The total_money_won column of the log never decreases from one row
    to the next and is never negative; during a round the cumulative
    winnings held by Play are at least the last total logged. *)
Theorem totals_never_decrease (e : env) (uid : string) (n : Z) (active : bool)
    (c : control) :
  1 <= n -> reachable e uid n active c ->
  ascending 0 (map (fun r => row_int r 2) (csv_rows (c_world c)))
  /\ (forall a, state_name c = s_play -> attributes (state c) = PlayAttrs a ->
        ascending 0 (map (fun r => row_int r 2) (csv_rows (c_world c))
                     ++ [overall_total a])).
Proof.
  intros Hn Hr.
  pose proof (inv_reachable _ _ _ _ _ Hn Hr) as H1.
  pose proof (inv2_reachable _ _ _ _ _ Hn Hr) as (_ & H2).
  unfold inv2_state in H2. split.
  - destruct (state_name c) eqn:Hs.
    + rewrite (rows_at_start n c H1 Hs). exact I.
    + destruct H2 as (a & _ & _ & (_ & _ & Hasc)). eapply ascending_app_l, Hasc.
    + destruct H2 as (a & _ & _ & (_ & _ & Hasc) & _). eapply ascending_app_l, Hasc.
    + destruct H2 as (a & _ & _ & (_ & _ & Hasc)). eapply ascending_app_l, Hasc.
    + destruct H2 as (a & _ & _ & (_ & _ & Hasc)). eapply ascending_app_l, Hasc.
    + destruct H2 as (s & t & (_ & _ & Hasc)). eapply ascending_app_l, Hasc.
  - intros a Hs Hattr. rewrite Hs in H2.
    destruct H2 as (a2 & Hattr2 & _ & (_ & _ & Hasc) & _).
    rewrite Hattr in Hattr2. injection Hattr2 as <-. exact Hasc.
Qed.

Lemma totals_never_decrease_witness :
  exists c,
    main sample_env "0001" 1 true frames_cash_in = Ret c
    /\ ascending 0 (map (fun r => row_int r 2) (csv_rows (c_world c))).
Proof.
  eexists. split; [vm_compute; reflexivity|].
  match goal with
  | |- context [c_world ?c] =>
      exact (proj1 (totals_never_decrease sample_env "0001" 1 true c ltac:(lia)
               (main_reachable sample_env "0001" 1 true frames_cash_in c
                  ltac:(vm_compute; reflexivity))))
  end.
Defined.

(** X5. The risk column of the log follows the schedule drawn at Setup: in
    Play the rows written so far show the first entries of the schedule, in
    order, and the round being played has the next entry as its risk; once
    Exit is reached the risk column is a whole balanced schedule of n
    rounds. *)
Theorem log_follows_schedule (e : env) (uid : string) (n : Z) (active : bool)
    (c : control) :
  1 <= n -> reachable e uid n active c ->
  (forall a, state_name c = s_play -> attributes (state c) = PlayAttrs a ->
     balanced n (round_risks a)
     /\ map row_risk (csv_rows (c_world c))
        = map risk_val (take (length (csv_rows (c_world c))) (round_risks a))
     /\ round_risks a !! length (csv_rows (c_world c)) = Some (risk a))
  /\ (state_name c = s_exit ->
        exists schedule, balanced n schedule
          /\ map row_risk (csv_rows (c_world c)) = map risk_val schedule).
Proof.
  intros Hn Hr.
  pose proof (inv_reachable _ _ _ _ _ Hn Hr) as (_ & _ & _ & H1).
  pose proof (inv2_reachable _ _ _ _ _ Hn Hr) as (_ & H2).
  unfold inv2_state in H2. split.
  - intros a Hs Hattr. rewrite Hs in H1, H2.
    destruct H2 as (a2 & Hattr2 & _ & (Hbal & Hcol & _) & _ & Hrisk).
    rewrite Hattr in Hattr2. injection Hattr2 as <-.
    destruct H1 as ((a1 & Hattr1 & _ & Hleft & _ & (_ & P2 & _)) & _).
    unfold state in Hattr. rewrite Hs, Hattr1 in Hattr. injection Hattr as ->.
    replace (length (csv_rows (c_world c))) with (Z.to_nat (n - num_rounds_left a))
      by lia.
    auto.
  - intros Hs. rewrite Hs in H2. destruct H2 as (schedule & total & Hbal & Hcol & _).
    exists schedule. split; [exact Hbal|].
    rewrite Hcol, take_ge; [reflexivity|]. destruct Hbal as (Hlen & _). lia.
Qed.

Lemma log_follows_schedule_witness :
  exists c,
    main sample_env "0001" 1 true frames_cash_in = Ret c
    /\ state_name c = s_exit
    /\ exists schedule, balanced 1 schedule
         /\ map row_risk (csv_rows (c_world c)) = map risk_val schedule.
Proof.
  eexists. split; [vm_compute; reflexivity|]. split; [reflexivity|].
  match goal with
  | |- context [c_world ?c] =>
      exact (proj2 (log_follows_schedule sample_env "0001" 1 true c ltac:(lia)
               (main_reachable sample_env "0001" 1 true frames_cash_in c
                  ltac:(vm_compute; reflexivity))) eq_refl)
  end.
Defined.

(** ** A session past Setup does not raise *)

Lemma shouldPop_Ret rand (T : table) r size pos :
  table_positive T ->
  0 <= size < Z.of_nat (length (table_get T r)) ->
  exists b, shouldPop rand T (Some r) size pos = Ret (b, S pos).
Proof.
  intros Hpos Hsize.
  destruct (lookup_lt_is_Some_2 (table_get T r) (Z.to_nat size) ltac:(lia)) as [X HX].
  assert (HX1 : 1 <= X) by (apply (Hpos r), list_elem_of_lookup; eauto).
  eexists. apply (shouldPop_draw _ _ _ _ X); [lia | exact HX | exact HX1].
Qed.

Lemma handle_event_succeeds e n c ev :
  inv n c -> inv2 (loaded_table e) n c -> table_positive (loaded_table e) ->
  exists c', Control.handle_event e ev c = Ret c'.
Proof.
  intros (_ & _ & _ & H1) (_ & H2) Hpos. unfold Control.handle_event.
  assert (Hev : exists o w,
            getEvent e (state_name c) ev (state c) (c_world c) = Ret (o, w)).
  { unfold inv2_state in H2. destruct (state_name c) eqn:Hs; simpl; eauto.
    destruct H2 as (a & Hattr & HT & _).
    destruct H1 as ((a1 & Hattr1 & _ & _ & (r & Hrisk & Hb) & _) & _).
    unfold state in Hattr. rewrite Hs, Hattr1 in Hattr. injection Hattr as ->.
    unfold state. rewrite Hs.
    destruct ev as [| |k|]; simpl; eauto.
    destruct k; simpl; eauto; rewrite Hattr1; eauto.
    rewrite Hrisk, HT.
    destruct (shouldPop_Ret (rand e) (loaded_table e) r (balloon_size a)
                (rng_pos (c_world c)) Hpos) as [b Hb'].
    { rewrite <- HT. exact Hb. }
    rewrite Hb'. simpl. destruct (negb _); eauto. }
  destruct Hev as (o & w & ->). simpl. eauto.
Qed.

Lemma Play_enter_succeeds n o a w :
  carried n (a9_socket a) (a9_csv_file a) (a9_csv_writer a) (a9_probs a)
    (a9_round_risks a) ->
  1 <= a9_num_rounds a <= n ->
  exists o', Play.enter o (Args9 a) w = Ret (o', w).
Proof.
  intros (_ & _ & _ & _ & Hlen & Hfull) Hk. unfold Play.enter. simpl.
  destruct (Hfull (Z.to_nat (Z.of_nat (length (a9_round_risks a)) - a9_num_rounds a))
              ltac:(lia)) as [r Hr].
  rewrite (getitem_lookup _ _ (Some r)) by (lia || exact Hr). simpl. eauto.
Qed.

Lemma changeState_succeeds e n c :
  1 <= n -> peer_listens e -> inv n c ->
  state_name c <> s_start -> state_name c <> s_exit ->
  exists c', Control.changeState e c = Ret c'.
Proof.
  intros Hn Hpeer (N1 & N2 & N3 & Hs) Hns Hne.
  destruct c as [d s dn w]. unfold Control.changeState, state. simpl in *.
  destruct s; try contradiction.
  - (* Setup *)
    destruct Hs as ((a & Hattr & Hc & Hnum) & _).
    simpl. unfold Setup.exit, Setup.cleanup. simpl. rewrite Hattr, N2. simpl.
    rewrite dict_upd_ne by discriminate.
    destruct (Play_enter_succeeds n (d s_play) a w Hc ltac:(lia)) as [o' ->].
    simpl. eauto.
  - (* Play *)
    destruct Hs as ((a & Hattr & Hc & _) & Hnx & Hw & _).
    destruct Hc as (Hsock & _ & Hwriter & _).
    destruct Hw as (_ & W2 & _ & W4 & _).
    destruct (writerow_multi (Play.row a) w W4 ltac:(reflexivity))
      as (w1 & Hrow & _ & _ & _ & R4 & _).
    simpl. unfold Play.exit, Play.cleanup. simpl. rewrite Hattr, Hwriter, Hrow. simpl.
    destruct Hnx as [-> | ->]; rewrite dict_upd_ne by discriminate; simpl;
      unfold Popped.enter, Cashed.enter, EndRound.enter; simpl;
      unfold EndRound.trigger, sendall;
      destruct (num_rounds_left a - 1 =? 0); simpl; rewrite Hsock, R4, W2; simpl;
      rewrite Hpeer; simpl; eauto.
  - (* Popped *)
    destruct Hs as ((a & Hattr & Hc & Hleft & _ & Hnx) & _).
    simpl. unfold EndRound.exit, EndRound.cleanup. simpl. rewrite Hattr. simpl.
    destruct (Z.eqb_spec (a12_num_rounds_left a) 0) as [Hz|Hz].
    + rewrite Hnx. rewrite dict_upd_ne by discriminate. simpl. eauto.
    + destruct Hnx as [-> _]. rewrite dict_upd_ne by discriminate. simpl.
      destruct (Play_enter_succeeds n (d s_play) (end_payload a) w Hc
                  ltac:(simpl; lia)) as [o' Ho'].
      unfold end_payload in Ho'. rewrite Ho'. simpl. eauto.
  - (* Cashed *)
    destruct Hs as ((a & Hattr & Hc & Hleft & _ & Hnx) & _).
    simpl. unfold EndRound.exit, EndRound.cleanup. simpl. rewrite Hattr. simpl.
    destruct (Z.eqb_spec (a12_num_rounds_left a) 0) as [Hz|Hz].
    + rewrite Hnx. rewrite dict_upd_ne by discriminate. simpl. eauto.
    + destruct Hnx as [_ ->]. rewrite dict_upd_ne by discriminate. simpl.
      destruct (Play_enter_succeeds n (d s_play) (end_payload a) w Hc
                  ltac:(simpl; lia)) as [o' Ho'].
      unfold end_payload in Ho'. rewrite Ho'. simpl. eauto.
Qed.

Lemma sized_handle_event e ev c c' :
  sized c -> Control.handle_event e ev c = Ret c' -> sized c'.
Proof.
  intros Hz H. apply handle_event_world in H as (Hst & Hev & _).
  unfold sized in *. rewrite Hst.
  destruct (state_name c); try exact I;
    simpl in Hev; injection Hev as Ho _; rewrite <- Ho;
    destruct Hz as (a & r & Hattr & Hz); exists a, r;
    (split; [|exact Hz]); destruct ev as [| |[]|]; exact Hattr.
Qed.

Lemma sized_changeState e n c c' :
  inv n c -> Control.changeState e c = Ret c' -> sized c'.
Proof.
  intros Hinv H. pose proof (changeState_edge _ _ _ _ Hinv H) as Hedge.
  unfold sized.
  destruct (state_name c') eqn:Hs'; try exact I;
    (assert (Hplay : state_name c = s_play)
       by (destruct (state_name c); try discriminate; reflexivity));
    destruct (changeState_from_play _ _ _ _ Hinv Hplay H) as (_ & a & Hattr & Hattr' & _);
    destruct Hinv as (_ & _ & _ & Hs); rewrite Hplay in Hs;
    destruct Hs as ((a0 & Hattr0 & _ & _ & (r & Hrisk & Hb) & _) & _);
    unfold state in Hattr; rewrite Hplay, Hattr0 in Hattr; injection Hattr as ->;
    exists (exit_payload a), r; (split; [exact Hattr'|]); simpl; auto.
Qed.

Lemma sized_update e n c c' :
  inv n c -> sized c -> Control.update e c = Ret c' -> sized c'.
Proof.
  intros Hinv Hz H.
  apply update_steps in H as (c1 & Hc1 & Hs & _ & _ & Hobj).
  assert (H1 : sized c1).
  { destruct (quit (state c)); [subst c1; exact Hz|].
    destruct (done (state c)); [|subst c1; exact Hz].
    eapply sized_changeState; eassumption. }
  unfold sized, state in *. rewrite Hs.
  destruct (state_name c1); try exact I;
    destruct H1 as (a & r & Hattr & H1); exists a, r;
    (split; [|exact H1]); rewrite (proj1 (Hobj _)); exact Hattr.
Qed.

Lemma sized_reachable e uid n active c :
  1 <= n -> reachable e uid n active c -> sized c.
Proof.
  intros Hn Hr. induction Hr as [c H | c ev c' Hr IH H | c c' Hr IH H].
  - injection H as <-. exact I.
  - eapply sized_handle_event; eassumption.
  - eapply sized_update; [|exact IH|exact H]. eapply inv_reachable; eassumption.
Qed.

(** With its images in place, the frame of a state can be drawn. *)
Lemma state_update_succeeds e n c :
  inv n c -> inv2 (loaded_table e) n c -> sized c ->
  images_present e (loaded_table e) ->
  exists o, state_update e (state_name c) (state c) = Ret o.
Proof.
  intros (_ & _ & _ & H1) (_ & H2) Hz (Hbang & Himg).
  unfold inv2_state in H2. unfold sized in Hz.
  destruct (state_name c) eqn:Hs; simpl.
  - eauto.
  - eauto.
  - destruct H2 as (a & Hattr & HT & _).
    destruct H1 as ((a1 & Hattr1 & _ & _ & (r & Hrisk & Hb) & _) & _).
    unfold state in Hattr. rewrite Hs, Hattr1 in Hattr. injection Hattr as ->.
    unfold Play.update, Play.draw, drawImage, state. rewrite Hs, Hattr1, Hrisk.
    rewrite Himg by (rewrite <- HT; exact Hb). simpl. eauto.
  - destruct H2 as (a & Hattr & HT & _).
    destruct Hz as (a1 & r & Hattr1 & Hrisk & Hb).
    rewrite Hattr in Hattr1. injection Hattr1 as <-.
    unfold EndRound.update, Popped.draw, EndRound.draw, drawImage.
    unfold state in Hattr. rewrite Hs in Hattr. unfold state. rewrite Hs, Hattr, Hrisk.
    rewrite Himg by (rewrite <- HT; exact Hb). simpl.
    destruct (Z.ltb_spec (a12_balloon_size a + 1) 0); [lia|]. simpl.
    rewrite Hbang. simpl. destruct (a12_active_response a); simpl; eauto.
  - destruct H2 as (a & Hattr & HT & _).
    destruct Hz as (a1 & r & Hattr1 & Hrisk & Hb).
    rewrite Hattr in Hattr1. injection Hattr1 as <-.
    unfold EndRound.update, Cashed.draw, EndRound.draw, drawImage.
    unfold state in Hattr. rewrite Hs in Hattr. unfold state. rewrite Hs, Hattr, Hrisk.
    rewrite Himg by (rewrite <- HT; exact Hb). simpl.
    destruct (a12_active_response a); simpl; eauto.
  - eauto.
Qed.

Lemma update_succeeds e n c :
  1 <= n -> peer_listens e -> images_present e (loaded_table e) ->
  inv n c -> inv2 (loaded_table e) n c -> sized c -> state_name c <> s_start ->
  exists c', Control.update e c = Ret c'.
Proof.
  intros Hn Hpeer Himg Hinv H2 Hz Hns.
  assert (Hc1 : exists c1,
            (if quit (state c)
             then Ret {| state_dict := state_dict c; state_name := state_name c;
                         c_done := true; c_world := c_world c |}
             else if done (state c) then Control.changeState e c else Ret c) = Ret c1
            /\ inv n c1 /\ inv2 (loaded_table e) n c1 /\ sized c1).
  { destruct (quit (state c)).
    - eexists. split; [reflexivity|]. destruct c as [d s dn w]. auto.
    - destruct (done (state c)) eqn:Hd; [|eauto].
      destruct (decide (state_name c = s_exit)) as [Hx|Hx].
      + destruct H2 as (Hdone & _). unfold state in Hd. rewrite Hx, Hdone in Hd.
        discriminate.
      + destruct (changeState_succeeds e n c Hn Hpeer Hinv Hns Hx) as [c1 Hc1].
        exists c1. split; [exact Hc1|]. split; [|split].
        * eapply inv_changeState; eassumption.
        * eapply inv2_changeState; eassumption.
        * eapply sized_changeState; eassumption. }
  destruct Hc1 as (c1 & Hc1 & I1 & I2 & I3).
  unfold Control.update. rewrite Hc1. simpl.
  destruct (state_update_succeeds e n c1 I1 I2 I3 Himg) as [o ->]. simpl. eauto.
Qed.

Lemma eventLoop_succeeds e uid n active events c :
  1 <= n -> table_positive (loaded_table e) -> reachable e uid n active c ->
  exists c', Control.eventLoop e events c = Ret c' /\ state_name c' = state_name c.
Proof.
  intros Hn Hpos. revert c. induction events as [|ev events IH]; intros c Hr; simpl.
  - eauto.
  - destruct (handle_event_succeeds e n c ev) as [c1 H1]; auto.
    { eapply inv_reachable; eassumption. }
    { eapply inv2_reachable; eassumption. }
    rewrite H1. simpl.
    destruct (IH c1) as (c' & H' & Hs'); [eapply reach_event; eassumption|].
    exists c'. split; [exact H'|].
    apply handle_event_world in H1 as (Hs1 & _). congruence.
Qed.

Lemma update_not_start e n c c' :
  inv n c -> state_name c <> s_start -> Control.update e c = Ret c' ->
  state_name c' <> s_start.
Proof.
  intros Hinv Hns H.
  apply update_world in H as [(-> & _) | (_ & _ & c1 & H & -> & _)]; [exact Hns|].
  apply (changeState_edge e n) in H; [|exact Hinv].
  intros Heq. rewrite Heq in H. destruct (state_name c); discriminate.
Qed.

(** X6. When every entry of the loaded table is 1 or more, the peer takes
    every trigger sent, and the working directory holds the bang image and,
    for every tier, a balloon image for each pump count that indexes the
    tier's list, no input makes a session raise once Setup has been
    entered: in every reachable state any list of events is handled, and
    from any reachable state other than Start the main loop handles and
    draws any frames of events to a result. *)
Theorem session_never_raises (e : env) (uid : string) (n : Z) (active : bool)
    (c : control) :
  1 <= n -> table_positive (loaded_table e) -> peer_listens e ->
  images_present e (loaded_table e) -> reachable e uid n active c ->
  (forall events, exists c', Control.eventLoop e events c = Ret c')
  /\ (state_name c <> s_start ->
        forall frames, exists c', Control.mainGameLoop e frames c = Ret c').
Proof.
  intros Hn Hpos Hpeer Himg Hr. split.
  - intros events.
    destruct (eventLoop_succeeds e uid n active events c Hn Hpos Hr) as (c' & H & _).
    eauto.
  - intros Hns frames. revert c Hr Hns.
    induction frames as [|events frames IH]; intros c Hr Hns; simpl; [eauto|].
    destruct (c_done c); [eauto|].
    destruct (eventLoop_succeeds e uid n active events c Hn Hpos Hr) as (c1 & H1 & Hs1).
    rewrite H1. simpl.
    assert (Hr1 : reachable e uid n active c1)
      by (eapply eventLoop_reachable; eassumption).
    destruct (update_succeeds e n c1) as [c2 H2]; auto.
    { eapply inv_reachable; eassumption. }
    { eapply inv2_reachable; eassumption. }
    { eapply sized_reachable; eassumption. }
    { congruence. }
    rewrite H2. simpl. apply IH.
    + eapply reach_update; eassumption.
    + eapply update_not_start; [| |exact H2]; [eapply inv_reachable; eassumption|congruence].
Qed.

(** X21. A round whose balloon image is not in the working directory ends
    the program with an exception: in Play, when the object is neither done
    nor quit and the image for its pump count and risk is missing, the
    frame's update raises FileNotFoundError. *)
Theorem missing_image_raises (e : env) (c : control) (a : play_attrs) :
  state_name c = s_play -> attributes (state c) = PlayAttrs a ->
  quit (state c) = false -> done (state c) = false ->
  files e (balloon_image (balloon_size a) (risk a)) = false ->
  Control.update e c = Raise FileNotFoundError.
Proof.
  intros Hs Hattr Hq Hd Hfile. unfold Control.update. rewrite Hq, Hd. simpl.
  rewrite Hs. simpl. unfold Play.update, Play.draw, drawImage.
  rewrite Hattr, Hfile. reflexivity.
Qed.

Lemma missing_image_raises_witness :
  exists c,
    (let* c0 := main no_image_env "0001" 1 true [[KEYDOWN K_RETURN]; []] in
     Control.handle_event no_image_env (KEYDOWN K_RIGHT) c0) = Ret c
    /\ Control.update no_image_env c = Raise FileNotFoundError.
Proof.
  eexists. split; [vm_compute; reflexivity|].
  match goal with
  | |- Control.update _ ?c = _ =>
      match eval vm_compute in (attributes (state c)) with
      | PlayAttrs ?a =>
          exact (missing_image_raises no_image_env c a eq_refl eq_refl eq_refl eq_refl
                   eq_refl)
      end
  end.
Defined.

Lemma sample_table_positive : table_positive (loaded_table sample_env).
Proof.
  assert (HT : loaded_table sample_env
               = {| t_high := [8; 6; 4; 2; 1]; t_medium := [10; 9; 8; 7; 6; 1];
                    t_low := [10; 10; 10; 1] |}) by (vm_compute; reflexivity).
  rewrite HT. intros r X H.
  destruct r; simpl in H;
    repeat (apply elem_of_cons in H as [->|H]; [lia|]); inversion H.
Qed.

Lemma session_never_raises_witness :
  exists c,
    main sample_env "0001" 2 true frames_one_pump = Ret c
    /\ exists c',
         Control.mainGameLoop sample_env [[KEYDOWN K_RIGHT]; [KEYDOWN K_LEFT]] c = Ret c'.
Proof.
  eexists. split; [vm_compute; reflexivity|].
  match goal with
  | |- context [Control.mainGameLoop _ _ ?c] =>
      exact (proj2 (session_never_raises sample_env "0001" 2 true c ltac:(lia)
                      sample_table_positive (fun _ => eq_refl)
                      (conj eq_refl (fun _ _ _ => eq_refl))
                      (main_reachable sample_env "0001" 2 true frames_one_pump c
                         ltac:(vm_compute; reflexivity)))
               ltac:(discriminate) [[KEYDOWN K_RIGHT]; [KEYDOWN K_LEFT]])
  end.
Defined.

(** X7. A table entry of 0 or less is not rejected by the loader, and the
    pump that reads it raises ValueError (randint is given an empty range):
    the session ends with an exception at that pump. *)
Theorem nonpositive_entry_raises (e : env) (uid : string) (n : Z) (active : bool)
    (c : control) (a : play_attrs) (r : tier) (X : Z) :
  1 <= n -> reachable e uid n active c ->
  state_name c = s_play -> attributes (state c) = PlayAttrs a ->
  risk a = Some r ->
  table_get (loaded_table e) r !! Z.to_nat (balloon_size a) = Some X ->
  X <= 0 ->
  Util.extractProb (prob_file e) = Ret (loaded_table e)
  /\ Control.handle_event e (KEYDOWN K_RIGHT) c = Raise ValueError.
Proof.
  intros Hn Hr Hs Hattr Hrisk HX Hle.
  pose proof (inv_reachable _ _ _ _ _ Hn Hr) as (_ & _ & _ & H1).
  pose proof (inv2_reachable _ _ _ _ _ Hn Hr) as (_ & H2).
  unfold inv2_state in H2. rewrite Hs in H1, H2.
  destruct H2 as (a2 & Hattr2 & HT & _).
  rewrite Hattr in Hattr2. injection Hattr2 as <-.
  destruct H1 as ((a1 & Hattr1 & Hc & _ & (r1 & Hrisk1 & Hb) & _) & _).
  pose proof Hattr as Hattr'. unfold state in Hattr'.
  rewrite Hs, Hattr1 in Hattr'. injection Hattr' as ->.
  split.
  - unfold loaded_table. destruct (Util.extractProb (prob_file e)) as [T|x] eqn:HE;
      [reflexivity|].
    exfalso. unfold loaded_table in HX. rewrite HE in HX.
    destruct r; simpl in HX; rewrite lookup_nil in HX; discriminate.
  - unfold Control.handle_event. rewrite Hs. simpl. rewrite Hattr, Hrisk, HT.
    unfold shouldPop. simpl.
    rewrite (getitem_lookup _ _ X) by (lia || exact HX). simpl.
    unfold randint. destruct (Z.ltb_spec 10 (10 - X + 1)); [reflexivity | lia].
Qed.

Lemma nonpositive_entry_raises_witness :
  exists c,
    main zero_env "0001" 1 true [[KEYDOWN K_RETURN]; []] = Ret c
    /\ state_name c = s_play
    /\ Control.handle_event zero_env (KEYDOWN K_RIGHT) c = Raise ValueError.
Proof.
  eexists. split; [vm_compute; reflexivity|]. split; [reflexivity|].
  match goal with
  | |- Control.handle_event _ _ ?c = _ =>
      match eval vm_compute in (attributes (state c)) with
      | PlayAttrs ?a =>
          exact (proj2 (nonpositive_entry_raises zero_env "0001" 1 true c a medium 0
                          ltac:(lia)
                          (main_reachable zero_env "0001" 1 true
                             [[KEYDOWN K_RETURN]; []] c ltac:(vm_compute; reflexivity))
                          eq_refl eq_refl eq_refl
                          ltac:(vm_compute; reflexivity) ltac:(lia)))
      end
  end.
Defined.

(** X9. Exit is final: in Exit every event is handled and the following
    update leaves the session in Exit with nothing further written, sent,
    opened or closed; the RETURN key ends the main loop. *)
Theorem exit_is_final (e : env) (uid : string) (n : Z) (active : bool)
    (c : control) (ev : event) :
  1 <= n -> reachable e uid n active c -> state_name c = s_exit ->
  exists c1 c2,
    Control.handle_event e ev c = Ret c1
    /\ Control.update e c1 = Ret c2
    /\ state_name c2 = s_exit
    /\ c_world c2 = c_world c
    /\ (ev = KEYDOWN K_RETURN -> c_done c2 = true).
Proof.
  intros Hn Hr Hs.
  assert (H1 : exists c1, Control.handle_event e ev c = Ret c1).
  { unfold Control.handle_event. rewrite Hs. simpl. eauto. }
  destruct H1 as [c1 H1]. exists c1.
  assert (Hr1 : reachable e uid n active c1) by (eapply reach_event; eassumption).
  pose proof (inv2_reachable _ _ _ _ _ Hn Hr1) as (Hdone & _).
  pose proof H1 as H1'.
  apply handle_event_world in H1' as (Hs1 & Hev & _ & _).
  rewrite Hs in Hev. simpl in Hev. injection Hev as Hobj Hw.
  assert (Hd1 : done (state c1) = false).
  { unfold state. rewrite Hs1, Hs. exact Hdone. }
  unfold Control.update. rewrite Hd1.
  destruct (quit (state c1)) eqn:Hq; simpl; rewrite Hs1, Hs; simpl.
  - eexists. split; [exact H1|]. split; [reflexivity|]. simpl.
    split; [congruence|]. split; [congruence|]. reflexivity.
  - eexists. split; [exact H1|]. split; [reflexivity|]. simpl.
    split; [congruence|]. split; [congruence|].
    intros ->. rewrite <- Hobj in Hq. simpl in Hq. discriminate.
Qed.

Lemma exit_is_final_witness :
  exists c,
    main sample_env "0001" 1 true frames_cash_in = Ret c
    /\ state_name c = s_exit
    /\ exists c1 c2,
         Control.handle_event sample_env (KEYDOWN K_RETURN) c = Ret c1
         /\ Control.update sample_env c1 = Ret c2
         /\ state_name c2 = s_exit
         /\ c_world c2 = c_world c
         /\ (KEYDOWN K_RETURN = KEYDOWN K_RETURN -> c_done c2 = true).
Proof.
  eexists. split; [vm_compute; reflexivity|]. split; [reflexivity|].
  match goal with
  | |- context [Control.handle_event _ _ ?c] =>
      exact (exit_is_final sample_env "0001" 1 true c (KEYDOWN K_RETURN) ltac:(lia)
               (main_reachable sample_env "0001" 1 true frames_cash_in c
                  ltac:(vm_compute; reflexivity))
               eq_refl)
  end.
Defined.

(** ** The balance of the log when frames hold at most one event *)

Lemma sum_round_money_snoc rows r :
  sum_round_money (rows ++ [r]) = sum_round_money rows + row_int r 1.
Proof.
  unfold sum_round_money. induction rows as [|x rows IH]; simpl; [lia|].
  rewrite IH. lia.
Qed.

Lemma last_total_snoc rows r : last_total (rows ++ [r]) = row_int r 2.
Proof. unfold last_total. rewrite last_snoc. reflexivity. Qed.

Lemma balance_snoc rows total (a : play_attrs) :
  balance rows total ->
  overall_total a = total + (if popped a then 0 else round_total a) ->
  balance (rows ++ [row_values a]) (overall_total a).
Proof.
  intros [Hsum Hpre] Ht.
  assert (Hall : sum_round_money (rows ++ [row_values a]) = overall_total a).
  { rewrite sum_round_money_snoc, Hsum. unfold row_int. simpl. lia. }
  split; [exact Hall|].
  intros k Hk. rewrite length_app in Hk. simpl in Hk.
  destruct (decide (k <= length rows)%nat) as [Hle|Hgt].
  - rewrite take_app_le by exact Hle. apply Hpre. lia.
  - rewrite take_ge by (rewrite length_app; simpl; lia).
    rewrite last_total_snoc, Hall. reflexivity.
Qed.

Lemma inv3_handle_event e ev n c c' :
  inv n c -> inv3 false c -> Control.handle_event e ev c = Ret c' -> inv3 true c'.
Proof.
  intros Hinv (Hq & Hd & Hs) H.
  apply handle_event_world in H as (Hst & Hev & Hother & _).
  assert (Hsc : state c' = state_dict c' (state_name c))
    by (unfold state; rewrite Hst; reflexivity).
  destruct (decide (state_name c = s_play)) as [Hp|Hp].
  - (* an event in Play *)
    unfold inv3_state in Hs. rewrite Hp in Hs, Hev, Hsc.
    destruct Hs as (a & Hattr & Hcase).
    pose proof Hattr as Hattr'. unfold state in Hattr'. rewrite Hp in Hattr'.
    assert (Hdone : done (state_dict c s_play) = false
                    /\ popped a = false
                    /\ balance (csv_rows (c_world c)) (overall_total a)).
    { unfold state in Hcase. rewrite Hp in Hcase.
      destruct (done (state_dict c s_play)); [destruct Hcase; discriminate | auto]. }
    destruct Hdone as (Hdn & Hpop & Hbal).
    unfold inv3, inv3_state. rewrite Hst, Hp, <- Hsc.
    remember (state c') as o' eqn:Ho'. remember (c_world c') as w' eqn:Hw'.
    clear Ho' Hw'. simpl in Hev. unfold state in Hev. rewrite Hp in Hev.
    destruct (Play_getEvent_cases _ _ _ _ _ _ a Hattr' Hev)
      as [(Ho & Hw) | [(_ & pos' & _ & Ho & Hw) | [(_ & pos' & _ & Ho & Hw)
         | (_ & Ho & Hw)]]]; rewrite Ho, Hw; simpl.
    + split; [exact Hq|]. split; [intros Hc; contradiction|].
      exists a. split; [exact Hattr'|]. rewrite Hdn. auto.
    + split; [exact Hq|]. split; [intros Hc; contradiction|].
      eexists. split; [reflexivity|]. rewrite Hdn. simpl. auto.
    + split; [exact Hq|]. split; [intros Hc; contradiction|].
      eexists. split; [reflexivity|]. split; [reflexivity|].
      apply (balance_snoc _ (overall_total a)); [exact Hbal | simpl; lia].
    + split; [exact Hq|]. split; [intros Hc; contradiction|].
      eexists. split; [reflexivity|]. split; [reflexivity|].
      apply (balance_snoc _ (overall_total a)); [exact Hbal|].
      simpl. rewrite Hpop. reflexivity.
  - (* an event elsewhere *)
    assert (Hw : c_world c' = c_world c /\ attributes (state c') = attributes (state c)).
    { remember (state c') as o'. remember (c_world c') as w'.
      destruct (state_name c) eqn:Hname; simpl in Hev; try contradiction.
      - injection Hev as <- <-. split; [reflexivity|].
        apply Start_getEvent_same.
      - injection Hev as <- <-. auto.
      - injection Hev as <- <-. split; [reflexivity|].
        apply EndRound_getEvent_same.
      - injection Hev as <- <-. split; [reflexivity|].
        apply EndRound_getEvent_same.
      - injection Hev as <- <-. split; [reflexivity|].
        apply Exit_getEvent_same. }
    destruct Hw as (Hw & Ha).
    assert (Hplay : state_dict c' s_play = state_dict c s_play)
      by (apply Hother; congruence).
    unfold inv3. rewrite Hplay, Hst. split; [exact Hq|]. split; [exact Hd|].
    unfold inv3_state in *. rewrite Hst, Hw, Ha.
    destruct (state_name c); try contradiction; exact Hs.
Qed.

Lemma inv3_mid_other mid mid' c :
  state_name c <> s_play -> inv3_state mid c -> inv3_state mid' c.
Proof.
  unfold inv3_state. destruct (state_name c); try contradiction; auto.
Qed.

Lemma balance_nil : balance [] 0.
Proof. split; [reflexivity | simpl; intros k Hk; lia]. Qed.

Lemma inv3_changeState e n c c' :
  1 <= n -> inv n c -> inv3 true c -> done (state c) = true ->
  Control.changeState e c = Ret c' -> inv3 false c'.
Proof.
  intros Hn Hinv (Hq & Hd & Hs) Hdone H.
  pose proof (changeState_edge _ _ _ _ Hinv H) as Hedge.
  assert (Hne : state_name c' <> state_name c).
  { intros Heq. rewrite Heq, edge_irrefl in Hedge. discriminate. }
  pose proof (changeState_flags _ _ _ H Hne s_play) as [Hq' Hd'].
  assert (Hdp : done (state_dict c' s_play) = false).
  { rewrite Hd'. destruct (decide (s_play = state_name c)) as [Hp|Hp]; [reflexivity|].
    apply Hd. congruence. }
  split; [rewrite Hq'; exact Hq|]. split; [intros _; exact Hdp|].
  unfold inv3_state in Hs |- *.
  destruct (state_name c) eqn:Hname.
  - apply (changeState_from_start e n) in H; [|exact Hinv|exact Hname].
    destruct H as (-> & T & a9 & pos' & _ & _ & Ha & _ & Htot & Hrows).
    exists a9. split; [exact Ha|]. rewrite Hrows, Htot. exact balance_nil.
  - apply (changeState_from_setup e n) in H; [|exact Hinv|exact Hname].
    destruct H as (Hs' & a & r & Hattr & Hr & Ha & Hrows).
    destruct Hs as (a1 & Hattr1 & Hbal).
    rewrite Hattr in Hattr1. injection Hattr1 as <-.
    rewrite Hs'. exists (fresh_round a r). split; [exact Ha|].
    unfold state. rewrite Hs', Hdp, Hrows. simpl. auto.
  - apply (changeState_from_play e n) in H; [|exact Hinv|exact Hname].
    destruct H as (Hs' & a & Hattr & Ha & Hrows).
    destruct Hs as (a1 & Hattr1 & Hcase).
    rewrite Hattr in Hattr1. injection Hattr1 as <-.
    rewrite Hdone in Hcase. destruct Hcase as [_ Hbal].
    assert (Hend : exists b, attributes (state c') = EndAttrs b
              /\ balance (csv_rows (c_world c')) (a12_overall_total b)).
    { exists (exit_payload a). split; [exact Ha|]. rewrite Hrows. exact Hbal. }
    destruct Hs' as [-> | ->]; exact Hend.
  - apply (changeState_from_end e n) in H; [|exact Hinv|left; exact Hname].
    destruct H as (a & Hattr & Hrows & Hcase).
    destruct Hs as (a1 & Hattr1 & Hbal).
    rewrite Hattr in Hattr1. injection Hattr1 as <-.
    destruct Hcase as [(_ & ->) | (_ & Hs' & r & _ & Ha)].
    + exists (a12_overall_total a). rewrite Hrows. exact Hbal.
    + rewrite Hs'. exists (fresh_round (end_payload a) r). split; [exact Ha|].
      unfold state. rewrite Hs', Hdp, Hrows. simpl. auto.
  - apply (changeState_from_end e n) in H; [|exact Hinv|right; exact Hname].
    destruct H as (a & Hattr & Hrows & Hcase).
    destruct Hs as (a1 & Hattr1 & Hbal).
    rewrite Hattr in Hattr1. injection Hattr1 as <-.
    destruct Hcase as [(_ & ->) | (_ & Hs' & r & _ & Ha)].
    + exists (a12_overall_total a). rewrite Hrows. exact Hbal.
    + rewrite Hs'. exists (fresh_round (end_payload a) r). split; [exact Ha|].
      unfold state. rewrite Hs', Hdp, Hrows. simpl. auto.
  - exfalso. eapply changeState_from_exit; eassumption.
Qed.

Lemma inv3_update e n c c' :
  1 <= n -> inv n c -> inv3 true c -> Control.update e c = Ret c' -> inv3 false c'.
Proof.
  intros Hn Hinv H3 H.
  apply update_steps in H as (c1 & Hc1 & Hs & Hw & _ & Hobj).
  assert (H1 : inv3 false c1).
  { destruct H3 as (Hq & Hd & Hst).
    destruct (quit (state c)) eqn:Hquit.
    - subst c1. split; [exact Hq|]. split; [exact Hd|].
      apply (inv3_mid_other true); [|exact Hst].
      simpl. intros Hp. unfold state in Hquit. rewrite Hp, Hq in Hquit. discriminate.
    - destruct (done (state c)) eqn:Hdone.
      + eapply inv3_changeState; try eassumption. split; auto.
      + subst c1. split; [exact Hq|]. split; [exact Hd|].
        unfold inv3_state in *. destruct (state_name c); auto.
        rewrite Hdone in *. exact Hst. }
  destruct H1 as (Hq1 & Hd1 & Hst1).
  assert (Hdone_play : done (state_dict c' s_play) = done (state_dict c1 s_play)).
  { destruct (Hobj s_play) as (_ & _ & _ & _ & Hd). rewrite Hd.
    apply decide_False. intros [? _]. discriminate. }
  split; [destruct (Hobj s_play) as (_ & _ & _ & Hq & _); rewrite Hq; exact Hq1|].
  split; [rewrite Hs, Hdone_play; exact Hd1|].
  unfold inv3_state, state in *. rewrite Hs, Hw.
  destruct (state_name c1) eqn:Hname; try exact Hst1.
  - destruct Hst1 as (a & Ha & Hb). exists a.
    destruct (Hobj s_setup) as (-> & _). auto.
  - destruct Hst1 as (a & Ha & Hb). exists a.
    destruct (Hobj s_play) as (-> & _). rewrite Hdone_play. auto.
  - destruct Hst1 as (a & Ha & Hb). exists a.
    destruct (Hobj s_popped) as (-> & _). auto.
  - destruct Hst1 as (a & Ha & Hb). exists a.
    destruct (Hobj s_cashed) as (-> & _). auto.
Qed.

Lemma inv3_weaken c : inv3 false c -> inv3 true c.
Proof.
  intros (Hq & Hd & Hs). split; [exact Hq|]. split; [exact Hd|].
  unfold inv3_state in *. destruct (state_name c); auto.
  destruct Hs as (a & Ha & Hcase). exists a. split; [exact Ha|].
  destruct (done (state c)); [destruct Hcase; discriminate | exact Hcase].
Qed.

Lemma inv3_mainGameLoop e uid n active frames c c' :
  1 <= n -> Forall (fun events : list event => (length events <= 1)%nat) frames ->
  reachable e uid n active c -> inv3 false c ->
  Control.mainGameLoop e frames c = Ret c' -> inv3 false c'.
Proof.
  intros Hn Hshort. revert c.
  induction Hshort as [|events frames Hlen _ IH]; intros c Hr H3 H; simpl in H.
  - injection H as <-. exact H3.
  - destruct (c_done c); [injection H as <-; exact H3|].
    inv_bind H. rename a into c1. inv_bind H. rename a into c2.
    assert (Hr1 : reachable e uid n active c1)
      by (eapply eventLoop_reachable; eassumption).
    apply (IH c2); [eapply reach_update; eassumption| |exact H].
    apply (inv3_update e n c1); [exact Hn| | |exact Hm0].
    + eapply inv_reachable; eassumption.
    + destruct events as [|ev [|ev' events]]; simpl in Hlen; [| |lia].
      * injection Hm as <-. apply inv3_weaken, H3.
      * simpl in Hm. inv_bind Hm. injection Hm as <-.
        eapply inv3_handle_event; [|exact H3|exact Hm1].
        eapply inv_reachable; eassumption.
Qed.

(** X8. In a session whose frames each deliver at most one event, the log
    balances: in every non-empty prefix of the rows the last total_money_won
    equals the sum of the round_money_won of the prefix, and while a round
    is being played the cumulative winnings equal the sum of the whole
    round_money_won column. *)
Theorem single_event_frames_balance (e : env) (uid : string) (n : Z) (active : bool)
    (frames : list (list event)) (c : control) :
  1 <= n -> Forall (fun events : list event => (length events <= 1)%nat) frames ->
  main e uid n active frames = Ret c ->
  (forall k : nat, (0 < k <= length (csv_rows (c_world c)))%nat ->
     last_total (take k (csv_rows (c_world c)))
     = sum_round_money (take k (csv_rows (c_world c))))
  /\ (forall a, state_name c = s_play -> attributes (state c) = PlayAttrs a ->
        overall_total a = sum_round_money (csv_rows (c_world c))).
Proof.
  intros Hn Hshort H.
  pose proof (inv_reachable _ _ _ _ _ Hn (main_reachable _ _ _ _ _ _ H)) as Hinv.
  unfold main in H. inv_bind H. rename a into c0.
  assert (H3 : inv3 false c).
  { apply (inv3_mainGameLoop e uid n active frames c0 c Hn Hshort);
      [apply reach_setup; exact Hm| |exact H].
    injection Hm as <-. split; [reflexivity|]. split; [reflexivity | exact I]. }
  destruct H3 as (_ & _ & Hs). unfold inv3_state in Hs. split.
  - destruct (state_name c) eqn:Hname.
    + rewrite (rows_at_start n c Hinv Hname). simpl. intros k Hk. lia.
    + destruct Hs as (a & _ & _ & Hp). exact Hp.
    + destruct Hs as (a & _ & Hcase).
      destruct (done (state c)); [destruct Hcase; discriminate|].
      destruct Hcase as (_ & _ & Hp). exact Hp.
    + destruct Hs as (a & _ & _ & Hp). exact Hp.
    + destruct Hs as (a & _ & _ & Hp). exact Hp.
    + destruct Hs as (t & _ & Hp). exact Hp.
  - intros a Hname Hattr. rewrite Hname in Hs.
    destruct Hs as (a1 & Hattr1 & Hcase).
    rewrite Hattr in Hattr1. injection Hattr1 as <-.
    destruct (done (state c)); [destruct Hcase; discriminate|].
    destruct Hcase as (_ & Hsum & _). symmetry. exact Hsum.
Qed.

Lemma single_event_frames_balance_witness :
  exists c,
    main sample_env "0001" 1 true (frames_one_pump ++ [[KEYDOWN K_LEFT]]) = Ret c
    /\ csv_rows (c_world c) = [[VInt 1; VInt 1; VInt 1; VBool false; VStr "medium"]]
    /\ forall k : nat, (0 < k <= length (csv_rows (c_world c)))%nat ->
         last_total (take k (csv_rows (c_world c)))
         = sum_round_money (take k (csv_rows (c_world c))).
Proof.
  eexists. split; [vm_compute; reflexivity|]. split; [reflexivity|].
  match goal with
  | |- context [c_world ?c] =>
      exact (proj1 (single_event_frames_balance sample_env "0001" 1 true
                      (frames_one_pump ++ [[KEYDOWN K_LEFT]]) c ltac:(lia)
                      ltac:(repeat constructor)
                      ltac:(vm_compute; reflexivity)))
  end.
Defined.

(** * The prompts *)

Example program_sample :
  exists c, program 5 ascii_unicode sample_console sample_env frames_one_pump = Ret c
    /\ state_name c = s_play
    /\ entered (c_world c) = [s_start; s_setup; s_play].
Proof. eexists. split; [vm_compute; reflexivity|]. split; reflexivity. Qed.

(** X10. getNumRounds returns a round count between 1 and 240: the first
    line of the console that reads as an integer in that range, every line
    before it having read as an integer outside it. *)
Theorem getNumRounds_validates (fuel : nat) (console : nat -> string) (pos : nat)
    (num : Z) (pos' : nat) :
  Prompts.getNumRounds fuel console pos = Ret (num, pos') ->
  1 <= num <= 240
  /\ exists k : nat,
       pos' = S (pos + k)
       /\ Text.int (console (pos + k)%nat) = Ret num
       /\ forall j : nat, (j < k)%nat ->
            exists m, Text.int (console (pos + j)%nat) = Ret m /\ (m < 1 \/ 240 < m).
Proof.
  revert pos. induction fuel as [|fuel IH]; intros pos H; simpl in H; [discriminate|].
  inv_bind H. rename a into m.
  destruct (Z.leb_spec 1 m); destruct (Z.leb_spec m 240); simpl in H;
    try (injection H as <- <-; split; [lia|]; exists 0%nat;
         rewrite Nat.add_0_r; split; [reflexivity|]; split; [exact Hm|];
         intros j Hj; lia);
    (apply IH in H as (Hrange & k & -> & Hk & Hbefore);
     split; [exact Hrange|]; exists (S k);
     split; [lia|]; split; [rewrite <- Nat.add_succ_comm; exact Hk|];
     intros [|j] Hj;
     [rewrite Nat.add_0_r; exists m; split; [exact Hm | lia]
     |rewrite <- Nat.add_succ_comm; apply Hbefore; lia]).
Qed.

Lemma getNumRounds_validates_witness :
  1 <= 2 <= 240
  /\ exists k : nat,
       5%nat = S (2 + k)
       /\ Text.int (sample_console (2 + k)%nat) = Ret 2
       /\ forall j : nat, (j < k)%nat ->
            exists m, Text.int (sample_console (2 + j)%nat) = Ret m
                      /\ (m < 1 \/ 240 < m).
Proof.
  exact (getNumRounds_validates 5 sample_console 2 2 5 eq_refl).
Defined.

(** X11. getNumRounds does not ask again after a line that is not an
    integer: when the lines before it were integers out of range, the
    exception int() raises on it leaves the prompt. *)
Theorem getNumRounds_not_a_number (fuel : nat) (console : nat -> string)
    (pos k : nat) (x : exn) :
  (k < fuel)%nat ->
  (forall j : nat, (j < k)%nat ->
     exists m, Text.int (console (pos + j)%nat) = Ret m /\ (m < 1 \/ 240 < m)) ->
  Text.int (console (pos + k)%nat) = Raise x ->
  Prompts.getNumRounds fuel console pos = Raise x.
Proof.
  revert pos k. induction fuel as [|fuel IH]; intros pos k Hk Hbefore Hx; [lia|].
  simpl. destruct k as [|k].
  - rewrite Nat.add_0_r in Hx. rewrite Hx. reflexivity.
  - destruct (Hbefore 0%nat ltac:(lia)) as (m & Hm & Hout).
    rewrite Nat.add_0_r in Hm. rewrite Hm. simpl.
    replace ((1 <=? m) && (m <=? 240)) with false
      by (destruct (Z.leb_spec 1 m); destruct (Z.leb_spec m 240); simpl; lia || reflexivity).
    apply (IH (S pos) k); [lia| |].
    + intros j Hj. rewrite Nat.add_succ_comm. apply Hbefore. lia.
    + rewrite Nat.add_succ_comm. exact Hx.
Qed.

Lemma getNumRounds_not_a_number_witness :
  Prompts.getNumRounds 3 (fun k => nth k ["999"; "ten"; "10"]%string ""%string) 0
  = Raise ValueError.
Proof.
  apply (getNumRounds_not_a_number 3 _ 0 1 ValueError); [lia| |reflexivity].
  intros j Hj. assert (j = 0%nat) as -> by lia.
  exists 999. split; [reflexivity | lia].
Defined.

(** X12. getBgImage returns the first of its answers that is one of police,
    trees, gambling, none ([None] for none), where the answers are the
    lines at even offsets: the line that follows a rejected answer is read
    and dropped, so the result does not depend on it, even when it is a
    valid choice. *)
Theorem getBgImage_drops_line (fuel : nat) (console : nat -> string) (pos : nat)
    (r : option string) (pos' : nat) :
  Prompts.getBgImage fuel console pos = Ret (r, pos') ->
  exists k : nat,
    pos' = S (pos + 2 * k)
    /\ Prompts.str_in (console (pos + 2 * k)%nat) Prompts.images = true
    /\ r = (if String.eqb (console (pos + 2 * k)%nat) "none" then None
            else Some (console (pos + 2 * k)%nat))
    /\ (forall j : nat, (j < k)%nat ->
          Prompts.str_in (console (pos + 2 * j)%nat) Prompts.images = false)
    /\ (forall console2 : nat -> string,
          (forall j : nat, (j <= k)%nat ->
             console2 (pos + 2 * j)%nat = console (pos + 2 * j)%nat) ->
          Prompts.getBgImage fuel console2 pos = Ret (r, pos')).
Proof.
  revert pos. induction fuel as [|fuel IH]; intros pos H; [discriminate|].
  cbn [Prompts.getBgImage] in H.
  destruct (Prompts.str_in (console pos) Prompts.images) eqn:Hvalid; cbn [negb] in H.
  - exists 0%nat. rewrite Nat.add_0_r.
    assert (Hr : pos' = S pos
                 /\ r = (if String.eqb (console pos) "none" then None
                         else Some (console pos))).
    { destruct (String.eqb (console pos) "none"); injection H as <- <-; auto. }
    destruct Hr as [-> ->].
    split; [reflexivity|]. split; [exact Hvalid|]. split; [reflexivity|].
    split; [intros j Hj; lia|].
    intros console2 Hsame. specialize (Hsame 0%nat ltac:(lia)).
    rewrite Nat.add_0_r in Hsame. cbn [Prompts.getBgImage].
    rewrite Hsame, Hvalid. cbn [negb].
    destruct (String.eqb (console pos) "none"); reflexivity.
  - apply IH in H as (k & -> & Hk & Hr & Hbefore & Hindep).
    exists (S k).
    replace (pos + 2 * S k)%nat with (S (S pos) + 2 * k)%nat by lia.
    split; [reflexivity|]. split; [exact Hk|]. split; [exact Hr|]. split.
    + intros [|j] Hj.
      * rewrite Nat.add_0_r. exact Hvalid.
      * replace (pos + 2 * S j)%nat with (S (S pos) + 2 * j)%nat by lia.
        apply Hbefore. lia.
    + intros console2 Hsame. cbn [Prompts.getBgImage].
      pose proof (Hsame 0%nat ltac:(lia)) as H0. rewrite Nat.add_0_r in H0.
      rewrite H0, Hvalid. cbn [negb]. apply Hindep.
      intros j Hj. replace (S (S pos) + 2 * j)%nat with (pos + 2 * S j)%nat by lia.
      apply Hsame. lia.
Qed.

Lemma getBgImage_drops_line_witness :
  exists k : nat,
    8%nat = S (5 + 2 * k)
    /\ Prompts.str_in (sample_console (5 + 2 * k)%nat) Prompts.images = true
    /\ Some "trees"%string
       = (if String.eqb (sample_console (5 + 2 * k)%nat) "none" then None
          else Some (sample_console (5 + 2 * k)%nat))
    /\ (forall j : nat, (j < k)%nat ->
          Prompts.str_in (sample_console (5 + 2 * j)%nat) Prompts.images = false)
    /\ (forall console2 : nat -> string,
          (forall j : nat, (j <= k)%nat ->
             console2 (5 + 2 * j)%nat = sample_console (5 + 2 * j)%nat) ->
          Prompts.getBgImage 5 console2 5 = Ret (Some "trees"%string, 8%nat)).
Proof.
  exact (getBgImage_drops_line 5 sample_console 5 (Some "trees"%string) 8 eq_refl).
Defined.

(** X13. getActiveResponses returns whether the first accepted answer is y,
    the answers being the lines at even offsets: after an answer other than
    y or n the next line is read and dropped, whatever it holds. *)
Theorem getActiveResponses_drops_line (fuel : nat) (console : nat -> string)
    (pos : nat) (b : bool) (pos' : nat) :
  Prompts.getActiveResponses fuel console pos = Ret (b, pos') ->
  exists k : nat,
    pos' = S (pos + 2 * k)
    /\ (console (pos + 2 * k)%nat = "y"%string /\ b = true
        \/ console (pos + 2 * k)%nat = "n"%string /\ b = false)
    /\ (forall j : nat, (j < k)%nat ->
          console (pos + 2 * j)%nat <> "y"%string
          /\ console (pos + 2 * j)%nat <> "n"%string)
    /\ (forall console2 : nat -> string,
          (forall j : nat, (j <= k)%nat ->
             console2 (pos + 2 * j)%nat = console (pos + 2 * j)%nat) ->
          Prompts.getActiveResponses fuel console2 pos = Ret (b, pos')).
Proof.
  revert pos. induction fuel as [|fuel IH]; intros pos H; [discriminate|].
  cbn [Prompts.getActiveResponses] in H.
  destruct (Prompts.str_in (console pos) ["y"; "n"]%string) eqn:Hvalid;
    cbn [negb] in H.
  - injection H as <- <-. exists 0%nat. rewrite Nat.add_0_r.
    split; [reflexivity|]. split; [|split; [intros j Hj; lia|]].
    + unfold Prompts.str_in in Hvalid. simpl in Hvalid.
      destruct (String.eqb_spec (console pos) "y") as [Hy|Hy];
        destruct (String.eqb_spec (console pos) "n") as [Hn|Hn];
        try discriminate; auto.
    + intros console2 Hsame. specialize (Hsame 0%nat ltac:(lia)).
      rewrite Nat.add_0_r in Hsame. cbn [Prompts.getActiveResponses].
      rewrite Hsame, Hvalid. reflexivity.
  - apply IH in H as (k & -> & Hk & Hbefore & Hindep).
    exists (S k).
    replace (pos + 2 * S k)%nat with (S (S pos) + 2 * k)%nat by lia.
    split; [reflexivity|]. split; [exact Hk|]. split.
    + intros [|j] Hj.
      * rewrite Nat.add_0_r. unfold Prompts.str_in in Hvalid. simpl in Hvalid.
        destruct (String.eqb_spec (console pos) "y");
          destruct (String.eqb_spec (console pos) "n");
          try discriminate; auto.
      * replace (pos + 2 * S j)%nat with (S (S pos) + 2 * j)%nat by lia.
        apply Hbefore. lia.
    + intros console2 Hsame. cbn [Prompts.getActiveResponses].
      pose proof (Hsame 0%nat ltac:(lia)) as H0. rewrite Nat.add_0_r in H0.
      rewrite H0, Hvalid. cbn [negb]. apply Hindep.
      intros j Hj. replace (S (S pos) + 2 * j)%nat with (pos + 2 * S j)%nat by lia.
      apply Hsame. lia.
Qed.

Lemma getActiveResponses_drops_line_witness :
  Prompts.getActiveResponses 3 (fun k => nth k ["yes"; "y"; "n"]%string ""%string) 0
  = Ret (false, 3%nat)
  /\ exists k : nat,
       3%nat = S (0 + 2 * k)
       /\ (nth (0 + 2 * k) ["yes"; "y"; "n"]%string ""%string = "y"%string
             /\ false = true
           \/ nth (0 + 2 * k) ["yes"; "y"; "n"]%string ""%string = "n"%string
              /\ false = false).
Proof.
  split; [reflexivity|].
  destruct (getActiveResponses_drops_line 3
              (fun k => nth k ["yes"; "y"; "n"]%string ""%string) 0 false 3 eq_refl)
    as (k & Hpos & Hk & _).
  exists k. split; [exact Hpos | exact Hk].
Defined.

(** ** The whole program *)

Lemma getUserID_Ret fuel u console pos uid pos' :
  Prompts.getUserID fuel u console pos = Ret (uid, pos') ->
  exists k : nat,
    (k < fuel)%nat /\ pos' = S (pos + k) /\ uid = console (pos + k)%nat
    /\ isdigit u uid = true /\ len u uid = 4
    /\ forall j : nat, (j < k)%nat ->
         isdigit u (console (pos + j)%nat) && (len u (console (pos + j)%nat) =? 4)
         = false.
Proof.
  revert pos. induction fuel as [|fuel IH]; intros pos H; [discriminate|].
  cbn [Prompts.getUserID] in H.
  destruct (isdigit u (console pos) && (len u (console pos) =? 4)) eqn:Hvalid.
  - injection H as <- <-. exists 0%nat. rewrite Nat.add_0_r.
    apply andb_true_iff in Hvalid as [Hd Hl]. apply Z.eqb_eq in Hl.
    repeat (split; [first [lia | reflexivity | assumption]|]).
    intros j Hj. lia.
  - apply IH in H as (k & Hk & -> & -> & Hd & Hl & Hbefore).
    exists (S k). replace (pos + S k)%nat with (S pos + k)%nat by lia.
    repeat (split; [first [lia | reflexivity | assumption]|]).
    intros [|j] Hj.
    + rewrite Nat.add_0_r. exact Hvalid.
    + replace (pos + S j)%nat with (S pos + j)%nat by lia. apply Hbefore. lia.
Qed.

Lemma getNumRounds_range fuel console pos num pos' :
  Prompts.getNumRounds fuel console pos = Ret (num, pos') -> 1 <= num <= 240.
Proof.
  revert pos. induction fuel as [|fuel IH]; intros pos H; [discriminate|].
  cbn [Prompts.getNumRounds] in H. inv_bind H.
  destruct ((1 <=? a) && (a <=? 240)) eqn:Hr.
  - injection H as <- <-. apply andb_true_iff in Hr as [H1 H2]. lia.
  - eapply IH, H.
Qed.

Lemma inv_rows_le n c :
  1 <= n -> inv n c -> Z.of_nat (length (csv_rows (c_world c))) <= n.
Proof.
  intros Hn (_ & _ & _ & H).
  destruct (state_name c).
  - destruct H as (_ & _ & _ & _ & _ & _ & (_ & Hr & _) & _). lia.
  - destruct H as (_ & _ & (_ & Hr & _) & _). lia.
  - destruct H as ((a & _ & _ & Hleft & _ & (_ & Hr & _)) & _). lia.
  - destruct H as ((a & _ & _ & Hleft & (_ & Hr & _) & _) & _). lia.
  - destruct H as ((a & _ & _ & Hleft & (_ & Hr & _) & _) & _). lia.
  - destruct H as (_ & _ & _ & _ & _ & (_ & Hr & _)). lia.
Qed.

(** X14. A run of the whole program that ends normally is a session of
    [main] on an ID the ID check accepted (all digits, length 4), a number
    of rounds between 1 and 240 and the answer to the active-response
    prompt; the position in the session's states is reachable, and the log
    never holds more rows than rounds, hence at most 240. The background
    image chosen only decides which image the window loads. *)
Theorem program_is_checked_session (fuel_prompt : nat) (u : unicode)
    (console : nat -> string) (e : env) (frames : list (list event)) (c : control) :
  program fuel_prompt u console e frames = Ret c ->
  exists (uid : string) (n : Z) (active : bool),
    isdigit u uid = true /\ len u uid = 4
    /\ 1 <= n <= 240
    /\ main e uid n active frames = Ret c
    /\ reachable e uid n active c
    /\ Z.of_nat (length (csv_rows (c_world c))) <= n.
Proof.
  unfold program. intros H.
  inv_bind H. destruct a as [uid p1].
  inv_bind H. destruct a as [n p2].
  inv_bind H. destruct a as [bg p3].
  inv_bind H. destruct a as [active p4].
  inv_bind H.
  apply getUserID_Ret in Hm as (k & _ & _ & _ & Hd & Hl & _).
  apply getNumRounds_range in Hm0.
  exists uid, n, active.
  pose proof (main_reachable _ _ _ _ _ _ H) as Hreach.
  repeat (split; [first [assumption | lia]|]).
  apply inv_rows_le; [lia|]. eapply inv_reachable; [lia | exact Hreach].
Qed.

Lemma program_is_checked_session_witness :
  exists c : control,
    program 5 ascii_unicode sample_console sample_env frames_cash_in = Ret c
    /\ exists (uid : string) (n : Z) (active : bool),
         isdigit ascii_unicode uid = true /\ len ascii_unicode uid = 4
         /\ 1 <= n <= 240
         /\ main sample_env uid n active frames_cash_in = Ret c
         /\ reachable sample_env uid n active c
         /\ Z.of_nat (length (csv_rows (c_world c))) <= n.
Proof.
  eexists. split; [vm_compute; reflexivity|].
  match goal with
  | |- context [c_world ?c] =>
      exact (program_is_checked_session 5 ascii_unicode sample_console sample_env
               frames_cash_in c ltac:(vm_compute; reflexivity))
  end.
Defined.

(** X15. getUserID returns the first line that is all digits and of length
    4, whatever was typed before it: every earlier line is asked for
    again. *)
Theorem getUserID_first_valid (fuel : nat) (u : unicode) (console : nat -> string)
    (pos k : nat) :
  (k < fuel)%nat ->
  (forall j : nat, (j < k)%nat ->
     isdigit u (console (pos + j)%nat) && (len u (console (pos + j)%nat) =? 4)
     = false) ->
  isdigit u (console (pos + k)%nat) = true ->
  len u (console (pos + k)%nat) = 4 ->
  Prompts.getUserID fuel u console pos = Ret (console (pos + k)%nat, S (pos + k)).
Proof.
  revert pos k. induction fuel as [|fuel IH]; intros pos k Hk Hbefore Hd Hl; [lia|].
  cbn [Prompts.getUserID]. destruct k as [|k].
  - rewrite Nat.add_0_r in *. rewrite Hd, Hl. reflexivity.
  - pose proof (Hbefore 0%nat ltac:(lia)) as H0. rewrite Nat.add_0_r in H0.
    rewrite H0. replace (pos + S k)%nat with (S pos + k)%nat in * by lia.
    apply IH; [lia| |assumption|assumption].
    intros j Hj. replace (S pos + j)%nat with (pos + S j)%nat by lia.
    apply Hbefore. lia.
Qed.

Lemma getUserID_first_valid_witness :
  Prompts.getUserID 5 ascii_unicode sample_console 0 = Ret ("0042"%string, 2%nat).
Proof.
  apply (getUserID_first_valid 5 ascii_unicode sample_console 0 1).
  - lia.
  - intros [|j] Hj; [reflexivity | lia].
  - reflexivity.
  - reflexivity.
Defined.

(** ** The loader's input *)

Lemma int_raises s x :
  Text.int s = Raise x -> x = ValueError.
Proof.
  unfold Text.int.
  destruct (match Text.strip (list_ascii_of_string s) with
            | [] => _ | _ => _ end) as [z|].
  - destruct (_ <? _)%nat; [intros [= <-]; reflexivity | discriminate].
  - intros [= <-]. reflexivity.
Qed.

Lemma map_int_raises l x :
  map_res Text.int l = Raise x -> x = ValueError.
Proof.
  induction l as [|s l IH]; simpl; [discriminate|].
  destruct (Text.int s) as [z|y] eqn:Hs; simpl.
  - destruct (map_res Text.int l) as [ys|y]; simpl; [discriminate|].
    intros [= <-]. apply IH. reflexivity.
  - intros [= <-]. eapply int_raises, Hs.
Qed.

Lemma extractProb_loop_raises rs file probs x :
  Util.extractProb_loop rs file probs = Raise x -> x = ValueError.
Proof.
  revert file probs. induction rs as [|r rs IH]; intros file probs; simpl.
  - discriminate.
  - destruct (readline file) as [line file'].
    destruct (map_res Text.int (Text.split "," line)) as [es|y] eqn:Hes; simpl.
    + apply IH.
    + intros [= <-]. eapply map_int_raises, Hes.
Qed.

Lemma extractProb_loop_short rs file probs :
  (length file < length rs)%nat ->
  Util.extractProb_loop rs file probs = Raise ValueError.
Proof.
  revert file probs. induction rs as [|r rs IH]; intros file probs Hlen; simpl in *.
  - lia.
  - destruct file as [|line file']; simpl.
    + reflexivity.
    + destruct (map_res Text.int (Text.split "," line)) as [es|y] eqn:Hes; simpl.
      * apply IH. simpl in Hlen. lia.
      * apply map_int_raises in Hes. congruence.
Qed.

(** X16. extractProb fails on a file of fewer than three lines, whatever
    the lines hold: readline gives the empty string past the end, and int
    of it raises ValueError; ValueError is also the only exception the
    loader raises on any file. *)
Theorem extractProb_short_file_raises (file : list string) :
  (length file < 3)%nat ->
  Util.extractProb file = Raise ValueError
  /\ forall (file' : list string) (x : exn),
       Util.extractProb file' = Raise x -> x = ValueError.
Proof.
  intros Hlen. split.
  - apply extractProb_loop_short. simpl. lia.
  - intros file' x. apply extractProb_loop_raises.
Qed.

Lemma extractProb_short_file_raises_witness :
  Util.extractProb ["8,6,4,2"; "10,9,8,7,6"]%string = Raise ValueError.
Proof.
  apply (extractProb_short_file_raises ["8,6,4,2"; "10,9,8,7,6"]%string).
  simpl. lia.
Defined.

Lemma split_length sep s :
  length (Text.split sep s) = S (count_char sep s).
Proof.
  induction s as [|c s IH]; simpl; [reflexivity|].
  destruct (Ascii.eqb c sep); simpl; [lia|].
  destruct (Text.split sep s) as [|w ws]; simpl in *; lia.
Qed.

Lemma map_res_length {A B : Type} (f : A -> res B) (l : list A) (ys : list B) :
  map_res f l = Ret ys -> length ys = length l.
Proof.
  revert ys. induction l as [|x l IH]; intros ys; simpl.
  - intros [= <-]. reflexivity.
  - intros H. inv_bind H. inv_bind H. injection H as <-. simpl.
    f_equal. apply IH. assumption.
Qed.

(** X17. A table that extractProb returns comes from a file with at least
    three lines, and depends on the first three only; the list of a tier
    has one entry for every comma-separated field of its line (commas + 1)
    and then the sentinel, so a line with c commas allows at most c + 1
    pumps. *)
Theorem extractProb_three_lines (file : list string) (T : table) :
  Util.extractProb file = Ret T ->
  exists (l1 l2 l3 : string) (rest : list string),
    file = l1 :: l2 :: l3 :: rest
    /\ Util.extractProb [l1; l2; l3] = Ret T
    /\ length (t_high T) = (count_char "," l1 + 2)%nat
    /\ length (t_medium T) = (count_char "," l2 + 2)%nat
    /\ length (t_low T) = (count_char "," l3 + 2)%nat.
Proof.
  intros H.
  destruct file as [|l1 [|l2 [|l3 rest]]];
    try (unfold Util.extractProb in H;
         rewrite extractProb_loop_short in H by (simpl; lia); discriminate).
  exists l1, l2, l3, rest. split; [reflexivity|]. split; [exact H|].
  unfold Util.extractProb in H. simpl in H.
  inv_bind H. rename a into e1. inv_bind H. rename a into e2.
  inv_bind H. rename a into e3. injection H as <-. simpl.
  apply map_res_length in Hm, Hm0, Hm1.
  rewrite !length_app, Hm, Hm0, Hm1, !split_length. simpl. lia.
Qed.

Lemma extractProb_three_lines_witness :
  exists (l1 l2 l3 : string) (rest : list string),
    prob_file sample_env = l1 :: l2 :: l3 :: rest
    /\ Util.extractProb [l1; l2; l3] = Ret (loaded_table sample_env)
    /\ length (t_high (loaded_table sample_env)) = (count_char "," l1 + 2)%nat
    /\ length (t_medium (loaded_table sample_env)) = (count_char "," l2 + 2)%nat
    /\ length (t_low (loaded_table sample_env)) = (count_char "," l3 + 2)%nat.
Proof.
  exact (extractProb_three_lines (prob_file sample_env) (loaded_table sample_env)
           eq_refl).
Defined.

(** ** Schedules without rounds *)

Lemma upper_bound_nonpos i n :
  n <= 0 -> n <> -1 -> Util.upper_bound i n <= 0.
Proof.
  intros Hn Hne. unfold Util.upper_bound.
  assert (Hd : n / 3 <= 0) by (apply Z.div_le_upper_bound; lia).
  destruct ((i =? 1) && negb (n / 3 + n mod 3 =? 0)); [|exact Hd].
  pose proof (Z.div_mod n 3 ltac:(lia)) as Hdm.
  pose proof (Z.mod_pos_bound n 3 ltac:(lia)) as Hm. lia.
Qed.

(** X18. populateRisks on a number of rounds that is not positive: for 0
    and for every negative number except -1 it returns the empty schedule
    without drawing a random number; for -1 the medium tier gets one slot
    to fill (-1 // 3 + -1 % 3 = 1) and randint(0, -2) raises ValueError. *)
Theorem populateRisks_no_rounds (fuel : nat) (rand : rng) (n : Z) (pos : nat) :
  n <= 0 ->
  (n <> -1 -> Util.populateRisks fuel rand n pos = Ret ([], pos))
  /\ (n = -1 -> Util.populateRisks (S fuel) rand n pos = Raise ValueError).
Proof.
  intros Hn. split.
  - intros Hne. unfold Util.populateRisks.
    replace (Z.to_nat n) with 0%nat by lia.
    cbn [replicate Util.seed_levels].
    pose proof (upper_bound_nonpos 0 n Hn Hne) as H0.
    pose proof (upper_bound_nonpos 1 n Hn Hne) as H1.
    pose proof (upper_bound_nonpos 2 n Hn Hne) as H2.
    replace (Z.to_nat (Util.upper_bound 0 n)) with 0%nat by lia.
    replace (Z.to_nat (Util.upper_bound 1 n)) with 0%nat by lia.
    replace (Z.to_nat (Util.upper_bound 2 n)) with 0%nat by lia.
    reflexivity.
  - intros ->. reflexivity.
Qed.

Lemma populateRisks_no_rounds_witness :
  Util.populateRisks 3 (fun _ => 0) (-2) 0 = Ret ([], 0%nat).
Proof.
  apply (populateRisks_no_rounds 3 (fun _ => 0) (-2) 0); lia.
Defined.

(** ** The user ID and the active-response choice *)

Lemma agree_bind {A B : Type} (R : A -> A -> Prop) (S : B -> B -> Prop)
    (m m' : res A) (k k' : A -> res B) :
  agree R m m' ->
  (forall a a', R a a' -> agree S (k a) (k' a')) ->
  agree S (bind m k) (bind m' k').
Proof.
  destruct m as [a|x], m' as [a'|x']; simpl; intros H Hk;
    [apply Hk; exact H | contradiction | contradiction | exact H].
Qed.

Lemma agree_refl {A : Type} (R : A -> A -> Prop) (r : res A) :
  (forall a, R a a) -> agree R r r.
Proof. destruct r; simpl; auto. Qed.

Lemma erase_obj_split o o' :
  erase_obj o = erase_obj o' ->
  quit o = quit o' /\ done o = done o' /\ next o = next o'
  /\ previous o = previous o'
  /\ erase_attrs (attributes o) = erase_attrs (attributes o').
Proof.
  unfold erase_obj, set_attributes. simpl. intros [=]. auto.
Qed.

Lemma erase_obj_join o o' :
  quit o = quit o' -> done o = done o' -> next o = next o' ->
  previous o = previous o' ->
  erase_attrs (attributes o) = erase_attrs (attributes o') ->
  erase_obj o = erase_obj o'.
Proof.
  unfold erase_obj, set_attributes. simpl. intros -> -> -> -> ->. reflexivity.
Qed.

Lemma enter_same e s o o' args args' w :
  erase_obj o = erase_obj o' -> erase_payload args = erase_payload args' ->
  agree same_obj_world (enter e s o args w) (enter e s o' args' w).
Proof.
  intros Ho Ha. apply erase_obj_split in Ho as (Hq & Hd & Hn & Hp & _).
  destruct o as [q d n p at1], o' as [q' d' n' p' at2]. simpl in *. subst.
  destruct args as [[]|[]|[]|], args' as [[]|[]|[]|]; simpl in Ha;
    try discriminate; simplify_eq;
    destruct s; simpl; try reflexivity;
    unfold same_obj_world, erase_obj, set_attributes, set_next,
      Setup.enter, Play.enter, Popped.enter, Cashed.enter, EndRound.enter,
      EndRound.trigger, Exit.enter; simpl;
    repeat match goal with
      | |- context [Util.extractProb ?f] => destruct (Util.extractProb f); simpl
      | |- context [Util.populateRisks ?a ?b ?c ?d] =>
          destruct (Util.populateRisks a b c d) as [[? ?]|]; simpl
      | |- context [getitem ?l ?i] => destruct (getitem l i); simpl
      | |- context [?x =? 0] => destruct (x =? 0); simpl
      | |- context [sendall ?h ?c ?w] => destruct (sendall h c w); simpl
      end;
    auto.
Qed.

Ltac same_attrs Ho o o' :=
  let Hq := fresh "Hq" in let Hd := fresh "Hd" in let Hn := fresh "Hn" in
  let Hp := fresh "Hp" in let Hat := fresh "Hat" in
  apply erase_obj_split in Ho as (Hq & Hd & Hn & Hp & Hat);
  destruct o as [? ? ? ? [|[]|[]|[]|[]|]], o' as [? ? ? ? [|[]|[]|[]|[]|]];
  simpl in Hq, Hd, Hn, Hp, Hat; try discriminate; simplify_eq.

Lemma exit_same s o o' w :
  erase_obj o = erase_obj o' ->
  agree same_payload_world (exit s o w) (exit s o' w).
Proof.
  intros Ho. same_attrs Ho o o'; destruct s; simpl; try reflexivity;
    unfold same_payload_world; simpl; auto.
  all: unfold Play.exit, Play.row; simpl;
    match goal with
    | |- context [writerow ?f ?r ?w] => destruct (writerow f r w); simpl; auto
    end.
Qed.

Lemma cleanup_same s o o' :
  erase_obj o = erase_obj o' ->
  agree (fun a a' => erase_obj a = erase_obj a') (cleanup s o) (cleanup s o').
Proof.
  intros Ho. same_attrs Ho o o'; destruct s; simpl; try reflexivity.
Qed.

Lemma getEvent_same e s ev o o' w :
  erase_obj o = erase_obj o' ->
  agree same_obj_world (getEvent e s ev o w) (getEvent e s ev o' w).
Proof.
  intros Ho. same_attrs Ho o o'; destruct s; simpl;
    unfold same_obj_world; simpl; auto;
    try (destruct ev as [| |[]|]; simpl; auto; fail).
  all: destruct ev as [| |[]|]; simpl; auto;
    match goal with
    | |- context [shouldPop ?r ?p ?t ?b ?w] =>
        destruct (shouldPop r p t b w) as [[[] ?]|]; simpl; auto
    end.
Qed.

Lemma state_update_erased e s o o' :
  erase_obj o = erase_obj o' ->
  agree (fun a a' => erase_obj a = erase_obj a')
    (state_update e s o) (state_update e s o').
Proof.
  intros Ho. same_attrs Ho o o'; destruct s; simpl; try reflexivity;
    unfold Play.update, EndRound.update, Play.draw, Popped.draw, Cashed.draw,
      EndRound.draw, drawImage; simpl;
    repeat match goal with
      | |- context [files ?e ?f] => destruct (files e f); simpl
      | |- context [?x <? 0] => destruct (x <? 0); simpl
      | |- context [if ?b then displayText else _] => destruct b; simpl
      | |- context [if ?b then bind displayText _ else _] => destruct b; simpl
      end;
    reflexivity.
Qed.

Lemma dict_upd_same d d' s o o' :
  (forall t, erase_obj (d t) = erase_obj (d' t)) ->
  erase_obj o = erase_obj o' ->
  forall t, erase_obj (dict_upd d s o t) = erase_obj (dict_upd d' s o' t).
Proof.
  intros Hd Ho t. unfold dict_upd. destruct (decide (t = s)); auto.
Qed.

Lemma handle_event_same e ev c c' :
  same_session c c' ->
  agree same_session (Control.handle_event e ev c) (Control.handle_event e ev c').
Proof.
  intros (Hs & Hdone & Hw & Hd). unfold Control.handle_event, state.
  rewrite <- Hs, <- Hw, <- Hdone.
  eapply agree_bind; [apply getEvent_same, Hd|].
  intros [o w] [o' w'] [Ho Hww]. simpl in Ho, Hww. subst w'. simpl.
  repeat split; simpl; auto. apply dict_upd_same; assumption.
Qed.

Lemma eventLoop_same e events c c' :
  same_session c c' ->
  agree same_session (Control.eventLoop e events c) (Control.eventLoop e events c').
Proof.
  revert c c'. induction events as [|ev events IH]; intros c c' H; simpl.
  - exact H.
  - eapply agree_bind; [apply handle_event_same, H|]. intros a a' Ha. apply IH, Ha.
Qed.

Lemma set_done_same b o o' :
  erase_obj o = erase_obj o' -> erase_obj (set_done b o) = erase_obj (set_done b o').
Proof.
  intros Ho. apply erase_obj_split in Ho as (Hq & Hd & Hn & Hp & Hat).
  apply erase_obj_join; simpl; auto.
Qed.

Lemma set_previous_same p o o' :
  erase_obj o = erase_obj o' ->
  erase_obj (set_previous p o) = erase_obj (set_previous p o').
Proof.
  intros Ho. apply erase_obj_split in Ho as (Hq & Hd & Hn & Hp & Hat).
  apply erase_obj_join; simpl; auto.
Qed.

Lemma changeState_same e c c' :
  same_session c c' ->
  agree same_session (Control.changeState e c) (Control.changeState e c').
Proof.
  intros (Hs & Hdone & Hw & Hd). unfold Control.changeState, state.
  rewrite <- Hs, <- Hw, <- Hdone.
  pose proof (set_done_same false _ _ (Hd (state_name c))) as Ho.
  eapply agree_bind; [apply exit_same, Ho|].
  intros [args w1] [args' w1'] [Hargs Hw1]. simpl in Hargs, Hw1. subst w1'.
  eapply agree_bind; [apply cleanup_same, Ho|].
  intros o1 o1' Ho1.
  assert (Hnext : next (set_done false (state_dict c (state_name c)))
                  = next (set_done false (state_dict c' (state_name c)))).
  { apply erase_obj_split in Ho. tauto. }
  rewrite <- Hnext.
  destruct (next (set_done false (state_dict c (state_name c)))) as [s|];
    [|reflexivity].
  eapply agree_bind.
  - apply enter_same; [|exact Hargs]. apply dict_upd_same; assumption.
  - intros [n w2] [n' w2'] [Hn Hw2]. simpl in Hn, Hw2. subst w2'. simpl.
    repeat split; simpl; auto.
    apply dict_upd_same; [apply dict_upd_same; assumption|].
    apply set_previous_same, Hn.
Qed.

Lemma update_same e c c' :
  same_session c c' ->
  agree same_session (Control.update e c) (Control.update e c').
Proof.
  intros H. pose proof H as (Hs & Hdone & Hw & Hd). unfold Control.update.
  eapply agree_bind.
  - instantiate (1 := same_session).
    pose proof (erase_obj_split _ _ (Hd (state_name c))) as (Hq & Hdn & _).
    unfold state. rewrite <- Hs, <- Hq, <- Hdn.
    destruct (quit (state_dict c (state_name c))).
    + simpl. repeat split; simpl; auto.
    + destruct (done (state_dict c (state_name c))).
      * apply changeState_same, H.
      * exact H.
  - intros c1 c1' (Hs1 & Hdone1 & Hw1 & Hd1). unfold state. rewrite <- Hs1.
    eapply agree_bind; [apply state_update_erased, Hd1|].
    intros o1 o1' Ho1. simpl. repeat split; simpl; auto.
    apply dict_upd_same; assumption.
Qed.

Lemma mainGameLoop_same e frames c c' :
  same_session c c' ->
  agree same_session (Control.mainGameLoop e frames c)
    (Control.mainGameLoop e frames c').
Proof.
  revert c c'. induction frames as [|events frames IH]; intros c c' H; simpl.
  - exact H.
  - pose proof H as (_ & Hdone & _). rewrite <- Hdone.
    destruct (c_done c); [exact H|].
    eapply agree_bind; [apply eventLoop_same, H|]. intros c1 c1' H1.
    eapply agree_bind; [apply update_same, H1|]. intros c2 c2' H2.
    apply IH, H2.
Qed.

(** X19. The user ID (it only names the log file) and the active-response
    choice (it only decides what is drawn) have no effect on the course of
    a session: two sessions that differ only in them, on the same
    probability file, generator and input, both raise the same exception or
    both end in the same state with the same flags, the same header and
    rows in the log, the same triggers on the socket, the same opens and
    closes and the same generator position. *)
Theorem id_and_feedback_do_not_matter (e : env) (uid uid' : string) (n : Z)
    (active active' : bool) (frames : list (list event)) :
  agree same_session (main e uid n active frames) (main e uid' n active' frames).
Proof.
  unfold main. eapply agree_bind; [|intros; apply mainGameLoop_same; eassumption].
  unfold Control.setupStates.
  eapply agree_bind.
  - apply enter_same; reflexivity.
  - intros [o w] [o' w'] [Ho Hw]. simpl in Ho, Hw. subst w'. simpl.
    repeat split; simpl; auto. apply dict_upd_same; auto.
Qed.

(** ** Closing the window *)

Lemma eventLoop_done_sticky e events c c' :
  Control.eventLoop e events c = Ret c' -> c_done c = true -> c_done c' = true.
Proof.
  revert c. induction events as [|ev events IH]; intros c H Hd; simpl in H.
  - injection H as <-. exact Hd.
  - inv_bind H. apply IH in H; [exact H|].
    apply handle_event_world in Hm as (_ & _ & _ & ->). destruct ev; auto.
Qed.

Lemma eventLoop_QUIT e events c c' :
  In QUIT events -> Control.eventLoop e events c = Ret c' -> c_done c' = true.
Proof.
  revert c. induction events as [|ev events IH]; intros c Hin H; simpl in *.
  - contradiction.
  - inv_bind H. destruct Hin as [->|Hin].
    + apply eventLoop_done_sticky in H; [exact H|].
      apply handle_event_world in Hm as (_ & _ & _ & ->). reflexivity.
    + eapply IH; eassumption.
Qed.

Lemma update_done_sticky e c c' :
  Control.update e c = Ret c' -> c_done c = true -> c_done c' = true.
Proof.
  intros H Hd. apply update_steps in H as (c1 & Hc1 & _ & _ & -> & _).
  destruct (quit (state c)); [subst c1; reflexivity|].
  destruct (done (state c)); [|subst c1; exact Hd].
  apply changeState_steps in Hc1 as (? & ? & ? & ? & ? & _ & _ & _ & _ & _ & -> & _).
  exact Hd.
Qed.

(** X20. Closing the window ends the session at the end of the frame in
    which the QUIT event arrives: the other events of that frame are still
    handled and update runs once more (a pending change of state is still
    made), then the loop stops with done set and no later frame is read. *)
Theorem window_close_ends_session (e : env) (events : list event)
    (frames : list (list event)) (c : control) :
  c_done c = false ->
  In QUIT events ->
  Control.mainGameLoop e (events :: frames) c
  = (let* c1 := Control.eventLoop e events c in Control.update e c1)
  /\ forall c2, Control.mainGameLoop e (events :: frames) c = Ret c2 ->
       c_done c2 = true.
Proof.
  intros Hd Hin.
  assert (Hloop : Control.mainGameLoop e (events :: frames) c
                  = (let* c1 := Control.eventLoop e events c in Control.update e c1)).
  { cbn [Control.mainGameLoop]. rewrite Hd.
    destruct (Control.eventLoop e events c) as [c1|x] eqn:H1; simpl; [|reflexivity].
    destruct (Control.update e c1) as [c2|x] eqn:H2; simpl; [|reflexivity].
    pose proof (update_done_sticky _ _ _ H2 (eventLoop_QUIT _ _ _ _ Hin H1)) as Hd2.
    destruct frames as [|f frames']; simpl; [reflexivity|]. rewrite Hd2. reflexivity. }
  split; [exact Hloop|].
  intros c2 H. rewrite Hloop in H. inv_bind H.
  eapply update_done_sticky; [exact H|]. eapply eventLoop_QUIT; eassumption.
Qed.

Lemma window_close_ends_session_witness :
  exists c : control,
    main sample_env "0001" 1 true [] = Ret c
    /\ Control.mainGameLoop sample_env
         ([KEYDOWN K_RETURN; QUIT] :: [[KEYDOWN K_RIGHT]]) c
       = (let* c1 := Control.eventLoop sample_env [KEYDOWN K_RETURN; QUIT] c in
          Control.update sample_env c1)
    /\ forall c2,
         Control.mainGameLoop sample_env
           ([KEYDOWN K_RETURN; QUIT] :: [[KEYDOWN K_RIGHT]]) c = Ret c2 ->
         c_done c2 = true.
Proof.
  eexists. split; [vm_compute; reflexivity|].
  match goal with
  | |- Control.mainGameLoop _ _ ?c = _ /\ _ =>
      apply (window_close_ends_session sample_env [KEYDOWN K_RETURN; QUIT]
               [[KEYDOWN K_RIGHT]] c)
  end.
  - reflexivity.
  - simpl. auto.
Defined.
